(** * Session and streaming state management of the Gemini chat client

    A shallow embedding of [src/App.tsx], [src/types.ts] and the service
    module ([createChatSession], [sendMessageStream], [generateChatTitle]).

    React state is an explicit record; every [setX(prev => ...)] call is
    the function it passes; [crypto.randomUUID()] and [Date.now()] are
    values supplied by the environment, one per call site; the remote
    stream is a list of chunks followed by exhaustion or an exception. *)

From Stdlib Require Import List ZArith NArith Bool Lia String Ascii Sorted Permutation.
Import ListNotations.

Set Implicit Arguments.

(* ================================================================== *)
(** ** JavaScript strings *)
(* ================================================================== *)

(** A JavaScript string is a sequence of UTF-16 code units. *)
Abbreviation char16 := N (only parsing).
Abbreviation jsstring := (list N) (only parsing).

(** An ASCII literal of the source, as code units. *)
Definition lit (s : string) : jsstring :=
  List.map N_of_ascii (list_ascii_of_string s).

Fixpoint jsstring_eqb (a b : jsstring) : bool :=
  match a, b with
  | [], [] => true
  | x :: a', y :: b' => N.eqb x y && jsstring_eqb a' b'
  | _, _ => false
  end.

(** [a === b] on [string | null]. *)
Definition optstring_eqb (a : option jsstring) (b : jsstring) : bool :=
  match a with
  | Some x => jsstring_eqb x b
  | None => false
  end.

(** Truthiness of a string: the empty string is the only falsy one. *)
Definition truthy (s : jsstring) : bool :=
  match s with [] => false | _ :: _ => true end.

(** ECMAScript WhiteSpace and LineTerminator code points; all of them are
    in the basic plane, so the test is on single code units. *)
Definition isWhiteSpace (c : char16) : bool :=
  ((9 <=? c) && (c <=? 13) || (c =? 32) || (c =? 160) || (c =? 5760)
   || (8192 <=? c) && (c <=? 8202)
   || (c =? 8232) || (c =? 8233) || (c =? 8239) || (c =? 8287)
   || (c =? 12288) || (c =? 65279))%N.

Fixpoint trimStart (s : jsstring) : jsstring :=
  match s with
  | c :: s' => if isWhiteSpace c then trimStart s' else s
  | [] => []
  end.

Definition trimEnd (s : jsstring) : jsstring := rev (trimStart (rev s)).

(** [String.prototype.trim]. *)
Definition trim (s : jsstring) : jsstring := trimEnd (trimStart s).

(* ================================================================== *)
(** ** Data model ([src/types.ts]) *)
(* ================================================================== *)

Inductive Role := RoleUser | RoleModel.

Module Message.
Record t := mk {
  id : jsstring;
  role : Role;
  content : jsstring;
  timestamp : Z
}.

(** [{ ...m, content: c }] *)
Definition withContent (m : t) (c : jsstring) : t :=
  mk (id m) (role m) c (timestamp m).
End Message.
Abbreviation Message := Message.t (only parsing).

Module ChatSession.
Record t := mk {
  id : jsstring;
  title : jsstring;
  messages : list Message;
  createdAt : Z;
  lastUpdated : Z
}.

(** [{ ...s, messages: ms }] *)
Definition withMessages (s : t) (ms : list Message) : t :=
  mk (id s) (title s) ms (createdAt s) (lastUpdated s).

(** [{ ...s, messages: ms, lastUpdated: now }] *)
Definition withMessagesAt (s : t) (ms : list Message) (now : Z) : t :=
  mk (id s) (title s) ms (createdAt s) now.

(** [{ ...s, title }] *)
Definition withTitle (s : t) (ttl : jsstring) : t :=
  mk (id s) ttl (messages s) (createdAt s) (lastUpdated s).
End ChatSession.
Abbreviation ChatSession := ChatSession.t (only parsing).

Record AppSettings := {
  systemInstruction : jsstring;
  model : jsstring
}.

Module ModelIds.
Definition FLASH : jsstring := lit "gemini-3-flash-preview".
Definition PRO : jsstring := lit "gemini-3-pro-preview".
End ModelIds.

Definition DEFAULT_SETTINGS : AppSettings :=
  {| systemInstruction :=
       lit "You are a helpful and intelligent AI assistant powered by Google's Gemini models. Be concise, accurate, and use Markdown for formatting.";
     model := ModelIds.FLASH |}.

(** The SDK [Chat] object, as far as this program determines it: the
    arguments [createChatSession] passes to [ai.chats.create].  The
    conversation the SDK keeps inside the object is the remote service's
    and shows here only through the outcome of a submission. *)
Record Chat := {
  chat_model : jsstring;
  chat_systemInstruction : jsstring
}.

(** [createChatSession]: the default of [model] serves an [undefined]
    argument, which the typed [settings.model] never is; the call is
    taken to return. *)
Definition createChatSession (instruction : jsstring) (mdl : jsstring) : Chat :=
  {| chat_model := mdl; chat_systemInstruction := instruction |}.

(** The state of the [App] component: its [useState] cells and
    [chatInstanceRef]. *)
Record AppState := {
  sessions : list ChatSession;
  currentSessionId : option jsstring;
  input : jsstring;
  isGenerating : bool;
  settings : AppSettings;
  chatInstanceRef : option Chat
}.

Definition initialState : AppState :=
  {| sessions := [];
     currentSessionId := None;
     input := [];
     isGenerating := false;
     settings := DEFAULT_SETTINGS;
     chatInstanceRef := None |}.

Definition setSessions (f : list ChatSession -> list ChatSession) (st : AppState) : AppState :=
  {| sessions := f (sessions st);
     currentSessionId := currentSessionId st;
     input := input st;
     isGenerating := isGenerating st;
     settings := settings st;
     chatInstanceRef := chatInstanceRef st |}.

Definition setCurrentSessionId (v : option jsstring) (st : AppState) : AppState :=
  {| sessions := sessions st;
     currentSessionId := v;
     input := input st;
     isGenerating := isGenerating st;
     settings := settings st;
     chatInstanceRef := chatInstanceRef st |}.

Definition setInput (v : jsstring) (st : AppState) : AppState :=
  {| sessions := sessions st;
     currentSessionId := currentSessionId st;
     input := v;
     isGenerating := isGenerating st;
     settings := settings st;
     chatInstanceRef := chatInstanceRef st |}.

Definition setIsGenerating (v : bool) (st : AppState) : AppState :=
  {| sessions := sessions st;
     currentSessionId := currentSessionId st;
     input := input st;
     isGenerating := v;
     settings := settings st;
     chatInstanceRef := chatInstanceRef st |}.

Definition setSettings (v : AppSettings) (st : AppState) : AppState :=
  {| sessions := sessions st;
     currentSessionId := currentSessionId st;
     input := input st;
     isGenerating := isGenerating st;
     settings := v;
     chatInstanceRef := chatInstanceRef st |}.

(** [chatInstanceRef.current = v] *)
Definition setChatInstance (v : option Chat) (st : AppState) : AppState :=
  {| sessions := sessions st;
     currentSessionId := currentSessionId st;
     input := input st;
     isGenerating := isGenerating st;
     settings := settings st;
     chatInstanceRef := v |}.

(* ================================================================== *)
(** ** Array helpers *)
(* ================================================================== *)

(** [Array.prototype.findIndex]; [None] stands for [-1]. *)
Fixpoint findIndex {A} (p : A -> bool) (l : list A) : option nat :=
  match l with
  | [] => None
  | x :: l' =>
      if p x then Some 0
      else match findIndex p l' with
           | Some i => Some (S i)
           | None => None
           end
  end.

(** [l[i] = f(l[i])] for an index inside the array. *)
Fixpoint updateAt {A} (i : nat) (f : A -> A) (l : list A) : list A :=
  match l, i with
  | [], _ => []
  | x :: l', O => f x :: l'
  | x :: l', S i' => x :: updateAt i' f l'
  end.

(* ================================================================== *)
(** ** Session-store updaters of [App.tsx] *)
(* ================================================================== *)

(** The session built by [handleNewChat] and by the no-active-session
    branch of [handleSendMessage]. *)
Definition newSession (uuid : jsstring) (created updated : Z) : ChatSession :=
  ChatSession.mk uuid (lit "New Chat") [] created updated.

(** Lines 164-168: append the user message, refresh [lastUpdated]. *)
Definition appendUserMessage (sessionId : jsstring) (userMessage : Message) (now : Z)
    (prev : list ChatSession) : list ChatSession :=
  List.map (fun s =>
    if jsstring_eqb (ChatSession.id s) sessionId
    then ChatSession.withMessagesAt s (ChatSession.messages s ++ [userMessage]) now
    else s) prev.

(** Lines 189-193 and 236-240: append a message, nothing else changes. *)
Definition appendMessage (sessionId : jsstring) (m : Message)
    (prev : list ChatSession) : list ChatSession :=
  List.map (fun s =>
    if jsstring_eqb (ChatSession.id s) sessionId
    then ChatSession.withMessages s (ChatSession.messages s ++ [m])
    else s) prev.

(** Lines 204-215: overwrite the content of the message [botMessageId]. *)
Definition updateBotContent (sessionId botMessageId fullResponseText : jsstring)
    (prev : list ChatSession) : list ChatSession :=
  List.map (fun s =>
    if negb (jsstring_eqb (ChatSession.id s) sessionId) then s
    else
      let newMessages := ChatSession.messages s in
      let lastMsgIndex :=
        findIndex (fun m => jsstring_eqb (Message.id m) botMessageId) newMessages in
      let newMessages :=
        match lastMsgIndex with
        | Some i => updateAt i (fun m => Message.withContent m fullResponseText) newMessages
        | None => newMessages
        end in
      ChatSession.withMessages s newMessages) prev.

(** Line 223: the rename applied when the title promise resolves. *)
Definition renameSession (sessionId ttl : jsstring)
    (prev : list ChatSession) : list ChatSession :=
  List.map (fun s =>
    if jsstring_eqb (ChatSession.id s) sessionId
    then ChatSession.withTitle s ttl
    else s) prev.

(** Line 127: [prev.filter(s => s.id !== id)]. *)
Definition removeSession (sid : jsstring) (prev : list ChatSession) : list ChatSession :=
  List.filter (fun s => negb (jsstring_eqb (ChatSession.id s) sid)) prev.

(** [sessions.find(s => s.id === id)]. *)
Definition findSession (sid : jsstring) (l : list ChatSession) : option ChatSession :=
  List.find (fun s => jsstring_eqb (ChatSession.id s) sid) l.

(** [getCurrentSession], line 85. *)
Definition getCurrentSession (st : AppState) : option ChatSession :=
  List.find (fun s => optstring_eqb (currentSessionId st) (ChatSession.id s)) (sessions st).

(* ================================================================== *)
(** ** Event handlers of the component *)
(* ================================================================== *)

(** [handleNewChat], lines 112-123.  [uuid], [created] and [updated] are
    the results of [crypto.randomUUID()] and of the two [Date.now()]. *)
Definition handleNewChat (uuid : jsstring) (created updated : Z) (st : AppState) : AppState :=
  let s := newSession uuid created updated in
  let st := setSessions (fun prev => s :: prev) st in
  let st := setCurrentSessionId (Some (ChatSession.id s)) st in
  setChatInstance None st.

(** [onSelectSession], lines 263-266 (and 279-283). *)
Definition onSelectSession (sid : jsstring) (st : AppState) : AppState :=
  setChatInstance None (setCurrentSessionId (Some sid) st).

(** [handleDeleteSession], lines 125-132. *)
Definition handleDeleteSession (sid : jsstring) (st : AppState) : AppState :=
  let st1 := setSessions (removeSession sid) st in
  if optstring_eqb (currentSessionId st) sid
  then setChatInstance None (setCurrentSessionId None st1)
  else st1.

(** The effect with dependency [[settings]], lines 62-66 (the write to
    local storage is the image of [settings] and is not part of the
    component state). *)
Definition settingsEffect (st : AppState) : AppState :=
  setChatInstance None st.

(** [onSave={setSettings}], called by the settings editor with its form
    object.  [Some s] is a form object rebuilt by an edit ([{...localSettings,
    ...}] is a new object whatever its contents), so the state changes and
    the effect runs.  [None] is the untouched form, which is the very
    object already in the state: React sees no change and runs nothing. *)
Definition onSave (localSettings : option AppSettings) (st : AppState) : AppState :=
  match localSettings with
  | Some s => settingsEffect (setSettings s st)
  | None => st
  end.

(** [getChatInstance], lines 88-110. *)
Definition getChatInstance (st : AppState) : Chat * AppState :=
  match chatInstanceRef st with
  | Some c => (c, st)
  | None =>
      let c := createChatSession (systemInstruction (settings st)) (model (settings st)) in
      (c, setChatInstance (Some c) st)
  end.

(* ------------------------------------------------------------------ *)
(** *** [handleSendMessage], piece by piece *)

(** What the environment supplies to the synchronous part of a send. *)
Record SendEnv := {
  env_sessionUUID : jsstring;   (* line 143 *)
  env_createdAt : Z;            (* line 146 *)
  env_lastUpdated : Z;          (* line 147 *)
  env_userUUID : jsstring;      (* line 157 *)
  env_userTimestamp : Z;        (* line 160 *)
  env_appendNow : Z             (* line 166 *)
}.

(** [crypto.randomUUID()] and [Date.now()] of a message built later. *)
Record MsgEnv := {
  env_uuid : jsstring;
  env_timestamp : Z
}.

(** The local variables of one call that later code reads. *)
Record Locals := {
  sessionId : jsstring;
  sessionList : list ChatSession;
  userMessage : Message
}.

(** Line 135: the call returns at once. *)
Definition sendBlocked (st : AppState) : bool :=
  negb (truthy (trim (input st))) || isGenerating st.

(** [!sessionId] on [string | null]. *)
Definition noSession (sid : option jsstring) : bool :=
  match sid with
  | Some s => negb (truthy s)
  | None => true
  end.

(** Lines 142-153: no session is active, one is created. *)
Definition startSession (env : SendEnv) (st : AppState)
  : jsstring * list ChatSession * AppState :=
  let s := newSession (env_sessionUUID env) (env_createdAt env) (env_lastUpdated env) in
  let slist := s :: sessions st in
  let st := setSessions (fun _ => slist) st in
  let st := setCurrentSessionId (Some (ChatSession.id s)) st in
  (ChatSession.id s, slist, setChatInstance None st).

(** Lines 137-173. *)
Definition sendPrologue (env : SendEnv) (st : AppState) : Locals * AppState :=
  let '(sid, slist, st1) :=
    match currentSessionId st with
    | Some sid0 =>
        if noSession (Some sid0) then startSession env st
        else (sid0, sessions st, st)
    | None => startSession env st
    end in
  let um := Message.mk (env_userUUID env) RoleUser (trim (input st)) (env_userTimestamp env) in
  let st2 := setSessions (appendUserMessage sid um (env_appendNow env)) st1 in
  let st3 := setIsGenerating true (setInput [] st2) in
  ({| sessionId := sid; sessionList := slist; userMessage := um |}, st3).

(** Lines 180-193: the placeholder for the reply. *)
Definition initialBotMessage (b : MsgEnv) : Message :=
  Message.mk (env_uuid b) RoleModel [] (env_timestamp b).

Definition addPlaceholder (l : Locals) (b : MsgEnv) (st : AppState) : AppState :=
  setSessions (appendMessage (sessionId l) (initialBotMessage b)) st.

(** Lines 199-216: one turn of the [for await] loop.  [chunk.text] is
    [undefined] or a string; the accumulator [fullResponseText] is
    threaded with the state. *)
Definition onChunk (l : Locals) (botMessageId : jsstring) (chunkText : option jsstring)
    (acc : jsstring * AppState) : jsstring * AppState :=
  let '(fullResponseText, st) := acc in
  match chunkText with
  | Some t =>
      if truthy t then
        let fullResponseText := fullResponseText ++ t in
        (fullResponseText,
         setSessions (updateBotContent (sessionId l) botMessageId fullResponseText) st)
      else (fullResponseText, st)
  | None => (fullResponseText, st)
  end.

Definition forAwait (l : Locals) (botMessageId : jsstring) (chunks : list (option jsstring))
    (acc : jsstring * AppState) : jsstring * AppState :=
  fold_left (fun a c => onChunk l botMessageId c a) chunks acc.

(** A call of [generateChatTitle] whose promise is pending, with the
    session the [then] callback will rename. *)
Record TitleCall := {
  call_sessionId : jsstring;
  call_firstMessage : jsstring
}.

(** Lines 220-225. *)
Definition titleCheck (l : Locals) : option TitleCall :=
  match findSession (sessionId l) (sessionList l) with
  | Some currentSession =>
      if Nat.eqb (List.length (ChatSession.messages currentSession)) 0
      then Some {| call_sessionId := sessionId l;
                   call_firstMessage := Message.content (userMessage l) |}
      else None
  | None => None
  end.

Definition APOLOGY : jsstring :=
  lit "Sorry, something went wrong. Please check your API key or connection.".

(** Lines 228-240: the [catch] block. *)
Definition errorMessage (e : MsgEnv) : Message :=
  Message.mk (env_uuid e) RoleModel APOLOGY (env_timestamp e).

Definition catchBlock (l : Locals) (e : MsgEnv) (st : AppState) : AppState :=
  setSessions (appendMessage (sessionId l) (errorMessage e)) st.

(** Line 242: the [finally] block. *)
Definition finallyBlock (st : AppState) : AppState := setIsGenerating false st.

(* ------------------------------------------------------------------ *)
(** *** The whole call, run without interleaving *)

(** How a block ends: normally with a value, or by a thrown exception. *)
Inductive Completion (A : Type) :=
| Normal (a : A)
| Throw.
Arguments Throw {A}.

(** State-passing computations that may throw; the state written before a
    throw stays written. *)
Definition M (A : Type) := AppState -> Completion A * AppState.

Definition ret {A} (a : A) : M A := fun st => (Normal a, st).

Definition bind {A B} (m : M A) (k : A -> M B) : M B :=
  fun st =>
    match m st with
    | (Normal a, st') => k a st'
    | (Throw, st') => (Throw, st')
    end.

Definition throw {A} : M A := fun st => (Throw, st).

Definition modify (f : AppState -> AppState) : M unit := fun st => (Normal tt, f st).

Notation "x <- m ;; k" := (bind m (fun x => k))
  (at level 61, m at next level, right associativity).
Notation "m ;;; k" := (bind m (fun _ => k))
  (at level 61, right associativity).

(** [try { body } catch { handler } finally { fin }] where neither the
    handler nor [fin] throws; [dflt] is the value when the body threw. *)
Definition tryCatchFinally {A} (body : M A) (dflt : A)
    (handler fin : AppState -> AppState) : M A :=
  fun st =>
    match body st with
    | (Normal a, st') => (Normal a, fin st')
    | (Throw, st') => (Normal dflt, fin (handler st'))
    end.

Inductive StreamEnd := Exhausted | Thrown.

(** What the remote service does with one submission:
    [sendMessageStream] rejects, or it resolves with a stream that yields
    [chunks] and then ends or throws. *)
Inductive Outcome :=
| SubmitRejected
| Streamed (chunks : list (option jsstring)) (fin : StreamEnd).

(** Lines 176-225, the body of the [try]. *)
Definition tryBlock (l : Locals) (b : MsgEnv) (o : Outcome) : M (option TitleCall) :=
  _chat <- (fun st => let '(c, st') := getChatInstance st in (Normal c, st')) ;;
  match o with
  | SubmitRejected => throw
  | Streamed chunks fin =>
      modify (addPlaceholder l b) ;;;
      modify (fun st => snd (forAwait l (env_uuid b) chunks ([], st))) ;;;
      match fin with
      | Thrown => throw
      | Exhausted => ret (titleCheck l)
      end
  end.

(** [handleSendMessage], lines 134-244.  The value of the completion is
    the call of [generateChatTitle] the handler has fired, if any: the
    only thing that outlives the call. *)
Definition handleSendMessage (env : SendEnv) (b e : MsgEnv) (o : Outcome)
  : M (option TitleCall) :=
  fun st =>
    if sendBlocked st then (Normal None, st)
    else
      let '(l, st1) := sendPrologue env st in
      tryCatchFinally (tryBlock l b o) None (catchBlock l e) finallyBlock st1.

(** [generateChatTitle], service module lines 41-52: what the promise
    resolves to, given what [ai.models.generateContent] did. *)
Inductive GenerateResult :=
| GenerateThrows
| GenerateText (text : option jsstring).

Definition generateChatTitle (r : GenerateResult) : jsstring :=
  match r with
  | GenerateThrows => lit "New Chat"
  | GenerateText None => lit "New Chat"
  | GenerateText (Some t) => if truthy (trim t) then trim t else lit "New Chat"
  end.

(** The [then] callback of line 222-224. *)
Definition onTitleResolved (c : TitleCall) (r : GenerateResult) (st : AppState) : AppState :=
  setSessions (renameSession (call_sessionId c) (generateChatTitle r)) st.

(* ================================================================== *)
(** ** The component as an event-driven system *)
(* ================================================================== *)

(** A call of [handleSendMessage] suspended at an [await]: waiting for
    [sendMessageStream], or inside the [for await] loop with its
    [botMessageId] and [fullResponseText]. *)
Inductive Phase :=
| Submitting
| Streaming (botMessageId : jsstring) (fullResponseText : jsstring).

Record Task := {
  task_locals : Locals;
  task_phase : Phase
}.

(** The component state, the suspended calls, and every call of
    [generateChatTitle] made so far with a flag telling whether its
    promise has resolved. *)
Record Sys := {
  app : AppState;
  tasks : list Task;
  titleCalls : list (TitleCall * bool)
}.

(** What can happen next: a user action, or the continuation of a
    suspended call ([n] is its position in [tasks] or [titleCalls]). *)
Inductive Event :=
| NewChat (uuid : jsstring) (created updated : Z)
| SelectSession (sid : jsstring)
| DeleteSession (sid : jsstring)
| SaveSettings (localSettings : option AppSettings)
| TypeInput (text : jsstring)
| Send (env : SendEnv)
| StreamOpened (n : nat) (b : MsgEnv)
| SubmitFailed (n : nat) (e : MsgEnv)
| Chunk (n : nat) (chunkText : option jsstring)
| StreamDone (n : nat)
| StreamFailed (n : nat) (e : MsgEnv)
| TitleResolved (n : nat) (r : GenerateResult).

Fixpoint removeNth {A} (n : nat) (l : list A) : list A :=
  match l, n with
  | [], _ => []
  | _ :: l', O => l'
  | x :: l', S n' => x :: removeNth n' l'
  end.

Definition optionToList {A} (o : option A) : list A :=
  match o with Some a => [a] | None => [] end.

(** One event; [None] when the event cannot happen in this state. *)
Definition step (ev : Event) (sys : Sys) : option Sys :=
  let st := app sys in
  let ui (st' : AppState) :=
    Some {| app := st'; tasks := tasks sys; titleCalls := titleCalls sys |} in
  match ev with
  | NewChat uuid created updated => ui (handleNewChat uuid created updated st)
  | SelectSession sid => ui (onSelectSession sid st)
  | DeleteSession sid => ui (handleDeleteSession sid st)
  | SaveSettings ls => ui (onSave ls st)
  | TypeInput text => ui (setInput text st)
  | Send env =>
      if sendBlocked st then Some sys
      else
        let '(l, st1) := sendPrologue env st in
        Some {| app := snd (getChatInstance st1);
                tasks := tasks sys ++ [{| task_locals := l; task_phase := Submitting |}];
                titleCalls := titleCalls sys |}
  | StreamOpened n b =>
      match nth_error (tasks sys) n with
      | Some {| task_locals := l; task_phase := Submitting |} =>
          Some {| app := addPlaceholder l b st;
                  tasks := updateAt n (fun _ =>
                             {| task_locals := l; task_phase := Streaming (env_uuid b) [] |})
                             (tasks sys);
                  titleCalls := titleCalls sys |}
      | _ => None
      end
  | SubmitFailed n e =>
      match nth_error (tasks sys) n with
      | Some {| task_locals := l; task_phase := Submitting |} =>
          Some {| app := finallyBlock (catchBlock l e st);
                  tasks := removeNth n (tasks sys);
                  titleCalls := titleCalls sys |}
      | _ => None
      end
  | Chunk n chunkText =>
      match nth_error (tasks sys) n with
      | Some {| task_locals := l; task_phase := Streaming botMessageId full |} =>
          let '(full', st') := onChunk l botMessageId chunkText (full, st) in
          Some {| app := st';
                  tasks := updateAt n (fun _ =>
                             {| task_locals := l; task_phase := Streaming botMessageId full' |})
                             (tasks sys);
                  titleCalls := titleCalls sys |}
      | _ => None
      end
  | StreamDone n =>
      match nth_error (tasks sys) n with
      | Some {| task_locals := l; task_phase := Streaming _ _ |} =>
          Some {| app := finallyBlock st;
                  tasks := removeNth n (tasks sys);
                  titleCalls := titleCalls sys
                                ++ List.map (fun c => (c, false)) (optionToList (titleCheck l)) |}
      | _ => None
      end
  | StreamFailed n e =>
      match nth_error (tasks sys) n with
      | Some {| task_locals := l; task_phase := Streaming _ _ |} =>
          Some {| app := finallyBlock (catchBlock l e st);
                  tasks := removeNth n (tasks sys);
                  titleCalls := titleCalls sys |}
      | _ => None
      end
  | TitleResolved n r =>
      match nth_error (titleCalls sys) n with
      | Some (c, false) =>
          Some {| app := onTitleResolved c r st;
                  tasks := tasks sys;
                  titleCalls := updateAt n (fun _ => (c, true)) (titleCalls sys) |}
      | _ => None
      end
  end.

Fixpoint run (evs : list Event) (sys : Sys) : option Sys :=
  match evs with
  | [] => Some sys
  | ev :: evs' =>
      match step ev sys with
      | Some sys' => run evs' sys'
      | None => None
      end
  end.

(** The component just mounted in state [st]: nothing is in flight. *)
Definition mounted (st : AppState) : Sys :=
  {| app := st; tasks := []; titleCalls := [] |}.

(** The events through which the environment plays one outcome to the
    call at position [0]. *)
Definition eventsOf (b e : MsgEnv) (o : Outcome) : list Event :=
  match o with
  | SubmitRejected => [SubmitFailed 0 e]
  | Streamed chunks fin =>
      StreamOpened 0 b :: List.map (Chunk 0) chunks
      ++ [match fin with Exhausted => StreamDone 0 | Thrown => StreamFailed 0 e end]
  end.

(* ================================================================== *)
(** ** Notions used in the statements *)
(* ================================================================== *)

(** The texts of the chunks the loop does not skip, in order. *)
Fixpoint nonEmptyFragments (chunks : list (option jsstring)) : list jsstring :=
  match chunks with
  | [] => []
  | Some t :: rest => if truthy t then t :: nonEmptyFragments rest else nonEmptyFragments rest
  | None :: rest => nonEmptyFragments rest
  end.

(** A session after the user message and the messages [reply] have been
    appended to it, if it is the target [sid]. *)
Definition withExchange (sid : jsstring) (um : Message) (now : Z) (reply : list Message)
    (s : ChatSession) : ChatSession :=
  if jsstring_eqb (ChatSession.id s) sid
  then ChatSession.withMessagesAt s (ChatSession.messages s ++ um :: reply) now
  else s.

Definition lastMessage (s : ChatSession) : option Message :=
  List.last (List.map Some (ChatSession.messages s)) None.

(** The messages a send adds after the user message, by outcome. *)
Definition replyOf (b e : MsgEnv) (o : Outcome) : list Message :=
  match o with
  | SubmitRejected => [errorMessage e]
  | Streamed chunks fin =>
      Message.mk (env_uuid b) RoleModel (List.concat (nonEmptyFragments chunks)) (env_timestamp b)
      :: match fin with
         | Exhausted => []
         | Thrown => [errorMessage e]
         end
  end.

(** [crypto.randomUUID()] gave the placeholder an identifier that no
    message of the target session carries. *)
Definition freshPlaceholder (l : Locals) (b : MsgEnv) : Prop :=
  forall s, In s (sessionList l) -> ChatSession.id s = sessionId l ->
    ~ In (env_uuid b) (List.map Message.id (ChatSession.messages s ++ [userMessage l])).


(* ================================================================== *)
(** ** Concrete runs *)
(* ================================================================== *)

Module Sample.
Definition env : SendEnv :=
  {| env_sessionUUID := lit "s1"; env_createdAt := 10; env_lastUpdated := 11;
     env_userUUID := lit "u1"; env_userTimestamp := 12; env_appendNow := 13 |}.
Definition bot : MsgEnv := {| env_uuid := lit "b1"; env_timestamp := 14 |}.
Definition err : MsgEnv := {| env_uuid := lit "e1"; env_timestamp := 15 |}.

(** Freshly mounted, the user has typed [" hi "]. *)
Definition typed : AppState := setInput (lit " hi ") initialState.

Definition userHi : Message := Message.mk (lit "u1") RoleUser (lit "hi") 12.

(** One finished exchange in session ["s1"], and a new input. *)
Definition afterExchange : AppState :=
  setInput (lit "more")
    (snd (handleSendMessage env bot err (Streamed [Some (lit "Hello")] Exhausted) typed)).

Definition env2 : SendEnv :=
  {| env_sessionUUID := lit "s2"; env_createdAt := 20; env_lastUpdated := 21;
     env_userUUID := lit "u2"; env_userTimestamp := 22; env_appendNow := 23 |}.
Definition bot2 : MsgEnv := {| env_uuid := lit "b2"; env_timestamp := 24 |}.
Definition err2 : MsgEnv := {| env_uuid := lit "e2"; env_timestamp := 25 |}.

(** A first exchange in a new session, its title, a second exchange. *)
Definition twoExchanges : list Event :=
  [TypeInput (lit " hi "); Send env; StreamOpened 0 bot;
   Chunk 0 (Some (lit "Hello")); StreamDone 0;
   TitleResolved 0 (GenerateText (Some (lit " Greeting ")));
   TypeInput (lit "more"); Send env2; StreamOpened 0 bot2;
   StreamDone 0].
End Sample.

(** The call of [generateChatTitle] a completed call has fired. *)
Definition fired (c : Completion (option TitleCall)) : option TitleCall :=
  match c with
  | Normal v => v
  | Throw => None
  end.

(** A session carried from one store to a later one by updaters aimed at
    [sid]: same identifier and creation time, untouched unless it is the
    target, and no message lost. *)
Definition carried (sid : jsstring) (s s' : ChatSession) : Prop :=
  ChatSession.id s' = ChatSession.id s /\
  ChatSession.createdAt s' = ChatSession.createdAt s /\
  (ChatSession.id s <> sid -> s' = s) /\
  (List.length (ChatSession.messages s) <= List.length (ChatSession.messages s'))%nat.

(** Two states that differ at most in their session store. *)
Definition sameButSessions (st st' : AppState) : Prop :=
  currentSessionId st' = currentSessionId st /\
  input st' = input st /\
  isGenerating st' = isGenerating st /\
  settings st' = settings st /\
  chatInstanceRef st' = chatInstanceRef st.

(** The handle [createChatSession] builds from the settings of [st]. *)
Definition handleFor (st : AppState) : Chat :=
  createChatSession (systemInstruction (settings st)) (model (settings st)).

(** At most one call is suspended, and one is exactly when the
    generating flag is set. *)
Definition oneStream (sys : Sys) : Prop :=
  List.length (tasks sys) = if isGenerating (app sys) then 1%nat else 0%nat.

(** The events that continue a suspended call or a title promise: the
    placeholder append, the content overwrite, the error append, the end
    of the stream and the rename. *)
Definition isContinuation (ev : Event) : bool :=
  match ev with
  | StreamOpened _ _ | SubmitFailed _ _ | Chunk _ _ | StreamDone _
  | StreamFailed _ _ | TitleResolved _ _ => true
  | _ => false
  end.

Definition clocks (l : list ChatSession) : list Z :=
  List.map ChatSession.lastUpdated l.

(** How many times [generateChatTitle] has been called for [sid]. *)
Definition titleCount (sid : jsstring) (calls : list (TitleCall * bool)) : nat :=
  List.length
    (List.filter (fun p => jsstring_eqb (call_sessionId (fst p)) sid) calls).

(** Every session carrying [sid] has at least one message. *)
Definition settledStore (sid : jsstring) (l : list ChatSession) : Prop :=
  forall s, In s l -> ChatSession.id s = sid -> ChatSession.messages s <> [].

(** The event draws [sid] from [crypto.randomUUID()] for a new session. *)
Definition draws (sid : jsstring) (ev : Event) : bool :=
  match ev with
  | NewChat uuid _ _ => jsstring_eqb uuid sid
  | Send env => jsstring_eqb (env_sessionUUID env) sid
  | _ => false
  end.

(** The invariant behind the single automatic rename of [sid]. *)
Definition titleInv (sid : jsstring) (sys : Sys) : Prop :=
  oneStream sys /\
  (titleCount sid (titleCalls sys) = 0%nat \/
   titleCount sid (titleCalls sys) = 1%nat /\ settledStore sid (sessions (app sys))) /\
  (forall t, In t (tasks sys) -> sessionId (task_locals t) = sid ->
     titleCheck (task_locals t) <> None ->
     settledStore sid (sessions (app sys)) /\ titleCount sid (titleCalls sys) = 0%nat).

(** The state of affairs before [sid] names any session. *)
Definition beforeDraw (sid : jsstring) (sys : Sys) : Prop :=
  oneStream sys /\
  (forall s, In s (sessions (app sys)) -> ChatSession.id s <> sid) /\
  titleCount sid (titleCalls sys) = 0%nat /\
  (forall t, In t (tasks sys) -> sessionId (task_locals t) = sid ->
     titleCheck (task_locals t) = None).

(** How many events of a run draw [sid] for a new session. *)
Definition drawCount (sid : jsstring) (evs : list Event) : nat :=
  List.length (List.filter (draws sid) evs).

(** Whether the store holds a session called [sid]. *)
Definition hasSession (sid : jsstring) (l : list ChatSession) : bool :=
  List.existsb (fun s => jsstring_eqb (ChatSession.id s) sid) l.

(* ================================================================== *)
(** ** Durable storage: [JSON.stringify] and [JSON.parse] *)
(* ================================================================== *)

(** The session list is written to local storage as
    [JSON.stringify(sessions)] (line 58) and read back at start-up with
    [JSON.parse] (line 41), whose result TypeScript takes for a
    [ChatSession[]] unchecked.  Both functions are modelled after
    ECMA-262 on the values JSON can denote, with numbers restricted to
    the integers ([Date.now()] yields integers; Number::toString prints
    an integer below 10^21 in plain decimal). *)
Module JSON.

Inductive value :=
| Null
| Bool (b : bool)
| Number (z : Z)
| String (s : jsstring)
| Array (elements : list value)
| Object (properties : list (jsstring * value)).

(** *** Serialisation *)

Definition hexDigit (n : N) : N := (if n <? 10 then 48 + n else 87 + n)%N.

(** The escape [\uXXXX], lower-case digits. *)
Definition escapeU (c : N) : jsstring :=
  [92; 117; hexDigit (c / 4096); hexDigit ((c / 256) mod 16);
   hexDigit ((c / 16) mod 16); hexDigit (c mod 16)]%N.

Definition isHigh (c : N) : bool := ((55296 <=? c) && (c <=? 56319))%N.
Definition isLow (c : N) : bool := ((56320 <=? c) && (c <=? 57343))%N.

(** QuoteJSONString on a code unit that is not a surrogate. *)
Definition quoteUnit (c : N) : jsstring :=
  (if c =? 8 then [92; 98]
   else if c =? 9 then [92; 116]
   else if c =? 10 then [92; 110]
   else if c =? 12 then [92; 102]
   else if c =? 13 then [92; 114]
   else if c =? 34 then [92; 34]
   else if c =? 92 then [92; 92]
   else if c <? 32 then escapeU c
   else [c])%N.

(** QuoteJSONString walks the code points of the string: a surrogate
    pair is copied, a surrogate on its own is escaped. *)
Fixpoint quoteUnits (s : jsstring) : jsstring :=
  match s with
  | [] => []
  | c :: r =>
      if isHigh c then
        match r with
        | d :: r' => if isLow d then c :: d :: quoteUnits r'
                     else escapeU c ++ quoteUnits r
        | [] => escapeU c
        end
      else if isLow c then escapeU c ++ quoteUnits r
      else quoteUnit c ++ quoteUnits r
  end.

Definition quote (s : jsstring) : jsstring := 34%N :: quoteUnits s ++ [34%N].

(** Decimal digits, most significant first; [fuel] bounds their number. *)
Fixpoint digitsFuel (fuel : nat) (n : N) (acc : jsstring) : jsstring :=
  match fuel with
  | O => acc
  | S fuel' =>
      let acc' := (48 + n mod 10)%N :: acc in
      if (n / 10 =? 0)%N then acc' else digitsFuel fuel' (n / 10)%N acc'
  end.

Definition digits (n : N) : jsstring := digitsFuel (S (N.to_nat (N.log2 n))) n [].

Definition printNumber (z : Z) : jsstring :=
  if (z <? 0)%Z then 45%N :: digits (Z.to_N (- z)) else digits (Z.to_N z).

Fixpoint joinWith (sep : N) (parts : list jsstring) : jsstring :=
  match parts with
  | [] => []
  | p :: rest =>
      match rest with
      | [] => p
      | _ :: _ => p ++ sep :: joinWith sep rest
      end
  end.

(** [JSON.stringify(v)] without indentation. *)
Fixpoint stringify (v : value) : jsstring :=
  match v with
  | Null => lit "null"
  | Bool true => lit "true"
  | Bool false => lit "false"
  | Number z => printNumber z
  | String s => quote s
  | Array elements => 91%N :: joinWith 44 (List.map stringify elements) ++ [93%N]
  | Object properties =>
      123%N :: joinWith 44 (List.map (fun kv => quote (fst kv) ++ 58%N :: stringify (snd kv))
                              properties) ++ [125%N]
  end.

(** *** Parsing *)

(** JSON white space: tab, line feed, carriage return, space. *)
Definition isJSONSpace (c : N) : bool :=
  ((c =? 9) || (c =? 10) || (c =? 13) || (c =? 32))%N.

Fixpoint skipSpace (s : jsstring) : jsstring :=
  match s with
  | c :: r => if isJSONSpace c then skipSpace r else s
  | [] => []
  end.

(** Whether the text continues with the character [c]. *)
Definition startsWith (c : N) (s : jsstring) : bool :=
  match s with
  | d :: _ => (d =? c)%N
  | [] => false
  end.

Definition isDigit (c : N) : bool := ((48 <=? c) && (c <=? 57))%N.

Fixpoint spanDigits (s : jsstring) : jsstring * jsstring :=
  match s with
  | c :: r => if isDigit c then let '(ds, rest) := spanDigits r in (c :: ds, rest)
              else ([], s)
  | [] => ([], [])
  end.

Definition valueOfDigits (ds : jsstring) : N :=
  fold_left (fun a d => (10 * a + (d - 48))%N) ds 0%N.

(** The digits of an integer literal, without a leading zero.  A literal
    that goes on with a fraction or an exponent is left unread ([None],
    as for a syntax error): [JSON.stringify] writes none for an integer
    below 10^21. *)
Definition parseDigits (s : jsstring) : option (N * jsstring) :=
  let '(ds, rest) := spanDigits s in
  match ds with
  | [] => None
  | d :: more =>
      if (d =? 48)%N && negb (Nat.eqb (List.length more) 0) then None
      else if startsWith 46 rest || startsWith 101 rest || startsWith 69 rest then None
      else Some (valueOfDigits ds, rest)
  end.

Definition parseNumber (s : jsstring) : option (Z * jsstring) :=
  if startsWith 45 s then
    match parseDigits (tl s) with
    | Some (n, rest) => Some ((- Z.of_N n)%Z, rest)
    | None => None
    end
  else
    match parseDigits s with
    | Some (n, rest) => Some (Z.of_N n, rest)
    | None => None
    end.

Definition parseHexDigit (c : N) : option N :=
  (if (48 <=? c) && (c <=? 57) then Some (c - 48)
   else if (97 <=? c) && (c <=? 102) then Some (c - 87)
   else if (65 <=? c) && (c <=? 70) then Some (c - 55)
   else None)%N.

Definition parseHex4 (a b c d : N) : option N :=
  match parseHexDigit a, parseHexDigit b, parseHexDigit c, parseHexDigit d with
  | Some x3, Some x2, Some x1, Some x0 => Some (x3 * 4096 + x2 * 256 + x1 * 16 + x0)%N
  | _, _, _, _ => None
  end.

(** The code unit a two-character escape stands for. *)
Definition simpleEscape (e : N) : option N :=
  (if e =? 34 then Some 34
   else if e =? 92 then Some 92
   else if e =? 47 then Some 47
   else if e =? 98 then Some 8
   else if e =? 102 then Some 12
   else if e =? 110 then Some 10
   else if e =? 114 then Some 13
   else if e =? 116 then Some 9
   else None)%N.

(** The characters of a string literal after its opening quote, up to
    and including the closing one. *)
Fixpoint parseChars (s : jsstring) : option (jsstring * jsstring) :=
  match s with
  | [] => None
  | c :: rest =>
      if (c =? 34)%N then Some ([], rest)
      else if (c =? 92)%N then
        match rest with
        | [] => None
        | e :: rest1 =>
            if (e =? 117)%N then
              match rest1 with
              | h3 :: h2 :: h1 :: h0 :: rest2 =>
                  match parseHex4 h3 h2 h1 h0, parseChars rest2 with
                  | Some u, Some (str, rest') => Some (u :: str, rest')
                  | _, _ => None
                  end
              | _ => None
              end
            else
              match simpleEscape e, parseChars rest1 with
              | Some u, Some (str, rest') => Some (u :: str, rest')
              | _, _ => None
              end
        end
      else if (c <? 32)%N then None
      else
        match parseChars rest with
        | Some (str, rest') => Some (c :: str, rest')
        | None => None
        end
  end.

Definition expect (word : jsstring) (v : value) (s : jsstring) : option (value * jsstring) :=
  if jsstring_eqb (firstn (List.length word) s) word
  then Some (v, skipn (List.length word) s)
  else None.

(** A JSON value with the white space before it, given how to read the
    items of an array and the members of an object. *)
Definition parseValueWith
    (elements members : jsstring -> option (value * jsstring))
    (s : jsstring) : option (value * jsstring) :=
  match skipSpace s with
  | [] => None
  | c :: r =>
      if (c =? 110)%N then expect (lit "null") Null (c :: r)
      else if (c =? 116)%N then expect (lit "true") (Bool true) (c :: r)
      else if (c =? 102)%N then expect (lit "false") (Bool false) (c :: r)
      else if (c =? 34)%N then
        match parseChars r with
        | Some (str, rest) => Some (String str, rest)
        | None => None
        end
      else if (c =? 91)%N then
        if startsWith 93 (skipSpace r) then Some (Array [], tl (skipSpace r))
        else elements r
      else if (c =? 123)%N then
        if startsWith 125 (skipSpace r) then Some (Object [], tl (skipSpace r))
        else members r
      else
        match parseNumber (c :: r) with
        | Some (z, rest) => Some (Number z, rest)
        | None => None
        end
  end.

(** The recursive descent; [fuel] bounds the number of values and list
    items read. *)
Fixpoint parseValue (fuel : nat) (s : jsstring) : option (value * jsstring) :=
  match fuel with
  | O => None
  | S fuel' =>
      parseValueWith (fun r => parseElements fuel' r []) (fun r => parseMembers fuel' r []) s
  end
with parseElements (fuel : nat) (s : jsstring) (acc : list value)
  : option (value * jsstring) :=
  match fuel with
  | O => None
  | S fuel' =>
      match parseValue fuel' s with
      | Some (v, rest) =>
          if startsWith 44 (skipSpace rest)
          then parseElements fuel' (tl (skipSpace rest)) (acc ++ [v])
          else if startsWith 93 (skipSpace rest)
          then Some (Array (acc ++ [v]), tl (skipSpace rest))
          else None
      | None => None
      end
  end
with parseMembers (fuel : nat) (s : jsstring) (acc : list (jsstring * value))
  : option (value * jsstring) :=
  match fuel with
  | O => None
  | S fuel' =>
      if startsWith 34 (skipSpace s) then
        match parseChars (tl (skipSpace s)) with
        | Some (key, afterKey) =>
            if startsWith 58 (skipSpace afterKey) then
              match parseValue fuel' (tl (skipSpace afterKey)) with
              | Some (v, rest) =>
                  if startsWith 44 (skipSpace rest)
                  then parseMembers fuel' (tl (skipSpace rest)) (acc ++ [(key, v)])
                  else if startsWith 125 (skipSpace rest)
                  then Some (Object (acc ++ [(key, v)]), tl (skipSpace rest))
                  else None
              | None => None
              end
            else None
        | None => None
        end
      else None
  end.

(** [JSON.parse(text)]; [None] is its [SyntaxError]. *)
Definition parse (text : jsstring) : option value :=
  match parseValue (S (List.length text)) text with
  | Some (v, rest) =>
      match skipSpace rest with
      | [] => Some v
      | _ :: _ => None
      end
  | None => None
  end.

(** Property read [o.k]: the last member called [k] is the one
    [JSON.parse] keeps. *)
Fixpoint get (k : jsstring) (properties : list (jsstring * value)) : option value :=
  match properties with
  | [] => None
  | (k', v) :: rest =>
      match get k rest with
      | Some v' => Some v'
      | None => if jsstring_eqb k' k then Some v else None
      end
  end.

(** What may follow a number for it to end there. *)
Definition endsNumber (rest : jsstring) : Prop :=
  match rest with
  | c :: _ => isDigit c = false /\ c <> 46%N /\ c <> 101%N /\ c <> 69%N
  | [] => True
  end.

(** The fuel that suffices to read a value back. *)
Fixpoint size (v : value) : nat :=
  match v with
  | Array elements => S (fold_right (fun x n => S (size x + n)) O elements)
  | Object properties => S (fold_right (fun kv n => S (size (snd kv) + n)) O properties)
  | _ => 1
  end.

Definition sizeOfElements (l : list value) : nat :=
  fold_right (fun x n => S (size x + n)) O l.

Definition sizeOfMembers (l : list (jsstring * value)) : nat :=
  fold_right (fun kv n => S (size (snd kv) + n)) O l.

(** Every string of the value, property names included, is made of
    16-bit code units. *)
Fixpoint wfValue (v : value) : Prop :=
  match v with
  | String s => Forall (fun c => (c < 65536)%N) s
  | Array elements => fold_right (fun x p => wfValue x /\ p) True elements
  | Object properties =>
      fold_right (fun kv p => Forall (fun c => (c < 65536)%N) (fst kv) /\ wfValue (snd kv) /\ p)
        True properties
  | _ => True
  end.

(** Induction over a value and the values inside it. *)
Fixpoint value_induction (P : value -> Prop)
    (HNull : P Null) (HBool : forall b, P (Bool b)) (HNumber : forall z, P (Number z))
    (HString : forall s, P (String s))
    (HArray : forall l, Forall P l -> P (Array l))
    (HObject : forall props, Forall (fun kv => P (snd kv)) props -> P (Object props))
    (v : value) : P v :=
  match v with
  | Null => HNull
  | Bool b => HBool b
  | Number z => HNumber z
  | String s => HString s
  | Array l =>
      HArray l
        ((fix all (l : list value) : Forall P l :=
            match l with
            | [] => Forall_nil P
            | x :: r =>
                Forall_cons x
                  (value_induction HNull HBool HNumber HString HArray HObject x) (all r)
            end) l)
  | Object props =>
      HObject props
        ((fix all (l : list (jsstring * value)) : Forall (fun kv => P (snd kv)) l :=
            match l with
            | [] => Forall_nil _
            | kv :: r =>
                Forall_cons kv
                  (value_induction HNull HBool HNumber HString HArray HObject (snd kv))
                  (all r)
            end) props)
  end.

(** The first character of a number. *)
Definition numberStart (c : N) : Prop := c = 45%N \/ isDigit c = true.

(** A value is read back from its text, whatever follows. *)
Definition readsBack (v : value) : Prop :=
  forall fuel rest, (size v <= fuel)%nat -> endsNumber rest ->
    parseValue fuel (stringify v ++ rest) = Some (v, rest).

End JSON.

Definition roleName (r : Role) : jsstring :=
  match r with
  | RoleUser => lit "user"
  | RoleModel => lit "model"
  end.

(** The object a [Message] is, with its properties in creation order. *)
Definition messageToJS (m : Message) : JSON.value :=
  JSON.Object
    [(lit "id", JSON.String (Message.id m));
     (lit "role", JSON.String (roleName (Message.role m)));
     (lit "content", JSON.String (Message.content m));
     (lit "timestamp", JSON.Number (Message.timestamp m))].

(** The object a [ChatSession] is; the spreads of the updaters keep the
    properties in this order. *)
Definition sessionToJS (s : ChatSession) : JSON.value :=
  JSON.Object
    [(lit "id", JSON.String (ChatSession.id s));
     (lit "title", JSON.String (ChatSession.title s));
     (lit "messages", JSON.Array (List.map messageToJS (ChatSession.messages s)));
     (lit "createdAt", JSON.Number (ChatSession.createdAt s));
     (lit "lastUpdated", JSON.Number (ChatSession.lastUpdated s))].

(** Line 58: what is written under [STORAGE_KEY_SESSIONS]. *)
Definition saveSessions (l : list ChatSession) : jsstring :=
  JSON.stringify (JSON.Array (List.map sessionToJS l)).

Definition roleOfName (s : jsstring) : option Role :=
  if jsstring_eqb s (lit "user") then Some RoleUser
  else if jsstring_eqb s (lit "model") then Some RoleModel
  else None.

(** A parsed value read as a [Message], property by property; [None]
    when it is not one. *)
Definition messageFromJS (v : JSON.value) : option Message :=
  match v with
  | JSON.Object props =>
      match JSON.get (lit "id") props, JSON.get (lit "role") props,
            JSON.get (lit "content") props, JSON.get (lit "timestamp") props with
      | Some (JSON.String i), Some (JSON.String r), Some (JSON.String c),
        Some (JSON.Number t) =>
          match roleOfName r with
          | Some r' => Some (Message.mk i r' c t)
          | None => None
          end
      | _, _, _, _ => None
      end
  | _ => None
  end.

Fixpoint allFromJS {A} (f : JSON.value -> option A) (l : list JSON.value) : option (list A) :=
  match l with
  | [] => Some []
  | v :: rest =>
      match f v, allFromJS f rest with
      | Some a, Some more => Some (a :: more)
      | _, _ => None
      end
  end.

Definition sessionFromJS (v : JSON.value) : option ChatSession :=
  match v with
  | JSON.Object props =>
      match JSON.get (lit "id") props, JSON.get (lit "title") props,
            JSON.get (lit "messages") props, JSON.get (lit "createdAt") props,
            JSON.get (lit "lastUpdated") props with
      | Some (JSON.String i), Some (JSON.String t), Some (JSON.Array ms),
        Some (JSON.Number c), Some (JSON.Number u) =>
          match allFromJS messageFromJS ms with
          | Some ms' => Some (ChatSession.mk i t ms' c u)
          | None => None
          end
      | _, _, _, _, _ => None
      end
  | _ => None
  end.

Definition sessionsFromJS (v : JSON.value) : option (list ChatSession) :=
  match v with
  | JSON.Array l => allFromJS sessionFromJS l
  | _ => None
  end.

(** What reading [STORAGE_KEY_SESSIONS] at start-up does to the store. *)
Inductive LoadResult :=
| Loaded (l : list ChatSession)   (* [setSessions] with a session list *)
| NotLoaded                       (* nothing stored, or [JSON.parse] threw *)
| Untyped (v : JSON.value).       (* parsed, but not a [ChatSession[]] *)

(** Lines 36-45. *)
Definition loadSessions (savedSessions : option jsstring) : LoadResult :=
  match savedSessions with
  | Some text =>
      if truthy text then
        match JSON.parse text with
        | Some v =>
            match sessionsFromJS v with
            | Some l => Loaded l
            | None => Untyped v
            end
        | None => NotLoaded
        end
      else NotLoaded
  | None => NotLoaded
  end.

(** A string made of 16-bit code units. *)
Definition wfString (s : jsstring) : Prop := Forall (fun c => (c < 65536)%N) s.

(** A number that is an integer a double holds exactly
    ([Number.isSafeInteger]). *)
Definition safeInteger (z : Z) : Prop := (- 2 ^ 53 < z < 2 ^ 53)%Z.

Definition wfMessage (m : Message) : Prop :=
  wfString (Message.id m) /\ wfString (Message.content m) /\
  safeInteger (Message.timestamp m).

Definition wfSession (s : ChatSession) : Prop :=
  wfString (ChatSession.id s) /\ wfString (ChatSession.title s) /\
  Forall wfMessage (ChatSession.messages s) /\
  safeInteger (ChatSession.createdAt s) /\ safeInteger (ChatSession.lastUpdated s).

(** A member whose name and value are read back. *)
Definition readsBackMember (kv : jsstring * JSON.value) : Prop :=
  wfString (fst kv) /\ JSON.readsBack (snd kv).


(* ================================================================== *)
(** ** The sidebar ([components/ChatList.tsx]) *)
(* ================================================================== *)

(** Where [x] goes in a list already in sidebar order: after the
    sessions updated later than it, before the others. *)
Fixpoint insertByUpdated (x : ChatSession) (l : list ChatSession) : list ChatSession :=
  match l with
  | [] => [x]
  | y :: rest =>
      if (ChatSession.lastUpdated x <? ChatSession.lastUpdated y)%Z
      then y :: insertByUpdated x rest
      else x :: y :: rest
  end.

(** Line 21: [[...sessions].sort((a, b) => b.lastUpdated - a.lastUpdated)].
    [Array.prototype.sort] is stable and the comparator is consistent on
    integers, so the result is the one stable arrangement by decreasing
    [lastUpdated]; it is computed here by insertion from the right. *)
Definition sortedSessions (l : list ChatSession) : list ChatSession :=
  fold_right insertByUpdated [] l.

(** A list in sidebar order. *)
Definition newestFirst (l : list ChatSession) : Prop :=
  StronglySorted (fun a b => (ChatSession.lastUpdated b <= ChatSession.lastUpdated a)%Z) l.

(** The sessions of [l] last updated at [k], in the order of [l]. *)
Definition updatedAt (k : Z) (l : list ChatSession) : list ChatSession :=
  List.filter (fun s => (ChatSession.lastUpdated s =? k)%Z) l.

(* ================================================================== *)
(** ** What the main pane shows ([App.tsx], lines 306-357) *)
(* ================================================================== *)

(** Line 307: [currentSession?.title || 'Gemini Chat']. *)
Definition headerTitle (st : AppState) : jsstring :=
  match getCurrentSession st with
  | Some s => if truthy (ChatSession.title s) then ChatSession.title s else lit "Gemini Chat"
  | None => lit "Gemini Chat"
  end.



(* ================================================================== *)
(** ** The settings editor (the [SettingsModal] component) *)
(* ================================================================== *)

(** The editor: [isSettingsOpen] of [App], and its own [localSettings], here [localForm].
    [touched] tells whether it is an object built by an
    [onChange] handler rather than the [settings] object itself. *)
Record Editor := {
  isOpen : bool;
  localForm : AppSettings;
  touched : bool
}.

(** [setIsSettingsOpen(true)], then the effect of lines 15-19. *)
Definition openEditor (st : AppState) (ed : Editor) : Editor :=
  {| isOpen := true; localForm := settings st; touched := false |}.

(** Line 46: [{ ...localSettings, model: e.target.value }]. *)
Definition editModel (v : jsstring) (ed : Editor) : Editor :=
  {| isOpen := isOpen ed;
     localForm := {| systemInstruction := systemInstruction (localForm ed);
                         model := v |};
     touched := true |}.

(** Line 64: [{ ...localSettings, systemInstruction: e.target.value }]. *)
Definition editInstruction (v : jsstring) (ed : Editor) : Editor :=
  {| isOpen := isOpen ed;
     localForm := {| systemInstruction := v; model := model (localForm ed) |};
     touched := true |}.

(** [onClose]. *)
Definition closeEditor (ed : Editor) : Editor :=
  {| isOpen := false; localForm := localForm ed; touched := touched ed |}.

(** [handleSave], lines 23-26. *)
Definition handleSave (st : AppState) (ed : Editor) : AppState * Editor :=
  (onSave (if touched ed then Some (localForm ed) else None) st, closeEditor ed).

(** What the user does in the editor. *)
Inductive EditorAction :=
| EditModel (v : jsstring)
| EditInstruction (v : jsstring).

Definition applyEdits (edits : list EditorAction) (ed : Editor) : Editor :=
  fold_left (fun e a => match a with
                        | EditModel v => editModel v e
                        | EditInstruction v => editInstruction v e
                        end) edits ed.

(* ================================================================== *)
(** ** The settings in storage ([App.tsx], lines 47-53 and 62-63) *)
(* ================================================================== *)

Definition settingsToJS (s : AppSettings) : JSON.value :=
  JSON.Object
    [(lit "systemInstruction", JSON.String (systemInstruction s));
     (lit "model", JSON.String (model s))].

(** Line 63: what is written under [STORAGE_KEY_SETTINGS]. *)
Definition saveSettings (s : AppSettings) : jsstring :=
  JSON.stringify (settingsToJS s).

Definition settingsFromJS (v : JSON.value) : option AppSettings :=
  match v with
  | JSON.Object props =>
      match JSON.get (lit "systemInstruction") props, JSON.get (lit "model") props with
      | Some (JSON.String i), Some (JSON.String m) =>
          Some {| systemInstruction := i; model := m |}
      | _, _ => None
      end
  | _ => None
  end.

(** Lines 47-53: the settings after start-up; [None] when the parsed
    value is not an [AppSettings], which TypeScript does not check. *)
Definition loadSettings (savedSettings : option jsstring) : option AppSettings :=
  match savedSettings with
  | Some text =>
      if truthy text then
        match JSON.parse text with
        | Some v => settingsFromJS v
        | None => Some DEFAULT_SETTINGS
        end
      else Some DEFAULT_SETTINGS
  | None => Some DEFAULT_SETTINGS
  end.

(* ================================================================== *)
(** ** Notions used in the further statements *)
(* ================================================================== *)

Definition sessionIds (l : list ChatSession) : list jsstring :=
  List.map ChatSession.id l.

(** The identifier [crypto.randomUUID()] gives a new session is not in
    the store. *)
Definition freshDraw (ev : Event) (sys : Sys) : Prop :=
  match ev with
  | NewChat uuid _ _ => ~ In uuid (sessionIds (sessions (app sys)))
  | Send env =>
      noSession (currentSessionId (app sys)) = true ->
      ~ In (env_sessionUUID env) (sessionIds (sessions (app sys)))
  | _ => True
  end.

(** A session is selected from the sidebar, which lists the store. *)
Definition offered (ev : Event) (sys : Sys) : Prop :=
  match ev with
  | SelectSession sid => In sid (sessionIds (sessions (app sys)))
  | _ => True
  end.

(** Every event of a run satisfies [ok] in the state where it happens. *)
Fixpoint runWhere (ok : Event -> Sys -> Prop) (evs : list Event) (sys : Sys) : Prop :=
  match evs with
  | [] => True
  | ev :: rest =>
      ok ev sys /\
      match step ev sys with
      | Some sys' => runWhere ok rest sys'
      | None => True
      end
  end.

(** The active-session pointer names a session of the store. *)
Definition activeValid (st : AppState) : Prop :=
  match currentSessionId st with
  | Some sid => In sid (sessionIds (sessions st))
  | None => True
  end.

(** User actions that touch neither the store nor a suspended call. *)
Definition isBystander (ev : Event) : bool :=
  match ev with
  | SelectSession _ | SaveSettings _ | TypeInput _ => true
  | _ => false
  end.

(** The suspended call an event continues. *)
Definition continues (ev : Event) : option nat :=
  match ev with
  | StreamOpened n _ | SubmitFailed n _ | Chunk n _ | StreamDone n | StreamFailed n _ => Some n
  | _ => None
  end.

(** What of a message never changes. *)
Definition skeleton (m : Message) : jsstring * Role * Z :=
  (Message.id m, Message.role m, Message.timestamp m).

(** [s'] is [s] with messages added at the end and contents possibly
    rewritten: no message removed, moved, or given another identifier,
    role or time stamp. *)
Definition grownFrom (s s' : ChatSession) : Prop :=
  ChatSession.id s' = ChatSession.id s /\
  ChatSession.createdAt s' = ChatSession.createdAt s /\
  exists added,
    List.map skeleton (ChatSession.messages s')
    = List.map skeleton (ChatSession.messages s) ++ added.

(** The strings and numbers an event brings are code-unit strings and
    safe integers. *)
Definition wfMsgEnv (b : MsgEnv) : Prop :=
  wfString (env_uuid b) /\ safeInteger (env_timestamp b).

Definition wfPayload (ev : Event) : Prop :=
  match ev with
  | NewChat uuid created updated =>
      wfString uuid /\ safeInteger created /\ safeInteger updated
  | TypeInput text => wfString text
  | Send env =>
      wfString (env_sessionUUID env) /\ safeInteger (env_createdAt env) /\
      safeInteger (env_lastUpdated env) /\ wfString (env_userUUID env) /\
      safeInteger (env_userTimestamp env) /\ safeInteger (env_appendNow env)
  | StreamOpened _ b => wfMsgEnv b
  | SubmitFailed _ e => wfMsgEnv e
  | StreamFailed _ e => wfMsgEnv e
  | Chunk _ (Some t) => wfString t
  | TitleResolved _ (GenerateText (Some t)) => wfString t
  | _ => True
  end.

(** Store, input and the texts accumulated by suspended calls are fit
    for storage. *)
Definition storable (sys : Sys) : Prop :=
  Forall wfSession (sessions (app sys)) /\
  wfString (input (app sys)) /\
  Forall (fun t => match task_phase t with
                   | Streaming _ full => wfString full
                   | Submitting => True
                   end) (tasks sys).

(** Two sessions exist, the older one is selected, a message is typed. *)
Definition twoSessions : AppState :=
  setInput (lit "and?")
    (onSelectSession (lit "s1")
       (handleNewChat (lit "s2") 20 21 Sample.afterExchange)).

(** The sessions an event finds, creates or leaves in the store before
    it writes to their messages or titles. *)
Definition storeBase (ev : Event) (sys : Sys) : list ChatSession :=
  match ev with
  | NewChat uuid created updated => newSession uuid created updated :: sessions (app sys)
  | DeleteSession sid => removeSession sid (sessions (app sys))
  | Send env =>
      if sendBlocked (app sys) then sessions (app sys)
      else sessionList (fst (sendPrologue env (app sys)))
  | _ => sessions (app sys)
  end.

(** What [ev] may do to a session: grow it, and retitle it if [ev] is
    the resolution of a title promise. *)
Definition evolves (ev : Event) (s s' : ChatSession) : Prop :=
  grownFrom s s' /\
  (ChatSession.title s' = ChatSession.title s \/
   exists n r, ev = TitleResolved n r /\ ChatSession.title s' = generateChatTitle r).

(** A title the header shows as it is: not empty, no white space around. *)
Definition goodTitle (s : ChatSession) : Prop :=
  ChatSession.title s <> [] /\ trim (ChatSession.title s) = ChatSession.title s.

Definition isDelete (ev : Event) : bool :=
  match ev with
  | DeleteSession _ => true
  | _ => false
  end.

(** The session a late event is aimed at: the one of the suspended call
    it continues, or of the title promise it resolves. *)
Definition targetOf (ev : Event) (sys : Sys) : option jsstring :=
  match ev with
  | TitleResolved n _ =>
      option_map (fun p => call_sessionId (fst p)) (nth_error (titleCalls sys) n)
  | _ =>
      match continues ev with
      | Some n => option_map (fun t => sessionId (task_locals t)) (nth_error (tasks sys) n)
      | None => None
      end
  end.

(** The last value an edit sequence gives a field, [d] if it gives none. *)
Definition lastModel (edits : list EditorAction) (d : jsstring) : jsstring :=
  fold_left (fun acc a => match a with EditModel v => v | EditInstruction _ => acc end)
    edits d.

Definition lastInstruction (edits : list EditorAction) (d : jsstring) : jsstring :=
  fold_left (fun acc a => match a with EditInstruction v => v | EditModel _ => acc end)
    edits d.

(** Events that create no session, delete none and refresh no date: the
    continuations of suspended calls, a resolved title, and the user
    selecting, typing or saving. *)
Definition keepsDates (ev : Event) : bool :=
  isContinuation ev || isBystander ev.

(** The session [sid] exists and was updated at [now], every other
    session before. *)
Definition stamped (sid : jsstring) (now : Z) (l : list ChatSession) : Prop :=
  In sid (sessionIds l) /\
  forall s, In s l ->
    if jsstring_eqb (ChatSession.id s) sid
    then ChatSession.lastUpdated s = now
    else (ChatSession.lastUpdated s < now)%Z.




(** The events with which a call ends: the submission is rejected, the
    stream is exhausted, the stream fails. *)
Definition endsCall (ev : Event) : bool :=
  match ev with
  | SubmitFailed _ _ | StreamDone _ | StreamFailed _ _ => true
  | _ => false
  end.
(* ================================================================== *)
(** ** Basic facts *)
(* ================================================================== *)

Lemma jsstring_eqb_refl a : jsstring_eqb a a = true.
Proof.
  induction a as [|x a IH]; simpl; [reflexivity|].
  now rewrite N.eqb_refl, IH.
Qed.

Lemma jsstring_eqb_eq a b : jsstring_eqb a b = true <-> a = b.
Proof.
  split.
  - revert b. induction a as [|x a IH]; intros [|y b]; simpl; try discriminate; auto.
    intros H. apply andb_true_iff in H. destruct H as [Hx Hr].
    apply N.eqb_eq in Hx. f_equal; auto.
  - intros ->. apply jsstring_eqb_refl.
Qed.

Lemma jsstring_eqb_neq a b : jsstring_eqb a b = false <-> a <> b.
Proof.
  split.
  - intros H E. apply jsstring_eqb_eq in E. congruence.
  - intros H. destruct (jsstring_eqb a b) eqn:E; [|reflexivity].
    apply jsstring_eqb_eq in E. contradiction.
Qed.

Lemma findIndex_fresh_app {A} (p : A -> bool) (l : list A) (x : A) (r : list A) :
  (forall y, In y l -> p y = false) -> p x = true ->
  findIndex p (l ++ x :: r) = Some (List.length l).
Proof.
  intros Hl Hx. induction l as [|y l IH]; simpl.
  - now rewrite Hx.
  - rewrite (Hl y (or_introl eq_refl)).
    rewrite IH; [reflexivity|]. intros z Hz. apply Hl. now right.
Qed.

Lemma updateAt_app_length {A} (f : A -> A) (l : list A) (x : A) (r : list A) :
  updateAt (List.length l) f (l ++ x :: r) = l ++ f x :: r.
Proof.
  induction l as [|y l IH]; simpl; [reflexivity|]. now rewrite IH.
Qed.

Lemma map_ext_In' {A B} (f g : A -> B) (l : list A) :
  (forall x, In x l -> f x = g x) -> List.map f l = List.map g l.
Proof.
  intros H. induction l as [|x l IH]; simpl; [reflexivity|].
  rewrite (H x (or_introl eq_refl)), IH; [reflexivity|].
  intros y Hy. apply H. now right.
Qed.

(** Overwriting the placeholder in a store where every target session ends
    with the user message and the placeholder. *)
Lemma updateBotContent_withExchange sid um now (bot : Message) full slist :
  (forall s, In s slist -> ChatSession.id s = sid ->
     ~ In (Message.id bot) (List.map Message.id (ChatSession.messages s ++ [um]))) ->
  updateBotContent sid (Message.id bot) full
    (List.map (withExchange sid um now [bot]) slist)
  = List.map (withExchange sid um now [Message.withContent bot full]) slist.
Proof.
  intros Hfresh. unfold updateBotContent. rewrite List.map_map.
  apply map_ext_In'. intros s Hs. unfold withExchange.
  destruct (jsstring_eqb (ChatSession.id s) sid) eqn:E.
  - simpl. rewrite E. simpl.
    apply jsstring_eqb_eq in E.
    specialize (Hfresh s Hs E).
    replace (ChatSession.messages s ++ [um; bot])
      with ((ChatSession.messages s ++ [um]) ++ bot :: [])
      by (rewrite <- List.app_assoc; reflexivity).
    rewrite findIndex_fresh_app.
    + rewrite updateAt_app_length. unfold ChatSession.withMessages, ChatSession.withMessagesAt.
      simpl. rewrite <- List.app_assoc. reflexivity.
    + intros y Hy. apply jsstring_eqb_neq. intros Heq. apply Hfresh.
      rewrite <- Heq. now apply List.in_map.
    + apply jsstring_eqb_refl.
  - rewrite E. reflexivity.
Qed.

Lemma appendUserMessage_withExchange sid um now slist :
  appendUserMessage sid um now slist = List.map (withExchange sid um now []) slist.
Proof. reflexivity. Qed.

Lemma appendMessage_withExchange sid um now reply m slist :
  appendMessage sid m (List.map (withExchange sid um now reply) slist)
  = List.map (fun s =>
      if jsstring_eqb (ChatSession.id s) sid
      then ChatSession.withMessagesAt s (ChatSession.messages s ++ um :: reply ++ [m]) now
      else s) slist.
Proof.
  unfold appendMessage. rewrite List.map_map. apply List.map_ext. intros s.
  unfold withExchange. destruct (jsstring_eqb (ChatSession.id s) sid) eqn:E.
  - simpl. rewrite E. unfold ChatSession.withMessages, ChatSession.withMessagesAt. simpl.
    rewrite <- List.app_assoc. reflexivity.
  - rewrite E. reflexivity.
Qed.

(** The loop, from a store in which the placeholder holds the accumulator. *)
Lemma setSessions_const_idem slist st :
  sessions st = slist -> setSessions (fun _ => slist) st = st.
Proof. intros <-. destruct st; reflexivity. Qed.

Lemma setSessions_const_idem' f st :
  f (sessions st) = sessions st -> setSessions f st = st.
Proof. intros H. destruct st; unfold setSessions; simpl in *. now rewrite H. Qed.

Lemma forAwait_withExchange (l : Locals) now (bot : Message) slist chunks :
  (forall s, In s slist -> ChatSession.id s = sessionId l ->
     ~ In (Message.id bot) (List.map Message.id (ChatSession.messages s ++ [userMessage l]))) ->
  forall acc st,
  sessions st = List.map (withExchange (sessionId l) (userMessage l) now
                            [Message.withContent bot acc]) slist ->
  forAwait l (Message.id bot) chunks (acc, st)
  = (acc ++ List.concat (nonEmptyFragments chunks),
     setSessions (fun _ =>
       List.map (withExchange (sessionId l) (userMessage l) now
                   [Message.withContent bot (acc ++ List.concat (nonEmptyFragments chunks))])
                slist) st).
Proof.
  intros Hfresh. unfold forAwait.
  induction chunks as [|c chunks IH]; intros acc st Hst.
  - simpl. rewrite List.app_nil_r. now rewrite setSessions_const_idem.
  - change (fold_left (fun a c0 => onChunk l (Message.id bot) c0 a) (c :: chunks) (acc, st))
      with (fold_left (fun a c0 => onChunk l (Message.id bot) c0 a) chunks
              (onChunk l (Message.id bot) c (acc, st))).
    destruct c as [[|x t]|].
    + simpl onChunk. simpl nonEmptyFragments. now apply IH.
    + simpl onChunk. simpl nonEmptyFragments.
      rewrite IH.
      * simpl List.concat. rewrite <- List.app_assoc. reflexivity.
      * simpl sessions. rewrite Hst.
        exact (@updateBotContent_withExchange (sessionId l) (userMessage l) now
                 (Message.withContent bot acc) (acc ++ x :: t) slist Hfresh).
    + simpl onChunk. simpl nonEmptyFragments. now apply IH.
Qed.

Lemma sendPrologue_sessions env st :
  sessions (snd (sendPrologue env st))
  = List.map (withExchange (sessionId (fst (sendPrologue env st)))
                (userMessage (fst (sendPrologue env st))) (env_appendNow env) [])
      (sessionList (fst (sendPrologue env st))).
Proof.
  unfold sendPrologue.
  destruct (currentSessionId st) as [sid0|]; [destruct (noSession (Some sid0))|]; reflexivity.
Qed.

Lemma getChatInstance_sessions st : sessions (snd (getChatInstance st)) = sessions st.
Proof. unfold getChatInstance. destruct (chatInstanceRef st); reflexivity. Qed.

Lemma surjective_pairing' {A B} (p : A * B) : p = (fst p, snd p).
Proof. destruct p; reflexivity. Qed.

(** The store a send that is not blocked leaves behind. *)
Lemma handleSendMessage_sessions env b e o st :
  sendBlocked st = false ->
  let l := fst (sendPrologue env st) in
  freshPlaceholder l b ->
  sessions (snd (handleSendMessage env b e o st))
  = List.map (withExchange (sessionId l) (userMessage l) (env_appendNow env) (replyOf b e o))
      (sessionList l).
Proof.
  intros Hgo l Hfresh. unfold handleSendMessage. rewrite Hgo.
  pose proof (sendPrologue_sessions env st) as Hpro. fold l in Hpro.
  rewrite (surjective_pairing' (sendPrologue env st)). fold l.
  set (st1 := snd (sendPrologue env st)) in *.
  unfold tryCatchFinally, tryBlock, bind, modify, throw, ret.
  pose proof (getChatInstance_sessions st1) as Hget.
  rewrite (surjective_pairing' (getChatInstance st1)).
  set (st2 := snd (getChatInstance st1)) in *.
  rewrite Hpro in Hget.
  destruct o as [|chunks fin].
  - simpl. rewrite Hget. apply (appendMessage_withExchange _ _ _ []).
  - assert (Hph : sessions (addPlaceholder l b st2) =
      List.map (withExchange (sessionId l) (userMessage l) (env_appendNow env)
                  [Message.withContent (initialBotMessage b) []]) (sessionList l)).
    { simpl. rewrite Hget. apply (appendMessage_withExchange _ _ _ []). }
    pose proof (@forAwait_withExchange l (env_appendNow env) (initialBotMessage b)
                  (sessionList l) chunks Hfresh [] _ Hph) as Hloop.
    simpl Message.id in Hloop.
    match goal with
    | |- context [forAwait ?a ?i ?c ?p] => set (r := forAwait a i c p)
    end.
    match type of Hloop with _ = ?rhs => assert (Hr : r = rhs) by exact Hloop end.
    rewrite Hr. simpl snd.
    destruct fin; simpl.
    + reflexivity.
    + apply (appendMessage_withExchange _ _ _ [_]).
Qed.

Lemma handleSendMessage_completes env b e o st :
  exists c, fst (handleSendMessage env b e o st) = Normal c.
Proof.
  unfold handleSendMessage. destruct (sendBlocked st); [eexists; reflexivity|].
  destruct (sendPrologue env st) as [l st1].
  unfold tryCatchFinally. destruct (tryBlock l b o st1) as [[c|] st2]; eexists; reflexivity.
Qed.

Lemma In_withExchange sid um now reply slist s' :
  In s' (List.map (withExchange sid um now reply) slist) ->
  ChatSession.id s' = sid ->
  exists s, In s slist /\ ChatSession.id s = sid /\
    s' = ChatSession.withMessagesAt s (ChatSession.messages s ++ um :: reply) now.
Proof.
  intros Hin Hid. apply List.in_map_iff in Hin. destruct Hin as [s [Hs Hin]].
  exists s. unfold withExchange in Hs.
  destruct (jsstring_eqb (ChatSession.id s) sid) eqn:E.
  - apply jsstring_eqb_eq in E. auto.
  - apply jsstring_eqb_neq in E. subst s'. contradiction.
Qed.

(* ================================================================== *)
(** ** Streaming fold *)
(* ================================================================== *)

(** C1. A send whose stream is consumed to exhaustion leaves, in every
    target session, the earlier messages, the user message and then the
    placeholder, whose content is the concatenation of the non-empty
    fragment texts in the order received: nothing dropped, nothing
    repeated. *)
Theorem streamed_content_is_concatenation env b e chunks st :
  sendBlocked st = false ->
  let l := fst (sendPrologue env st) in
  freshPlaceholder l b ->
  sessions (snd (handleSendMessage env b e (Streamed chunks Exhausted) st))
  = List.map (fun s =>
      if jsstring_eqb (ChatSession.id s) (sessionId l)
      then ChatSession.withMessagesAt s
             (ChatSession.messages s ++
                [userMessage l;
                 Message.mk (env_uuid b) RoleModel
                   (List.concat (nonEmptyFragments chunks)) (env_timestamp b)])
             (env_appendNow env)
      else s) (sessionList l).
Proof.
  intros Hgo l Hfresh.
  exact (@handleSendMessage_sessions env b e (Streamed chunks Exhausted) st Hgo Hfresh).
Qed.

(** C1 on a concrete run: the fragments ["Hel"], ["lo"], [" world"] sent to a
    freshly mounted component leave the reply ["Hello world"]. *)
Lemma streamed_hello_world :
  sendBlocked Sample.typed = false /\
  sessions (snd (handleSendMessage Sample.env Sample.bot Sample.err
                   (Streamed [Some (lit "Hel"); Some (lit "lo"); Some (lit " world")] Exhausted)
                   Sample.typed))
  = [ChatSession.mk (lit "s1") (lit "New Chat")
       [Sample.userHi; Message.mk (lit "b1") RoleModel (lit "Hello world") 14] 10 13].
Proof.
  split; [reflexivity|].
  apply (@streamed_content_is_concatenation Sample.env Sample.bot Sample.err
           [Some (lit "Hel"); Some (lit "lo"); Some (lit " world")] Sample.typed eq_refl).
  intros s Hin _ Hm. cbn in Hin. destruct Hin as [<-|[]].
  cbn in Hm. destruct Hm as [H|[]]; discriminate H.
Defined.

(* ================================================================== *)
(** ** Failure of the remote call *)
(* ================================================================== *)

(** C2, as stated, fails: when the stream throws after the fragment
    ["Hel"], the placeholder keeps ["Hel"]; the apology is a further
    message. *)
Lemma error_does_not_replace_placeholder :
  let st' := snd (handleSendMessage Sample.env Sample.bot Sample.err
                    (Streamed [Some (lit "Hel")] Thrown) Sample.typed) in
  option_map ChatSession.messages (getCurrentSession st')
  = Some [Sample.userHi;
          Message.mk (lit "b1") RoleModel (lit "Hel") 14;
          Message.mk (lit "e1") RoleModel APOLOGY 15]
  /\ lit "Hel" <> APOLOGY.
Proof. split; [vm_compute; reflexivity | discriminate]. Qed.

(** C2, amended. A send that fails at submission or in the stream ends
    normally; every target session gets the apology as a new last
    message, after the user message and after the placeholder (if the
    stream had opened) with the text streamed so far. *)
Theorem error_appends_apology env b e o st :
  sendBlocked st = false ->
  o = SubmitRejected \/ (exists chunks, o = Streamed chunks Thrown) ->
  let l := fst (sendPrologue env st) in
  freshPlaceholder l b ->
  let r := handleSendMessage env b e o st in
  fst r = Normal None /\
  sessions (snd r)
  = List.map (fun s =>
      if jsstring_eqb (ChatSession.id s) (sessionId l)
      then ChatSession.withMessagesAt s
             (ChatSession.messages s ++ [userMessage l]
              ++ match o with
                 | SubmitRejected => []
                 | Streamed chunks _ =>
                     [Message.mk (env_uuid b) RoleModel
                        (List.concat (nonEmptyFragments chunks)) (env_timestamp b)]
                 end
              ++ [Message.mk (env_uuid e) RoleModel APOLOGY (env_timestamp e)])
             (env_appendNow env)
      else s) (sessionList l) /\
  (forall s, In s (sessions (snd r)) -> ChatSession.id s = sessionId l ->
     exists m, lastMessage s = Some m /\ Message.content m = APOLOGY).
Proof.
  intros Hgo Ho l Hfresh r.
  pose proof (@handleSendMessage_sessions env b e o st Hgo Hfresh) as Hs.
  fold l in Hs. fold r in Hs.
  assert (Hreply : exists front, replyOf b e o = front ++ [errorMessage e]).
  { destruct Ho as [->|[chunks ->]]; simpl.
    - exists []. reflexivity.
    - eexists [_]. reflexivity. }
  split; [|split].
  - subst r. unfold handleSendMessage. rewrite Hgo.
    rewrite (surjective_pairing' (sendPrologue env st)).
    unfold tryCatchFinally, tryBlock, bind, modify, throw.
    destruct (getChatInstance (snd (sendPrologue env st))) as [c st2].
    destruct Ho as [->|[chunks ->]]; reflexivity.
  - rewrite Hs. apply List.map_ext. intros s. unfold withExchange.
    destruct (jsstring_eqb (ChatSession.id s) (sessionId l)); [|reflexivity].
    destruct Ho as [->|[chunks ->]]; reflexivity.
  - intros s Hin Hid. rewrite Hs in Hin.
    apply In_withExchange in Hin; [|assumption].
    destruct Hin as [s0 [_ [_ ->]]]. destruct Hreply as [front Hfront].
    exists (errorMessage e). split; [|reflexivity].
    unfold lastMessage. simpl. rewrite Hfront.
    change (userMessage l :: front ++ [errorMessage e])
      with ((userMessage l :: front) ++ [errorMessage e]).
    rewrite List.app_assoc, List.map_app. simpl. apply List.last_last.
Qed.

Lemma error_appends_apology_witness :
  let r := handleSendMessage Sample.env Sample.bot Sample.err
             (Streamed [Some (lit "Hel")] Thrown) Sample.typed in
  fst r = Normal None /\
  sessions (snd r)
  = [ChatSession.mk (lit "s1") (lit "New Chat")
       [Sample.userHi;
        Message.mk (lit "b1") RoleModel (lit "Hel") 14;
        Message.mk (lit "e1") RoleModel APOLOGY 15] 10 13].
Proof.
  assert (Hfresh : freshPlaceholder (fst (sendPrologue Sample.env Sample.typed)) Sample.bot).
  { intros s Hin _ Hm. cbn in Hin. destruct Hin as [<-|[]].
    cbn in Hm. destruct Hm as [H|[]]; discriminate H. }
  pose proof (@error_appends_apology Sample.env Sample.bot Sample.err
                (Streamed [Some (lit "Hel")] Thrown) Sample.typed eq_refl
                (or_intror (ex_intro _ _ eq_refl)) Hfresh) as H.
  split; [exact (proj1 H) | exact (proj1 (proj2 H))].
Defined.

(* ================================================================== *)
(** ** Frame of the updaters *)
(* ================================================================== *)

Lemma carried_refl sid s : carried sid s s.
Proof. repeat split; auto. Qed.

Lemma carried_trans sid s1 s2 s3 :
  carried sid s1 s2 -> carried sid s2 s3 -> carried sid s1 s3.
Proof.
  intros (Hi & Hc & Hf & Hl) (Hi' & Hc' & Hf' & Hl'). repeat split.
  - congruence.
  - congruence.
  - intros Hne. rewrite Hf' by congruence. auto.
  - lia.
Qed.

Lemma Forall2_map_r {A B} (R : A -> B -> Prop) (f : A -> B) (l : list A) :
  (forall x, In x l -> R x (f x)) -> Forall2 R l (List.map f l).
Proof.
  induction l as [|x l IH]; intros H; simpl; constructor.
  - apply H. now left.
  - apply IH. intros y Hy. apply H. now right.
Qed.

Lemma Forall2_carried_refl sid l : Forall2 (carried sid) l l.
Proof. induction l; constructor; auto using carried_refl. Qed.

Lemma Forall2_carried_trans sid l1 l2 l3 :
  Forall2 (carried sid) l1 l2 -> Forall2 (carried sid) l2 l3 ->
  Forall2 (carried sid) l1 l3.
Proof.
  intros H. revert l3. induction H; intros l3 H3; inversion H3; subst; constructor.
  - eapply carried_trans; eauto.
  - auto.
Qed.

Lemma updateAt_length {A} (f : A -> A) i (l : list A) :
  List.length (updateAt i f l) = List.length l.
Proof.
  revert i. induction l as [|x l IH]; intros [|i]; simpl; auto.
Qed.

Lemma appendUserMessage_carried sid um now l :
  Forall2 (carried sid) l (appendUserMessage sid um now l).
Proof.
  apply Forall2_map_r. intros s _.
  destruct (jsstring_eqb (ChatSession.id s) sid) eqn:E; [|apply carried_refl].
  apply jsstring_eqb_eq in E. repeat split; simpl; try congruence.
  rewrite List.length_app. lia.
Qed.

Lemma appendMessage_carried sid m l :
  Forall2 (carried sid) l (appendMessage sid m l).
Proof.
  apply Forall2_map_r. intros s _.
  destruct (jsstring_eqb (ChatSession.id s) sid) eqn:E; [|apply carried_refl].
  apply jsstring_eqb_eq in E. repeat split; simpl; try congruence.
  rewrite List.length_app. lia.
Qed.

Lemma updateBotContent_carried sid bid full l :
  Forall2 (carried sid) l (updateBotContent sid bid full l).
Proof.
  apply Forall2_map_r. intros s _.
  destruct (jsstring_eqb (ChatSession.id s) sid) eqn:E; simpl; [|apply carried_refl].
  apply jsstring_eqb_eq in E. repeat split; simpl; try congruence.
  destruct (findIndex _ _); [rewrite updateAt_length|]; lia.
Qed.

Lemma renameSession_carried sid ttl l :
  Forall2 (carried sid) l (renameSession sid ttl l).
Proof.
  apply Forall2_map_r. intros s _.
  destruct (jsstring_eqb (ChatSession.id s) sid) eqn:E; [|apply carried_refl].
  apply jsstring_eqb_eq in E. repeat split; simpl; try congruence. lia.
Qed.

Lemma onChunk_carried l bid c acc st :
  Forall2 (carried (sessionId l)) (sessions st)
    (sessions (snd (onChunk l bid c (acc, st)))).
Proof.
  unfold onChunk. destruct c as [[|x t]|]; simpl;
    auto using Forall2_carried_refl, updateBotContent_carried.
Qed.

Lemma forAwait_carried l bid chunks acc st :
  Forall2 (carried (sessionId l)) (sessions st)
    (sessions (snd (forAwait l bid chunks (acc, st)))).
Proof.
  unfold forAwait. revert acc st.
  induction chunks as [|c chunks IH]; intros acc st.
  - apply Forall2_carried_refl.
  - change (fold_left (fun a c0 => onChunk l bid c0 a) (c :: chunks) (acc, st))
      with (fold_left (fun a c0 => onChunk l bid c0 a) chunks (onChunk l bid c (acc, st))).
    pose proof (onChunk_carried l bid c acc st) as H1.
    destruct (onChunk l bid c (acc, st)) as [acc' st'].
    eapply Forall2_carried_trans; [exact H1 | apply IH].
Qed.

Lemma tryBlock_carried l b o st :
  Forall2 (carried (sessionId l)) (sessions st) (sessions (snd (tryBlock l b o st))).
Proof.
  unfold tryBlock, bind, modify, throw, ret.
  pose proof (getChatInstance_sessions st) as Hg.
  destruct (getChatInstance st) as [c st2]. simpl in Hg. rewrite <- Hg.
  destruct o as [|chunks fin]; [apply Forall2_carried_refl|].
  assert (H : Forall2 (carried (sessionId l)) (sessions st2)
                (sessions (snd (forAwait l (env_uuid b) chunks ([], addPlaceholder l b st2))))).
  { eapply Forall2_carried_trans; [|apply forAwait_carried].
    apply appendMessage_carried. }
  destruct fin; exact H.
Qed.

Lemma Forall2_carried_ids sid l l' :
  Forall2 (carried sid) l l' -> List.map ChatSession.id l' = List.map ChatSession.id l.
Proof.
  induction 1 as [|s s' l l' Hc _ IH]; simpl; [reflexivity|].
  destruct Hc as [-> _]. now rewrite IH.
Qed.

Lemma Forall2_carried_others sid l l' :
  Forall2 (carried sid) l l' ->
  (forall s, In s l -> ChatSession.id s <> sid) -> l' = l.
Proof.
  induction 1 as [|s s' l l' Hc _ IH]; intros Hne; [reflexivity|].
  destruct Hc as (_ & _ & Hf & _).
  rewrite Hf by (apply Hne; now left).
  rewrite IH; [reflexivity|]. intros x Hx. apply Hne. now right.
Qed.

(** What a send that goes through does to the store, whatever the
    outcome and whatever the identifiers drawn. *)
Lemma handleSendMessage_carried env b e o st :
  sendBlocked st = false ->
  let l := fst (sendPrologue env st) in
  Forall2 (carried (sessionId l)) (sessionList l)
    (sessions (snd (handleSendMessage env b e o st))).
Proof.
  intros Hgo l. unfold handleSendMessage. rewrite Hgo.
  pose proof (sendPrologue_sessions env st) as Hpro. fold l in Hpro.
  rewrite (surjective_pairing' (sendPrologue env st)). fold l.
  set (st1 := snd (sendPrologue env st)) in *.
  assert (H1 : Forall2 (carried (sessionId l)) (sessionList l) (sessions st1)).
  { rewrite Hpro. rewrite <- appendUserMessage_withExchange. apply appendUserMessage_carried. }
  pose proof (tryBlock_carried l b o st1) as H2.
  unfold tryCatchFinally. destruct (tryBlock l b o st1) as [[c|] st2]; simpl in *.
  - eapply Forall2_carried_trans; eauto.
  - eapply Forall2_carried_trans; [exact H1|].
    eapply Forall2_carried_trans; [exact H2|]. apply appendMessage_carried.
Qed.

(* ================================================================== *)
(** ** The call and the event system agree *)
(* ================================================================== *)

Lemma run_cons ev evs sys :
  run (ev :: evs) sys
  = match step ev sys with
    | Some sys' => run evs sys'
    | None => None
    end.
Proof. reflexivity. Qed.

Lemma run_app evs1 evs2 sys :
  run (evs1 ++ evs2) sys
  = match run evs1 sys with
    | Some sys' => run evs2 sys'
    | None => None
    end.
Proof.
  revert sys. induction evs1 as [|ev evs1 IH]; intros sys; simpl; [reflexivity|].
  destruct (step ev sys); [apply IH | reflexivity].
Qed.

Lemma step_chunk l bid c full st tc :
  step (Chunk 0 c)
    {| app := st;
       tasks := [{| task_locals := l; task_phase := Streaming bid full |}];
       titleCalls := tc |}
  = Some {| app := snd (onChunk l bid c (full, st));
            tasks := [{| task_locals := l;
                         task_phase := Streaming bid (fst (onChunk l bid c (full, st))) |}];
            titleCalls := tc |}.
Proof. destruct c as [[|x t]|]; reflexivity. Qed.

Lemma run_chunks l bid chunks full st tc :
  run (List.map (Chunk 0) chunks)
    {| app := st;
       tasks := [{| task_locals := l; task_phase := Streaming bid full |}];
       titleCalls := tc |}
  = Some {| app := snd (forAwait l bid chunks (full, st));
            tasks := [{| task_locals := l;
                         task_phase := Streaming bid (fst (forAwait l bid chunks (full, st))) |}];
            titleCalls := tc |}.
Proof.
  unfold forAwait. revert full st.
  induction chunks as [|c chunks IH]; intros full st; [reflexivity|].
  change (fold_left (fun a c0 => onChunk l bid c0 a) (c :: chunks) (full, st))
    with (fold_left (fun a c0 => onChunk l bid c0 a) chunks (onChunk l bid c (full, st))).
  rewrite List.map_cons, run_cons, step_chunk.
  destruct (onChunk l bid c (full, st)) as [full' st']. apply IH.
Qed.

(** Playing an outcome to a lone call through the event system gives the
    state and the title call of [handleSendMessage]. *)
Lemma handleSendMessage_run env b e o st tc :
  sendBlocked st = false ->
  run (Send env :: eventsOf b e o) {| app := st; tasks := []; titleCalls := tc |}
  = Some {| app := snd (handleSendMessage env b e o st);
            tasks := [];
            titleCalls :=
              tc ++ List.map (fun c => (c, false))
                      (optionToList (fired (fst (handleSendMessage env b e o st)))) |}.
Proof.
  intros Hgo. unfold handleSendMessage. rewrite run_cons.
  unfold step at 1. cbv beta iota zeta delta [app tasks titleCalls].
  rewrite Hgo. destruct (sendPrologue env st) as [l st1].
  unfold tryCatchFinally, tryBlock, bind, modify, throw, ret.
  destruct (getChatInstance st1) as [c st2]. cbv beta iota delta [snd fst]. rewrite List.app_nil_l.
  destruct o as [|chunks fin].
  - simpl. now rewrite List.app_nil_r.
  - unfold eventsOf. rewrite run_cons. unfold step at 1. simpl.
    rewrite run_app, run_chunks.
    destruct fin; simpl; [reflexivity | now rewrite List.app_nil_r].
Qed.

(* ================================================================== *)
(** ** When the placeholder appears *)
(* ================================================================== *)

(** C5, as stated, fails: the stream has opened and no fragment has
    arrived, yet the list ends with the empty placeholder, not with the
    user message; and it stays there when the stream ends without any
    fragment. *)
Lemma placeholder_precedes_first_fragment :
  (exists sys,
     run [Send Sample.env; StreamOpened 0 Sample.bot] (mounted Sample.typed) = Some sys /\
     option_map ChatSession.messages (getCurrentSession (app sys))
     = Some [Sample.userHi; Message.mk (lit "b1") RoleModel [] 14]) /\
  (exists sys,
     run [Send Sample.env; StreamOpened 0 Sample.bot; StreamDone 0] (mounted Sample.typed)
     = Some sys /\
     option_map ChatSession.messages (getCurrentSession (app sys))
     = Some [Sample.userHi; Message.mk (lit "b1") RoleModel [] 14]).
Proof. split; eexists; split; vm_compute; reflexivity. Qed.

Lemma onChunk_lengths l bid c acc st :
  List.map (fun s => List.length (ChatSession.messages s))
    (sessions (snd (onChunk l bid c (acc, st))))
  = List.map (fun s => List.length (ChatSession.messages s)) (sessions st).
Proof.
  unfold onChunk. destruct c as [[|x t]|]; simpl; try reflexivity.
  unfold updateBotContent. rewrite List.map_map. apply List.map_ext. intros s.
  destruct (jsstring_eqb (ChatSession.id s) (sessionId l)); simpl; [|reflexivity].
  destruct (findIndex _ _); [apply updateAt_length | reflexivity].
Qed.

(** C5, amended. While the submission is pending every target session
    ends with the user message; the empty model-role placeholder is
    appended when the submission resolves, before any fragment; a
    fragment appends nothing. *)
Theorem placeholder_appended_when_stream_opens env b st :
  sendBlocked st = false ->
  let l := fst (sendPrologue env st) in
  exists sys1 sys2,
    step (Send env) (mounted st) = Some sys1 /\
    sessions (app sys1)
    = List.map (fun s =>
        if jsstring_eqb (ChatSession.id s) (sessionId l)
        then ChatSession.withMessagesAt s (ChatSession.messages s ++ [userMessage l])
               (env_appendNow env)
        else s) (sessionList l) /\
    step (StreamOpened 0 b) sys1 = Some sys2 /\
    sessions (app sys2)
    = List.map (fun s =>
        if jsstring_eqb (ChatSession.id s) (sessionId l)
        then ChatSession.withMessagesAt s
               (ChatSession.messages s ++
                  [userMessage l; Message.mk (env_uuid b) RoleModel [] (env_timestamp b)])
               (env_appendNow env)
        else s) (sessionList l) /\
    (forall chunkText, exists sys3,
       step (Chunk 0 chunkText) sys2 = Some sys3 /\
       List.map (fun s => List.length (ChatSession.messages s)) (sessions (app sys3))
       = List.map (fun s => List.length (ChatSession.messages s)) (sessions (app sys2))).
Proof.
  intros Hgo l.
  pose proof (sendPrologue_sessions env st) as Hpro. fold l in Hpro.
  unfold step, mounted. simpl app. rewrite Hgo.
  rewrite (surjective_pairing' (sendPrologue env st)). fold l.
  set (st1 := snd (sendPrologue env st)) in *.
  pose proof (getChatInstance_sessions st1) as Hget.
  set (st2 := snd (getChatInstance st1)) in *.
  eexists. eexists. split; [reflexivity|]. simpl.
  split; [exact (eq_trans Hget Hpro)|].
  split; [reflexivity|].
  split.
  - transitivity (appendMessage (sessionId l) (initialBotMessage b)
                    (List.map (withExchange (sessionId l) (userMessage l)
                                 (env_appendNow env) []) (sessionList l))).
    + change (appendMessage (sessionId l) (initialBotMessage b) (sessions st2) = 
              appendMessage (sessionId l) (initialBotMessage b)
                (List.map (withExchange (sessionId l) (userMessage l)
                             (env_appendNow env) []) (sessionList l))).
      f_equal. exact (eq_trans Hget Hpro).
    + apply (appendMessage_withExchange _ _ _ []).
  - intros chunkText.
    pose proof (onChunk_lengths l (env_uuid b) chunkText [] (addPlaceholder l b st2)) as Hlen.
    exists {| app := snd (onChunk l (env_uuid b) chunkText ([], addPlaceholder l b st2));
              tasks := [{| task_locals := l;
                           task_phase := Streaming (env_uuid b)
                             (fst (onChunk l (env_uuid b) chunkText
                                     ([], addPlaceholder l b st2))) |}];
              titleCalls := [] |}.
    split; [apply step_chunk | exact Hlen].
Qed.

Lemma placeholder_appended_when_stream_opens_witness :
  exists sys1 sys2,
    step (Send Sample.env) (mounted Sample.typed) = Some sys1 /\
    sessions (app sys1)
    = [ChatSession.mk (lit "s1") (lit "New Chat") [Sample.userHi] 10 13] /\
    step (StreamOpened 0 Sample.bot) sys1 = Some sys2 /\
    sessions (app sys2)
    = [ChatSession.mk (lit "s1") (lit "New Chat")
         [Sample.userHi; Message.mk (lit "b1") RoleModel [] 14] 10 13].
Proof.
  destruct (@placeholder_appended_when_stream_opens Sample.env Sample.bot Sample.typed eq_refl)
    as (sys1 & sys2 & H1 & H2 & H3 & H4 & _).
  exists sys1, sys2. repeat split; assumption.
Defined.

(* ================================================================== *)
(** ** What the streaming code leaves alone *)
(* ================================================================== *)

Lemma sameButSessions_refl st : sameButSessions st st.
Proof. repeat split. Qed.

Lemma sameButSessions_trans st1 st2 st3 :
  sameButSessions st1 st2 -> sameButSessions st2 st3 -> sameButSessions st1 st3.
Proof.
  intros (A1 & A2 & A3 & A4 & A5) (B1 & B2 & B3 & B4 & B5).
  repeat split; congruence.
Qed.

Lemma setSessions_same f st : sameButSessions st (setSessions f st).
Proof. repeat split. Qed.

Lemma onChunk_same l bid c acc st : sameButSessions st (snd (onChunk l bid c (acc, st))).
Proof. destruct c as [[|x t]|]; repeat split. Qed.

Lemma forAwait_same l bid chunks acc st :
  sameButSessions st (snd (forAwait l bid chunks (acc, st))).
Proof.
  unfold forAwait. revert acc st.
  induction chunks as [|c chunks IH]; intros acc st; [apply sameButSessions_refl|].
  change (fold_left (fun a c0 => onChunk l bid c0 a) (c :: chunks) (acc, st))
    with (fold_left (fun a c0 => onChunk l bid c0 a) chunks (onChunk l bid c (acc, st))).
  pose proof (onChunk_same l bid c acc st) as H1.
  destruct (onChunk l bid c (acc, st)) as [acc' st'].
  eapply sameButSessions_trans; [exact H1 | apply IH].
Qed.

(** After its first line the [try] block writes nothing but the store. *)
Lemma tryBlock_same l b o st :
  sameButSessions (snd (getChatInstance st)) (snd (tryBlock l b o st)).
Proof.
  unfold tryBlock, bind, modify, throw, ret.
  destruct (getChatInstance st) as [c st2]. simpl snd.
  destruct o as [|chunks fin]; [apply sameButSessions_refl|].
  assert (H : sameButSessions st2
                (snd (forAwait l (env_uuid b) chunks ([], addPlaceholder l b st2)))).
  { eapply sameButSessions_trans; [|apply forAwait_same]. apply setSessions_same. }
  destruct fin; exact H.
Qed.

Lemma sendPrologue_fields env st :
  let st1 := snd (sendPrologue env st) in
  input st1 = [] /\ isGenerating st1 = true /\ settings st1 = settings st /\
  currentSessionId st1 = Some (sessionId (fst (sendPrologue env st))) /\
  chatInstanceRef st1
  = (if noSession (currentSessionId st) then None else chatInstanceRef st).
Proof.
  unfold sendPrologue.
  destruct (currentSessionId st) as [sid0|] eqn:Hc;
    [destruct (noSession (Some sid0)) eqn:E|]; cbv zeta; simpl; repeat split; auto.
Qed.

(** The fields of the state a send that goes through leaves behind. *)
Lemma handleSendMessage_fields env b e o st :
  sendBlocked st = false ->
  let st' := snd (handleSendMessage env b e o st) in
  input st' = [] /\ isGenerating st' = false /\ settings st' = settings st /\
  currentSessionId st' = Some (sessionId (fst (sendPrologue env st))) /\
  chatInstanceRef st'
  = Some (if noSession (currentSessionId st) then handleFor st
          else match chatInstanceRef st with
               | Some c => c
               | None => handleFor st
               end).
Proof.
  intros Hgo. unfold handleSendMessage. rewrite Hgo.
  pose proof (sendPrologue_fields env st) as (P1 & P2 & P3 & P4 & P5).
  destruct (sendPrologue env st) as [l st1]. simpl fst in *. simpl snd in *.
  pose proof (tryBlock_same l b o st1) as (T1 & T2 & T3 & T4 & T5).
  assert (G : sameButSessions st1 (setChatInstance (chatInstanceRef st1) (snd (getChatInstance st1)))
              /\ chatInstanceRef (snd (getChatInstance st1))
                 = Some (match chatInstanceRef st1 with Some c => c | None => handleFor st1 end)).
  { unfold getChatInstance, sameButSessions.
    destruct (chatInstanceRef st1) eqn:Ec; simpl; repeat split; auto. }
  destruct G as [(G1 & G2 & G3 & G4 & _) G5]. simpl in G1, G2, G3, G4.
  assert (Hh : handleFor st1 = handleFor st) by (unfold handleFor; now rewrite P3).
  unfold tryCatchFinally.
  destruct (tryBlock l b o st1) as [[c|] st2]; simpl in *;
    (repeat split; try congruence;
     rewrite T5, G5, P5, Hh; destruct (noSession (currentSessionId st)); reflexivity).
Qed.

(* ================================================================== *)
(** ** Life cycle of the model session handle *)
(* ================================================================== *)

Lemma step_handle ev sys sys' :
  step ev sys = Some sys' ->
  chatInstanceRef (app sys') = chatInstanceRef (app sys) \/
  chatInstanceRef (app sys') = None \/
  chatInstanceRef (app sys') = Some (handleFor (app sys')).
Proof.
  destruct ev; unfold step; intros H.
  - inversion H; subst; simpl. auto.
  - inversion H; subst; simpl. auto.
  - inversion H; subst; simpl. unfold handleDeleteSession.
    destruct (optstring_eqb _ _); simpl; auto.
  - inversion H; subst; simpl. destruct localSettings; simpl; auto.
  - inversion H; subst; simpl. auto.
  - destruct (sendBlocked (app sys)) eqn:Hb; [inversion H; subst; auto|].
    pose proof (sendPrologue_fields env (app sys)) as (_ & _ & P3 & _ & P5).
    destruct (sendPrologue env (app sys)) as [l st1]. simpl snd in *.
    inversion H; subst; simpl. clear H.
    unfold getChatInstance. destruct (chatInstanceRef st1) as [c|] eqn:Ec; simpl.
    + left. rewrite Ec. rewrite P5 in Ec.
      destruct (noSession _); [discriminate | now symmetry].
    + right. right. reflexivity.
  - destruct (nth_error (tasks sys) n) as [[l [|bid full]]|]; inversion H; subst; simpl; auto.
  - destruct (nth_error (tasks sys) n) as [[l [|bid full]]|]; inversion H; subst; simpl; auto.
  - destruct (nth_error (tasks sys) n) as [[l [|bid full]]|]; try discriminate.
    pose proof (onChunk_same l bid chunkText full (app sys)) as (_ & _ & _ & _ & Hc).
    destruct (onChunk l bid chunkText (full, app sys)) as [full' st'].
    inversion H; subst; simpl in *. auto.
  - destruct (nth_error (tasks sys) n) as [[l [|bid full]]|]; inversion H; subst; simpl; auto.
  - destruct (nth_error (tasks sys) n) as [[l [|bid full]]|]; inversion H; subst; simpl; auto.
  - destruct (nth_error (titleCalls sys) n) as [[c [|]]|]; inversion H; subst; simpl; auto.
Qed.

(** C4. Saving changed settings, selecting a session, starting a new
    chat and deleting the active session each leave the handle absent;
    from an absent handle the next send that goes through, whatever was
    typed meanwhile, binds a handle whose system instruction and model
    are those of the settings then in force; and no event ever puts
    into the cell anything but the handle it held, nothing, or a handle
    whose system instruction and model are those of the current
    settings. *)
Theorem handle_invalidated_and_rebuilt :
  (forall s st,
     chatInstanceRef (onSave (Some s) st) = None /\ settings (onSave (Some s) st) = s) /\
  (forall sid st, chatInstanceRef (onSelectSession sid st) = None) /\
  (forall uuid created updated st,
     chatInstanceRef (handleNewChat uuid created updated st) = None) /\
  (forall sid st,
     currentSessionId st = Some sid ->
     chatInstanceRef (handleDeleteSession sid st) = None) /\
  (forall text env b e o st,
     chatInstanceRef st = None ->
     sendBlocked (setInput text st) = false ->
     exists c,
       chatInstanceRef (snd (handleSendMessage env b e o (setInput text st))) = Some c /\
       chat_systemInstruction c = systemInstruction (settings st) /\
       chat_model c = model (settings st)) /\
  (forall ev sys sys',
     step ev sys = Some sys' ->
     chatInstanceRef (app sys') = chatInstanceRef (app sys) \/
     chatInstanceRef (app sys') = None \/
     exists c,
       chatInstanceRef (app sys') = Some c /\
       chat_systemInstruction c = systemInstruction (settings (app sys')) /\
       chat_model c = model (settings (app sys'))).
Proof.
  split; [|split; [|split; [|split; [|split]]]].
  - intros s st. split; reflexivity.
  - reflexivity.
  - reflexivity.
  - intros sid st Hc. unfold handleDeleteSession. rewrite Hc. simpl.
    now rewrite jsstring_eqb_refl.
  - intros text env b e o st Hnone Hgo.
    pose proof (@handleSendMessage_fields env b e o (setInput text st) Hgo)
      as (_ & _ & _ & _ & Hh).
    rewrite Hh. simpl chatInstanceRef. rewrite Hnone.
    exists (handleFor (setInput text st)).
    split; [destruct (noSession _); reflexivity|].
    split; reflexivity.
  - intros ev sys sys' Hstep.
    destruct (step_handle _ _ Hstep) as [Hsame|[Hnone|Hnew]]; auto.
    right. right. exists (handleFor (app sys')).
    split; [exact Hnew|]. split; reflexivity.
Qed.

(** C4 on a concrete run: new settings are saved on a bound handle, a
    message is typed and sent; the handle is rebuilt from the saved
    settings. *)
Lemma handle_invalidated_and_rebuilt_witness :
  let s := {| systemInstruction := lit "Be brief."; model := ModelIds.PRO |} in
  let st := onSave (Some s) Sample.afterExchange in
  option_map chat_systemInstruction (chatInstanceRef Sample.afterExchange)
  = Some (systemInstruction DEFAULT_SETTINGS) /\
  option_map chat_model (chatInstanceRef Sample.afterExchange) = Some ModelIds.FLASH /\
  chatInstanceRef st = None /\
  exists c,
    chatInstanceRef
      (snd (handleSendMessage Sample.env2 Sample.bot2 Sample.err2 SubmitRejected
              (setInput (lit "again") st))) = Some c /\
    chat_systemInstruction c = lit "Be brief." /\
    chat_model c = ModelIds.PRO.
Proof.
  intros s st. split; [reflexivity|]. split; [reflexivity|]. split; [reflexivity|].
  exact (proj1 (proj2 (proj2 (proj2 (proj2 handle_invalidated_and_rebuilt))))
           (lit "again") Sample.env2 Sample.bot2 Sample.err2 SubmitRejected st
           eq_refl eq_refl).
Defined.

(* ================================================================== *)
(** ** Deleting a session *)
(* ================================================================== *)

(** C8. [handleDeleteSession] removes the sessions carrying the given
    identifier and no other, keeping the order of the rest; when the
    deleted session is the active one the pointer and the handle are
    cleared, otherwise both stay as they were; the input, the generating
    flag and the settings are never touched. *)
Theorem delete_removes_only_that_session sid st :
  let st' := handleDeleteSession sid st in
  sessions st'
  = List.filter (fun s => negb (jsstring_eqb (ChatSession.id s) sid)) (sessions st) /\
  (forall s, In s (sessions st') <-> In s (sessions st) /\ ChatSession.id s <> sid) /\
  (currentSessionId st = Some sid ->
     currentSessionId st' = None /\ chatInstanceRef st' = None) /\
  (currentSessionId st <> Some sid ->
     currentSessionId st' = currentSessionId st /\
     chatInstanceRef st' = chatInstanceRef st) /\
  input st' = input st /\ isGenerating st' = isGenerating st /\ settings st' = settings st.
Proof.
  unfold handleDeleteSession. cbv zeta.
  assert (Hcur : optstring_eqb (currentSessionId st) sid = true <-> currentSessionId st = Some sid).
  { destruct (currentSessionId st) as [c|]; simpl.
    - rewrite jsstring_eqb_eq. split; congruence.
    - split; discriminate. }
  destruct (optstring_eqb (currentSessionId st) sid) eqn:E; simpl.
  - split; [reflexivity|]. split.
    + intros s. unfold removeSession. rewrite List.filter_In, negb_true_iff, jsstring_eqb_neq.
      reflexivity.
    + split; [auto|]. split; [|auto].
      intros Hne. exfalso. apply Hne. now apply Hcur.
  - split; [reflexivity|]. split.
    + intros s. unfold removeSession. rewrite List.filter_In, negb_true_iff, jsstring_eqb_neq.
      reflexivity.
    + split; [|auto].
      intros Hc. apply Hcur in Hc. discriminate.
Qed.

Lemma delete_removes_only_that_session_witness :
  let st' := handleDeleteSession (lit "s1") Sample.afterExchange in
  currentSessionId Sample.afterExchange = Some (lit "s1") /\
  sessions st' = [] /\ currentSessionId st' = None /\ chatInstanceRef st' = None.
Proof.
  pose proof (@delete_removes_only_that_session (lit "s1") Sample.afterExchange)
    as (H1 & _ & H3 & _).
  split; [reflexivity|]. split; [exact H1|]. exact (H3 eq_refl).
Defined.

(* ================================================================== *)
(** ** The guard of a send *)
(* ================================================================== *)

Lemma trimStart_nil_iff s : trimStart s = [] <-> forallb isWhiteSpace s = true.
Proof.
  induction s as [|c s IH]; simpl; [tauto|].
  destruct (isWhiteSpace c); simpl; [exact IH|].
  split; discriminate.
Qed.

Lemma trimStart_app_black l c :
  isWhiteSpace c = false -> trimStart (l ++ [c]) <> [].
Proof.
  intros Hc. induction l as [|x l IH]; simpl.
  - rewrite Hc. discriminate.
  - destruct (isWhiteSpace x); [exact IH | discriminate].
Qed.

Lemma trimStart_head s c r : trimStart s = c :: r -> isWhiteSpace c = false.
Proof.
  induction s as [|x s IH]; simpl; [discriminate|].
  destruct (isWhiteSpace x) eqn:E; [exact IH|].
  intros H. inversion H; subst. exact E.
Qed.

(** [input.trim()] is falsy exactly for an input of white space only. *)
Lemma trim_nil_iff s : trim s = [] <-> forallb isWhiteSpace s = true.
Proof.
  rewrite <- trimStart_nil_iff. unfold trim, trimEnd.
  destruct (trimStart s) as [|c r] eqn:E; [simpl; tauto|].
  split; [|discriminate].
  intros H. exfalso.
  apply (f_equal (@rev N)) in H. rewrite List.rev_involutive in H. simpl in H.
  apply trimStart_head in E.
  exact (@trimStart_app_black (rev r) c E H).
Qed.

Lemma sendBlocked_iff st :
  sendBlocked st = true <->
  forallb isWhiteSpace (input st) = true \/ isGenerating st = true.
Proof.
  unfold sendBlocked. rewrite orb_true_iff, negb_true_iff, <- trim_nil_iff.
  destruct (trim (input st)); simpl; intuition congruence.
Qed.


Lemma removeNth_length {A} n (l : list A) x :
  nth_error l n = Some x -> List.length (removeNth n l) = pred (List.length l).
Proof.
  revert n. induction l as [|y l IH]; intros [|n]; simpl; try discriminate; auto.
  intros H. rewrite (IH n H). destruct l; [destruct n; discriminate | reflexivity].
Qed.

Lemma nth_error_nonempty {A} n (l : list A) x :
  nth_error l n = Some x -> (0 < List.length l)%nat.
Proof. destruct l; [destruct n; discriminate | simpl; lia]. Qed.

Lemma getChatInstance_same st :
  sameButSessions st (setChatInstance (chatInstanceRef st) (snd (getChatInstance st))) /\
  sessions (snd (getChatInstance st)) = sessions st /\
  isGenerating (snd (getChatInstance st)) = isGenerating st.
Proof.
  unfold getChatInstance, sameButSessions.
  destruct (chatInstanceRef st) eqn:E; simpl; repeat split; auto.
Qed.

Lemma step_oneStream ev sys sys' :
  oneStream sys -> step ev sys = Some sys' -> oneStream sys'.
Proof.
  unfold oneStream. intros Hinv.
  destruct ev; unfold step; intros H.
  - inversion H; subst; simpl. exact Hinv.
  - inversion H; subst; simpl. exact Hinv.
  - inversion H; subst; simpl. unfold handleDeleteSession.
    destruct (optstring_eqb _ _); simpl; exact Hinv.
  - inversion H; subst; simpl. destruct localSettings; simpl; exact Hinv.
  - inversion H; subst; simpl. exact Hinv.
  - destruct (sendBlocked (app sys)) eqn:Hb; [inversion H; subst; exact Hinv|].
    unfold sendBlocked in Hb. apply orb_false_iff in Hb. destruct Hb as [_ Hg].
    rewrite Hg in Hinv.
    pose proof (sendPrologue_fields env (app sys)) as (_ & P2 & _).
    destruct (sendPrologue env (app sys)) as [l st1]. simpl snd in *.
    pose proof (getChatInstance_same st1) as (_ & _ & G).
    inversion H; subst; simpl. rewrite G, P2.
    rewrite List.length_app, Hinv. reflexivity.
  - destruct (nth_error (tasks sys) n) as [[l [|bid full]]|] eqn:E; inversion H; subst; simpl.
    rewrite updateAt_length. exact Hinv.
  - destruct (nth_error (tasks sys) n) as [[l [|bid full]]|] eqn:E; inversion H; subst; simpl.
    rewrite (removeNth_length _ _ E).
    apply nth_error_nonempty in E. destruct (isGenerating (app sys)); lia.
  - destruct (nth_error (tasks sys) n) as [[l [|bid full]]|] eqn:E; try discriminate.
    pose proof (onChunk_same l bid chunkText full (app sys)) as (_ & _ & Hg & _).
    destruct (onChunk l bid chunkText (full, app sys)) as [full' st'].
    inversion H; subst; simpl in *. rewrite updateAt_length, Hg. exact Hinv.
  - destruct (nth_error (tasks sys) n) as [[l [|bid full]]|] eqn:E; inversion H; subst; simpl.
    rewrite (removeNth_length _ _ E).
    apply nth_error_nonempty in E. destruct (isGenerating (app sys)); lia.
  - destruct (nth_error (tasks sys) n) as [[l [|bid full]]|] eqn:E; inversion H; subst; simpl.
    rewrite (removeNth_length _ _ E).
    apply nth_error_nonempty in E. destruct (isGenerating (app sys)); lia.
  - destruct (nth_error (titleCalls sys) n) as [[c [|]]|]; inversion H; subst; simpl.
    exact Hinv.
Qed.

Lemma run_oneStream evs sys sys' :
  oneStream sys -> run evs sys = Some sys' -> oneStream sys'.
Proof.
  revert sys. induction evs as [|ev evs IH]; intros sys Hinv H; simpl in H.
  - inversion H; subst. exact Hinv.
  - destruct (step ev sys) as [sys1|] eqn:E; [|discriminate].
    eapply IH; [|exact H]. eapply step_oneStream; eauto.
Qed.

(** C10. A send with an input of white space only (the empty input
    included), or while the generating flag is set, returns at once and
    changes nothing: store, active session, input and handle are as
    before.  From a mounted component, whatever the user and the remote
    service do, at most one call is ever suspended in the stream, across
    all sessions. *)
Theorem blocked_send_changes_nothing :
  (forall st,
     sendBlocked st = true <->
     forallb isWhiteSpace (input st) = true \/ isGenerating st = true) /\
  (forall env b e o st,
     sendBlocked st = true -> handleSendMessage env b e o st = (Normal None, st)) /\
  (forall env sys, sendBlocked (app sys) = true -> step (Send env) sys = Some sys) /\
  (forall evs st sys',
     isGenerating st = false ->
     run evs (mounted st) = Some sys' ->
     (List.length (tasks sys') <= 1)%nat /\
     (isGenerating (app sys') = false -> tasks sys' = [])).
Proof.
  split; [exact sendBlocked_iff|]. split; [|split].
  - intros env b e o st Hb. unfold handleSendMessage. now rewrite Hb.
  - intros env sys Hb. unfold step. now rewrite Hb.
  - intros evs st sys' Hg Hrun.
    assert (Hinv : oneStream (mounted st)) by (unfold oneStream; simpl; now rewrite Hg).
    pose proof (run_oneStream _ Hinv Hrun) as H. unfold oneStream in H.
    destruct (isGenerating (app sys')).
    + split; [lia | discriminate].
    + split; [lia|]. intros _. destruct (tasks sys'); [reflexivity | discriminate].
Qed.

(** C10 on a concrete run: while the reply to a first message streams, a
    second message is typed and sent; it is ignored and one call stays
    suspended. *)
Lemma blocked_send_changes_nothing_witness :
  exists sys,
    run [Send Sample.env; StreamOpened 0 Sample.bot; TypeInput (lit "more")]
      (mounted Sample.typed) = Some sys /\
    sendBlocked (app sys) = true /\
    handleSendMessage Sample.env2 Sample.bot2 Sample.err2 SubmitRejected (app sys)
    = (Normal None, app sys) /\
    step (Send Sample.env2) sys = Some sys /\
    (List.length (tasks sys) <= 1)%nat.
Proof.
  eexists. split; [vm_compute; reflexivity|]. split; [vm_compute; reflexivity|].
  pose proof blocked_send_changes_nothing as (_ & H2 & H3 & H4).
  split; [apply H2; vm_compute; reflexivity|].
  split; [apply H3; vm_compute; reflexivity|].
  refine (proj1 (H4 [Send Sample.env; StreamOpened 0 Sample.bot; TypeInput (lit "more")]
                   Sample.typed _ eq_refl _)).
  vm_compute. reflexivity.
Defined.

(* ================================================================== *)
(** ** A send with no active session *)
(* ================================================================== *)

(** C6, as stated, fails: the reply to a first message is streaming, the
    user deletes that session (no session is active any more), types a
    message and sends it; the send is ignored and no session is
    created. *)
Lemma send_while_generating_creates_nothing :
  exists sys,
    run [TypeInput (lit " hi "); Send Sample.env; StreamOpened 0 Sample.bot;
         DeleteSession (lit "s1"); TypeInput (lit "again")]
      (mounted initialState) = Some sys /\
    currentSessionId (app sys) = None /\
    truthy (trim (input (app sys))) = true /\
    sessions (app sys) = [] /\
    handleSendMessage Sample.env2 Sample.bot2 Sample.err2 (Streamed [] Exhausted) (app sys)
    = (Normal None, app sys) /\
    step (Send Sample.env2) sys = Some sys.
Proof.
  eexists. split; [vm_compute; reflexivity|].
  repeat (split; [vm_compute; reflexivity|]). vm_compute. reflexivity.
Qed.

(** C6, amended. A send with a non-blank input, no generation in flight
    and no active session creates the session [newSession] in front of
    the store and nothing else, makes it the active one, and from then on
    works on it: the final store has that one more identifier, and when
    the identifier is new to the store every earlier session is as it
    was. *)
Theorem send_without_session_creates_one env b e o st :
  currentSessionId st = None ->
  sendBlocked st = false ->
  let created :=
    ChatSession.mk (env_sessionUUID env) (lit "New Chat") []
      (env_createdAt env) (env_lastUpdated env) in
  let l := fst (sendPrologue env st) in
  let st' := snd (handleSendMessage env b e o st) in
  startSession env st
  = (env_sessionUUID env, created :: sessions st,
     setChatInstance None
       (setCurrentSessionId (Some (env_sessionUUID env))
          (setSessions (fun _ => created :: sessions st) st))) /\
  sessionId l = env_sessionUUID env /\
  sessionList l = created :: sessions st /\
  currentSessionId st' = Some (env_sessionUUID env) /\
  List.map ChatSession.id (sessions st')
  = env_sessionUUID env :: List.map ChatSession.id (sessions st) /\
  (~ In (env_sessionUUID env) (List.map ChatSession.id (sessions st)) ->
   exists s', sessions st' = s' :: sessions st /\
              ChatSession.id s' = env_sessionUUID env /\
              ChatSession.createdAt s' = env_createdAt env).
Proof.
  intros Hnone Hgo created l st'.
  assert (Hl : sessionId l = env_sessionUUID env /\ sessionList l = created :: sessions st).
  { subst l. unfold sendPrologue. rewrite Hnone. split; reflexivity. }
  destruct Hl as [Hid Hlist].
  pose proof (@handleSendMessage_carried env b e o st Hgo) as Hc.
  cbv zeta in Hc. fold l in Hc. fold st' in Hc. rewrite Hid, Hlist in Hc.
  pose proof (@handleSendMessage_fields env b e o st Hgo) as (_ & _ & _ & Hcur & _).
  cbv zeta in Hcur. fold l in Hcur. fold st' in Hcur.
  split; [reflexivity|]. split; [exact Hid|]. split; [exact Hlist|].
  split; [now rewrite Hcur, Hid|]. split.
  - rewrite (Forall2_carried_ids Hc). reflexivity.
  - intros Hnew. inversion Hc as [|s s' rest rest' Hhead Htail]; subst.
    exists s'. destruct Hhead as (Hsid & Hcreated & _).
    split; [|split; [exact Hsid | exact Hcreated]].
    f_equal. apply (Forall2_carried_others Htail).
    intros x Hx Heq. apply Hnew. rewrite <- Heq. now apply List.in_map.
Qed.

Lemma send_without_session_creates_one_witness :
  currentSessionId Sample.typed = None /\
  sendBlocked Sample.typed = false /\
  let st' := snd (handleSendMessage Sample.env Sample.bot Sample.err
                    (Streamed [Some (lit "Hello")] Exhausted) Sample.typed) in
  currentSessionId st' = Some (lit "s1") /\
  List.map ChatSession.id (sessions st') = [lit "s1"].
Proof.
  split; [reflexivity|]. split; [reflexivity|].
  pose proof (@send_without_session_creates_one Sample.env Sample.bot Sample.err
                (Streamed [Some (lit "Hello")] Exhausted) Sample.typed eq_refl eq_refl)
    as (_ & _ & _ & H4 & H5 & _).
  split; [exact H4 | exact H5].
Defined.

(* ================================================================== *)
(** ** The [lastUpdated] field *)
(* ================================================================== *)

(** C3, as stated, fails: the placeholder is appended at time 14 to a
    session last updated at 13, and [lastUpdated] stays 13; so it does
    after the overwrite and after the error message of time 15. *)
Lemma placeholder_append_keeps_lastUpdated :
  exists sys1 sys2 sys3,
    run [Send Sample.env] (mounted Sample.typed) = Some sys1 /\
    step (StreamOpened 0 Sample.bot) sys1 = Some sys2 /\
    run [Chunk 0 (Some (lit "Hel")); StreamFailed 0 Sample.err] sys2 = Some sys3 /\
    clocks (sessions (app sys1)) = [13%Z] /\
    List.map ChatSession.messages (sessions (app sys2))
    = [[Sample.userHi; Message.mk (lit "b1") RoleModel [] 14]] /\
    clocks (sessions (app sys2)) = [13%Z] /\
    List.map ChatSession.messages (sessions (app sys3))
    = [[Sample.userHi; Message.mk (lit "b1") RoleModel (lit "Hel") 14;
        Message.mk (lit "e1") RoleModel APOLOGY 15]] /\
    clocks (sessions (app sys3)) = [13%Z].
Proof.
  do 3 eexists. split; [vm_compute; reflexivity|].
  repeat (split; [vm_compute; reflexivity|]). vm_compute. reflexivity.
Qed.

Lemma appendUserMessage_clocks sid um now l :
  clocks (appendUserMessage sid um now l)
  = List.map (fun s => if jsstring_eqb (ChatSession.id s) sid then now
                       else ChatSession.lastUpdated s) l.
Proof.
  unfold clocks, appendUserMessage. rewrite List.map_map. apply List.map_ext.
  intros s. destruct (jsstring_eqb _ _); reflexivity.
Qed.

Lemma appendMessage_clocks sid m l : clocks (appendMessage sid m l) = clocks l.
Proof.
  unfold clocks, appendMessage. rewrite List.map_map. apply List.map_ext.
  intros s. destruct (jsstring_eqb _ _); reflexivity.
Qed.

Lemma updateBotContent_clocks sid bid full l :
  clocks (updateBotContent sid bid full l) = clocks l.
Proof.
  unfold clocks, updateBotContent. rewrite List.map_map. apply List.map_ext.
  intros s. destruct (jsstring_eqb _ _); reflexivity.
Qed.

Lemma renameSession_clocks sid ttl l : clocks (renameSession sid ttl l) = clocks l.
Proof.
  unfold clocks, renameSession. rewrite List.map_map. apply List.map_ext.
  intros s. destruct (jsstring_eqb _ _); reflexivity.
Qed.

Lemma onChunk_clocks l bid c acc st :
  clocks (sessions (snd (onChunk l bid c (acc, st)))) = clocks (sessions st).
Proof.
  destruct c as [[|x t]|]; simpl; auto using updateBotContent_clocks.
Qed.

(** A relation that holds across one turn of the loop holds across the
    loop. *)
Lemma forAwait_preserves (R : AppState -> AppState -> Prop) l bid :
  (forall st, R st st) ->
  (forall st1 st2 st3, R st1 st2 -> R st2 st3 -> R st1 st3) ->
  (forall c acc st, R st (snd (onChunk l bid c (acc, st)))) ->
  forall chunks acc st, R st (snd (forAwait l bid chunks (acc, st))).
Proof.
  intros Hrefl Htrans Hone. unfold forAwait.
  induction chunks as [|c chunks IH]; intros acc st; [apply Hrefl|].
  change (fold_left (fun a c0 => onChunk l bid c0 a) (c :: chunks) (acc, st))
    with (fold_left (fun a c0 => onChunk l bid c0 a) chunks (onChunk l bid c (acc, st))).
  pose proof (Hone c acc st) as H1.
  destruct (onChunk l bid c (acc, st)) as [acc' st'].
  eapply Htrans; [exact H1 | apply IH].
Qed.

Lemma forAwait_clocks l bid chunks acc st :
  clocks (sessions (snd (forAwait l bid chunks (acc, st)))) = clocks (sessions st).
Proof.
  apply (@forAwait_preserves
           (fun st st' => clocks (sessions st') = clocks (sessions st)) l bid);
    [reflexivity | intros; congruence | intros; apply onChunk_clocks].
Qed.

Lemma tryBlock_clocks l b o st :
  clocks (sessions (snd (tryBlock l b o st))) = clocks (sessions st).
Proof.
  unfold tryBlock, bind, modify, throw, ret.
  pose proof (getChatInstance_sessions st) as Hg.
  destruct (getChatInstance st) as [c st2]. simpl in Hg. rewrite <- Hg.
  destruct o as [|chunks fin]; [reflexivity|].
  assert (H : clocks (sessions (snd (forAwait l (env_uuid b) chunks
                                       ([], addPlaceholder l b st2))))
              = clocks (sessions st2)).
  { rewrite forAwait_clocks. apply appendMessage_clocks. }
  destruct fin; exact H.
Qed.

Lemma handleSendMessage_clocks env b e o st :
  sendBlocked st = false ->
  clocks (sessions (snd (handleSendMessage env b e o st)))
  = List.map (fun s =>
      if jsstring_eqb (ChatSession.id s) (sessionId (fst (sendPrologue env st)))
      then env_appendNow env else ChatSession.lastUpdated s)
      (sessionList (fst (sendPrologue env st))).
Proof.
  intros Hgo. unfold handleSendMessage. rewrite Hgo.
  pose proof (sendPrologue_sessions env st) as Hpro.
  destruct (sendPrologue env st) as [l st1]. simpl fst in *. simpl snd in *.
  rewrite <- appendUserMessage_withExchange in Hpro.
  rewrite <- (@appendUserMessage_clocks (sessionId l) (userMessage l)
                (env_appendNow env) (sessionList l)), <- Hpro.
  pose proof (tryBlock_clocks l b o st1) as Ht.
  unfold tryCatchFinally. destruct (tryBlock l b o st1) as [[c|] st2]; simpl in *.
  - exact Ht.
  - rewrite appendMessage_clocks. exact Ht.
Qed.

Lemma step_continuation_clocks ev sys sys' :
  isContinuation ev = true ->
  step ev sys = Some sys' ->
  clocks (sessions (app sys')) = clocks (sessions (app sys)).
Proof.
  destruct ev; try discriminate; intros _; unfold step; intros H.
  - destruct (nth_error (tasks sys) n) as [[l [|bid full]]|]; inversion H; subst; simpl.
    apply appendMessage_clocks.
  - destruct (nth_error (tasks sys) n) as [[l [|bid full]]|]; inversion H; subst; simpl.
    apply appendMessage_clocks.
  - destruct (nth_error (tasks sys) n) as [[l [|bid full]]|]; try discriminate.
    pose proof (onChunk_clocks l bid chunkText full (app sys)) as Hc.
    destruct (onChunk l bid chunkText (full, app sys)) as [full' st'].
    inversion H; subst; simpl in *. exact Hc.
  - destruct (nth_error (tasks sys) n) as [[l [|bid full]]|]; inversion H; subst; simpl.
    reflexivity.
  - destruct (nth_error (tasks sys) n) as [[l [|bid full]]|]; inversion H; subst; simpl.
    apply appendMessage_clocks.
  - destruct (nth_error (titleCalls sys) n) as [[c [|]]|]; inversion H; subst; simpl.
    apply renameSession_clocks.
Qed.

(** C3, amended. Appending the user message is the one mutation that
    refreshes [lastUpdated], with the clock value read then; appending
    the placeholder, overwriting its content, appending the error
    message and renaming all leave [lastUpdated] of every session as it
    was.  Hence over a whole send [lastUpdated] of a target session
    becomes that clock value and no other changes, and it does not
    decrease as long as the clock value is not below the value stored
    in the target. *)
Theorem only_user_append_refreshes_lastUpdated :
  (forall sid um now l,
     clocks (appendUserMessage sid um now l)
     = List.map (fun s => if jsstring_eqb (ChatSession.id s) sid then now
                          else ChatSession.lastUpdated s) l) /\
  (forall sid m l, clocks (appendMessage sid m l) = clocks l) /\
  (forall sid bid full l, clocks (updateBotContent sid bid full l) = clocks l) /\
  (forall sid ttl l, clocks (renameSession sid ttl l) = clocks l) /\
  (forall ev sys sys',
     isContinuation ev = true -> step ev sys = Some sys' ->
     clocks (sessions (app sys')) = clocks (sessions (app sys))) /\
  (forall env b e o st,
     sendBlocked st = false ->
     let l := fst (sendPrologue env st) in
     clocks (sessions (snd (handleSendMessage env b e o st)))
     = List.map (fun s => if jsstring_eqb (ChatSession.id s) (sessionId l)
                          then env_appendNow env else ChatSession.lastUpdated s)
         (sessionList l)) /\
  (forall env b e o st,
     sendBlocked st = false ->
     let l := fst (sendPrologue env st) in
     (forall s, In s (sessionList l) -> ChatSession.id s = sessionId l ->
        (ChatSession.lastUpdated s <= env_appendNow env)%Z) ->
     Forall2 Z.le (clocks (sessionList l))
       (clocks (sessions (snd (handleSendMessage env b e o st))))).
Proof.
  split; [exact appendUserMessage_clocks|].
  split; [exact appendMessage_clocks|].
  split; [exact updateBotContent_clocks|].
  split; [exact renameSession_clocks|].
  split; [exact step_continuation_clocks|].
  split; [exact handleSendMessage_clocks|].
  intros env b e o st Hgo l Hle.
  rewrite (@handleSendMessage_clocks env b e o st Hgo). fold l.
  unfold clocks. induction (sessionList l) as [|s rest IH]; simpl; constructor.
  - destruct (jsstring_eqb _ _) eqn:E; [|lia].
    apply Hle; [now left | now apply jsstring_eqb_eq].
  - apply IH. intros x Hx. apply Hle. now right.
Qed.

Lemma only_user_append_refreshes_lastUpdated_witness :
  let st' := snd (handleSendMessage Sample.env2 Sample.bot2 Sample.err2
                    (Streamed [Some (lit "ok")] Exhausted) Sample.afterExchange) in
  clocks (sessions Sample.afterExchange) = [13%Z] /\
  clocks (sessions st') = [23%Z] /\
  Forall2 Z.le [13%Z] (clocks (sessions st')).
Proof.
  pose proof only_user_append_refreshes_lastUpdated as (_ & _ & _ & _ & _ & H6 & H7).
  split; [reflexivity|]. split.
  - exact (H6 Sample.env2 Sample.bot2 Sample.err2 (Streamed [Some (lit "ok")] Exhausted)
             Sample.afterExchange eq_refl).
  - refine (H7 Sample.env2 Sample.bot2 Sample.err2 (Streamed [Some (lit "ok")] Exhausted)
              Sample.afterExchange eq_refl _).
    intros s Hin _. cbn in Hin. destruct Hin as [<-|[]]. simpl. lia.
Defined.

(* ================================================================== *)
(** ** The automatic rename *)
(* ================================================================== *)

Lemma settledStore_carried x sid l l' :
  Forall2 (carried x) l l' -> settledStore sid l -> settledStore sid l'.
Proof.
  unfold settledStore. induction 1 as [|s s' l l' Hc _ IH]; intros Hs y Hy Hid.
  - destruct Hy.
  - destruct Hy as [<-|Hy].
    + destruct Hc as (Hi & _ & _ & Hl).
      assert (Hne : ChatSession.messages s <> [])
        by (apply Hs; [now left | congruence]).
      destruct (ChatSession.messages s'); [|discriminate].
      destruct (ChatSession.messages s); [congruence | simpl in Hl; lia].
    + apply IH; auto. intros z Hz. apply Hs. now right.
Qed.

Lemma settledStore_cons sid s l :
  ChatSession.id s <> sid -> settledStore sid l -> settledStore sid (s :: l).
Proof.
  intros Hne Hs y [<-|Hy] Hid; [contradiction | now apply Hs].
Qed.

Lemma settledStore_removeSession x sid l :
  settledStore sid l -> settledStore sid (removeSession x l).
Proof.
  intros Hs y Hy. apply List.filter_In in Hy. apply Hs. tauto.
Qed.

Lemma In_updateAt {A} n (f : A -> A) (l : list A) y :
  In y (updateAt n f l) -> In y l \/ exists x, nth_error l n = Some x /\ y = f x.
Proof.
  revert n. induction l as [|x l IH]; intros [|n]; simpl; auto.
  - intros [<-|H]; [right; eauto | auto].
  - intros [<-|H]; [auto|]. destruct (IH n H) as [H'|H']; auto.
Qed.

Lemma In_removeNth {A} n (l : list A) y : In y (removeNth n l) -> In y l.
Proof.
  revert n. induction l as [|x l IH]; intros [|n]; simpl; auto.
  intros [<-|H]; [auto | right; eauto].
Qed.

Lemma titleCount_app sid a b :
  titleCount sid (a ++ b) = (titleCount sid a + titleCount sid b)%nat.
Proof. unfold titleCount. now rewrite List.filter_app, List.length_app. Qed.

Lemma titleCount_resolve sid n calls c :
  nth_error calls n = Some (c, false) ->
  titleCount sid (updateAt n (fun _ => (c, true)) calls) = titleCount sid calls.
Proof.
  unfold titleCount. revert n.
  induction calls as [|p calls IH]; intros [|n]; simpl; try discriminate.
  - intros H. inversion H; subst. simpl.
    destruct (jsstring_eqb (call_sessionId c) sid); reflexivity.
  - intros H. destruct (jsstring_eqb (call_sessionId (fst p)) sid); simpl;
      now rewrite (IH n H).
Qed.

Lemma titleCheck_call l c : titleCheck l = Some c -> call_sessionId c = sessionId l.
Proof.
  unfold titleCheck. destruct (findSession _ _) as [s|]; [|discriminate].
  destruct (Nat.eqb _ 0); [|discriminate]. intros H. inversion H. reflexivity.
Qed.

Lemma titleCheck_empty l :
  titleCheck l <> None <->
  exists s, findSession (sessionId l) (sessionList l) = Some s /\ ChatSession.messages s = [].
Proof.
  unfold titleCheck. destruct (findSession _ _) as [s|].
  - destruct (ChatSession.messages s) as [|m ms] eqn:E; simpl.
    + split; [eauto | discriminate].
    + split; [congruence|]. intros [s' [H1 H2]]. inversion H1; subst. congruence.
  - split; [congruence|]. intros [s' [H1 _]]. discriminate.
Qed.

Lemma findSession_In sid l s :
  findSession sid l = Some s -> In s l /\ ChatSession.id s = sid.
Proof.
  unfold findSession. intros H. apply List.find_some in H.
  now rewrite jsstring_eqb_eq in H.
Qed.

(** The two ways the prologue settles on a target. *)
Lemma sendPrologue_cases env st :
  let l := fst (sendPrologue env st) in
  sessionId l = env_sessionUUID env /\
  sessionList l
  = newSession (env_sessionUUID env) (env_createdAt env) (env_lastUpdated env) :: sessions st
  \/ sessionList l = sessions st.
Proof.
  unfold sendPrologue.
  destruct (currentSessionId st) as [sid0|]; [destruct (noSession (Some sid0))|];
    simpl; auto.
Qed.

Ltac task_case sys n H E l bid full :=
  destruct (nth_error (tasks sys) n) as [[l [|bid full]]|] eqn:E;
  try discriminate H.

Lemma appendUserMessage_settled sid um now l :
  settledStore sid (appendUserMessage sid um now l).
Proof.
  intros s' Hin Hid. apply List.in_map_iff in Hin. destruct Hin as [s [Hs _]].
  destruct (jsstring_eqb (ChatSession.id s) sid) eqn:E.
  - subst s'. simpl. destruct (ChatSession.messages s); discriminate.
  - subst s'. apply jsstring_eqb_neq in E. contradiction.
Qed.

(** The second and third part of [titleInv] pass to a state whose store
    stays settled, whose calls for [sid] are as many, and whose suspended
    calls were suspended before. *)
Lemma titleInv_frame sid sys sys' :
  titleCount sid (titleCalls sys') = titleCount sid (titleCalls sys) ->
  (settledStore sid (sessions (app sys)) -> settledStore sid (sessions (app sys'))) ->
  (forall t', In t' (tasks sys') ->
     exists t, In t (tasks sys) /\ task_locals t' = task_locals t) ->
  titleInv sid sys -> oneStream sys' -> titleInv sid sys'.
Proof.
  intros Hcount Hstore Htasks (_ & Hc & Ht) Hone. split; [exact Hone|]. split.
  - rewrite Hcount. destruct Hc as [Hc|[Hc Hs]]; auto.
  - intros t' Hin Hid Hfire. destruct (Htasks t' Hin) as [t [Hin0 Hl]].
    rewrite Hl in *. destruct (Ht t Hin0 Hid Hfire) as [Hs Hz].
    split; [auto|]. now rewrite Hcount.
Qed.

Lemma tasks_updateAt_locals n (l : Locals) (ph : Phase) (ts : list Task) old :
  nth_error ts n = Some old -> task_locals old = l ->
  forall t', In t' (updateAt n (fun _ => {| task_locals := l; task_phase := ph |}) ts) ->
  exists t, In t ts /\ task_locals t' = task_locals t.
Proof.
  intros Hn Hl t' Hin. apply In_updateAt in Hin. destruct Hin as [Hin|[x [Hx ->]]].
  - eauto.
  - exists old. split; [eapply List.nth_error_In; eauto | simpl; congruence].
Qed.

Lemma tasks_removeNth_locals n (ts : list Task) :
  forall t', In t' (removeNth n ts) ->
  exists t, In t ts /\ task_locals t' = task_locals t.
Proof. intros t' Hin. apply In_removeNth in Hin. eauto. Qed.

Lemma tasks_same_locals (ts : list Task) :
  forall t', In t' ts -> exists t, In t ts /\ task_locals t' = task_locals t.
Proof. eauto. Qed.

Lemma step_titleInv sid ev sys sys' :
  draws sid ev = false ->
  titleInv sid sys -> step ev sys = Some sys' -> titleInv sid sys'.
Proof.
  intros Hd Hinv H.
  assert (Hone' : oneStream sys') by (destruct Hinv as [Hone _]; eapply step_oneStream; eauto).
  revert H. destruct ev; unfold step; intros H.
  - (* NewChat *)
    inversion H; subst; clear H.
    apply (titleInv_frame (sys := sys)); auto using tasks_same_locals.
    simpl. intros Hs. apply settledStore_cons; [|exact Hs].
    simpl in Hd. now apply jsstring_eqb_neq.
  - (* SelectSession *)
    inversion H; subst; clear H.
    apply (titleInv_frame (sys := sys)); auto using tasks_same_locals.
  - (* DeleteSession *)
    inversion H; subst; clear H.
    apply (titleInv_frame (sys := sys)); auto using tasks_same_locals.
    simpl. unfold handleDeleteSession.
    destruct (optstring_eqb _ _); simpl; apply settledStore_removeSession.
  - (* SaveSettings *)
    inversion H; subst; clear H.
    apply (titleInv_frame (sys := sys)); auto using tasks_same_locals.
    simpl. destruct localSettings; auto.
  - (* TypeInput *)
    inversion H; subst; clear H.
    apply (titleInv_frame (sys := sys)); auto using tasks_same_locals.
  - (* Send *)
    destruct (sendBlocked (app sys)) eqn:Hb; [inversion H; subst; exact Hinv|].
    destruct Hinv as (Hone & Hc & _).
    assert (Hnil : tasks sys = []).
    { unfold sendBlocked in Hb. apply orb_false_iff in Hb. destruct Hb as [_ Hg].
      unfold oneStream in Hone. rewrite Hg in Hone.
      destruct (tasks sys); [reflexivity | discriminate]. }
    pose proof (sendPrologue_sessions env (app sys)) as Hpro.
    pose proof (sendPrologue_cases env (app sys)) as Hcases.
    destruct (sendPrologue env (app sys)) as [l st1]. simpl fst in *. simpl snd in *.
    pose proof (getChatInstance_sessions st1) as Hg.
    inversion H; subst sys'; clear H. simpl in Hone'.
    rewrite <- appendUserMessage_withExchange in Hpro.
    assert (Hlist : settledStore sid (sessions (app sys)) -> settledStore sid (sessionList l)).
    { intros Hs. destruct Hcases as [[_ ->]| ->]; [|exact Hs].
      apply settledStore_cons; [|exact Hs]. simpl in *. now apply jsstring_eqb_neq. }
    assert (Hkeep : settledStore sid (sessions (app sys)) ->
                    settledStore sid (sessions (snd (getChatInstance st1)))).
    { intros Hs. rewrite Hg, Hpro.
      eapply settledStore_carried; [apply appendUserMessage_carried | auto]. }
    split; [exact Hone'|]. simpl. split.
    + destruct Hc as [Hc|[Hc Hs]]; auto.
    + rewrite Hnil. simpl. intros t [<-|[]] Hid Hfire. simpl in *. split.
      * rewrite Hg, Hpro, <- Hid. apply appendUserMessage_settled.
      * apply titleCheck_empty in Hfire.
        destruct Hfire as [s [Hfind Hempty]].
        apply findSession_In in Hfind. destruct Hfind as [Hin Hsid].
        destruct Hc as [Hc|[_ Hs]]; [exact Hc|]. exfalso.
        apply (Hlist Hs s Hin); congruence.
  - (* StreamOpened *)
    task_case sys n H E l0 bid full.
    inversion H; subst sys'; clear H.
    apply (titleInv_frame (sys := sys)); auto.
    + simpl. apply settledStore_carried with (x := sessionId l0).
      apply appendMessage_carried.
    + simpl. eapply tasks_updateAt_locals; eauto.
  - (* SubmitFailed *)
    task_case sys n H E l0 bid full.
    inversion H; subst sys'; clear H.
    apply (titleInv_frame (sys := sys)); auto.
    + simpl. apply settledStore_carried with (x := sessionId l0).
      apply appendMessage_carried.
    + simpl. apply tasks_removeNth_locals.
  - (* Chunk *)
    task_case sys n H E l0 bid full.
    pose proof (onChunk_carried l0 bid chunkText full (app sys)) as Hcar.
    destruct (onChunk l0 bid chunkText (full, app sys)) as [full' st'].
    inversion H; subst sys'; clear H.
    apply (titleInv_frame (sys := sys)); auto.
    + simpl. apply settledStore_carried with (x := sessionId l0). exact Hcar.
    + simpl. eapply tasks_updateAt_locals; eauto.
  - (* StreamDone *)
    task_case sys n H E l0 bid full.
    inversion H; subst sys'; clear H.
    destruct Hinv as (Hone & Hc & Ht).
    assert (Hnil : removeNth n (tasks sys) = []).
    { unfold oneStream in Hone'. simpl in Hone'.
      destruct (removeNth n (tasks sys)); [reflexivity | discriminate]. }
    split; [exact Hone'|]. simpl. rewrite Hnil. split; [|intros t []].
    rewrite titleCount_app.
    destruct (titleCheck l0) as [c|] eqn:Hfire; simpl.
    + unfold titleCount at 2 4. simpl.
      rewrite (titleCheck_call _ Hfire).
      destruct (jsstring_eqb (sessionId l0) sid) eqn:Hsid; simpl.
      * apply jsstring_eqb_eq in Hsid.
        assert (Hf : titleCheck l0 <> None) by congruence.
        destruct (Ht _ (List.nth_error_In _ _ E) Hsid Hf) as [Hs Hz].
        rewrite Hz. auto.
      * rewrite !Nat.add_0_r. exact Hc.
    + unfold titleCount at 2 4. simpl. rewrite !Nat.add_0_r. exact Hc.
  - (* StreamFailed *)
    task_case sys n H E l0 bid full.
    inversion H; subst sys'; clear H.
    apply (titleInv_frame (sys := sys)); auto.
    + simpl. apply settledStore_carried with (x := sessionId l0).
      apply appendMessage_carried.
    + simpl. apply tasks_removeNth_locals.
  - (* TitleResolved *)
    destruct (nth_error (titleCalls sys) n) as [[c [|]]|] eqn:E; try discriminate.
    inversion H; subst sys'; clear H.
    apply (titleInv_frame (sys := sys)); auto using tasks_same_locals.
    + simpl. now apply titleCount_resolve.
    + simpl. apply settledStore_carried with (x := call_sessionId c).
      apply renameSession_carried.
Qed.

Lemma run_titleInv sid evs sys sys' :
  (forall ev, In ev evs -> draws sid ev = false) ->
  titleInv sid sys -> run evs sys = Some sys' -> titleInv sid sys'.
Proof.
  revert sys. induction evs as [|ev evs IH]; intros sys Hd Hinv H; simpl in H.
  - inversion H; subst. exact Hinv.
  - destruct (step ev sys) as [sys1|] eqn:E; [|discriminate].
    apply (IH sys1); [intros x Hx; apply Hd; now right | | exact H].
    eapply step_titleInv; eauto. apply Hd. now left.
Qed.

Lemma handleSendMessage_value env b e o st :
  sendBlocked st = false ->
  fst (handleSendMessage env b e o st)
  = Normal (match o with
            | Streamed _ Exhausted => titleCheck (fst (sendPrologue env st))
            | _ => None
            end).
Proof.
  intros Hgo. unfold handleSendMessage. rewrite Hgo.
  destruct (sendPrologue env st) as [l st1]. simpl fst.
  unfold tryCatchFinally, tryBlock, bind, modify, throw, ret.
  destruct (getChatInstance st1) as [c st2].
  destruct o as [|chunks [|]]; reflexivity.
Qed.

Lemma renameSession_absent sid ttl l :
  (forall s, In s l -> ChatSession.id s <> sid) -> renameSession sid ttl l = l.
Proof.
  intros Habs. unfold renameSession.
  rewrite <- (List.map_id l) at 2. apply map_ext_In'. intros s Hs.
  apply Habs in Hs. apply jsstring_eqb_neq in Hs. now rewrite Hs.
Qed.

Lemma beforeDraw_titleInv sid sys : beforeDraw sid sys -> titleInv sid sys.
Proof.
  intros (Hone & _ & Hc & Ht). split; [exact Hone|]. split; [now left|].
  intros t Hin Hid Hfire. exfalso. apply Hfire. now apply Ht.
Qed.

Lemma findSession_absent sid l :
  (forall s, In s l -> ChatSession.id s <> sid) -> findSession sid l = None.
Proof.
  intros Habs. destruct (findSession sid l) as [s|] eqn:E; [|reflexivity].
  apply findSession_In in E. destruct E as [Hin Hid]. exfalso. exact (Habs s Hin Hid).
Qed.

Lemma titleCheck_absent l :
  (forall s, In s (sessionList l) -> ChatSession.id s <> sessionId l) ->
  titleCheck l = None.
Proof. intros Habs. unfold titleCheck. now rewrite findSession_absent. Qed.

Lemma absent_carried x sid l l' :
  Forall2 (carried x) l l' ->
  (forall s, In s l -> ChatSession.id s <> sid) ->
  (forall s, In s l' -> ChatSession.id s <> sid).
Proof.
  intros Hc Habs s' Hin Hid.
  assert (Hids : In sid (List.map ChatSession.id l')).
  { rewrite <- Hid. now apply List.in_map. }
  rewrite (Forall2_carried_ids Hc) in Hids.
  apply List.in_map_iff in Hids. destruct Hids as [s [Hs Hin0]].
  exact (Habs s Hin0 Hs).
Qed.

(** Before [sid] names a session, an event that does not draw it keeps
    things so. *)
Lemma beforeDraw_frame sid sys sys' :
  titleCount sid (titleCalls sys') = titleCount sid (titleCalls sys) ->
  ((forall s, In s (sessions (app sys)) -> ChatSession.id s <> sid) ->
   (forall s, In s (sessions (app sys')) -> ChatSession.id s <> sid)) ->
  (forall t', In t' (tasks sys') ->
     exists t, In t (tasks sys) /\ task_locals t' = task_locals t) ->
  beforeDraw sid sys -> oneStream sys' -> beforeDraw sid sys'.
Proof.
  intros Hcount Hstore Htasks (_ & Habs & Hc & Ht) Hone.
  split; [exact Hone|]. split; [auto|]. split; [congruence|].
  intros t' Hin Hid. destruct (Htasks t' Hin) as [t [Hin0 Hl]].
  rewrite Hl in *. now apply Ht.
Qed.

Lemma absent_cons sid (s : ChatSession) l :
  ChatSession.id s <> sid ->
  (forall x, In x l -> ChatSession.id x <> sid) ->
  (forall x, In x (s :: l) -> ChatSession.id x <> sid).
Proof. intros Hs Hl x [<-|Hx]; auto. Qed.

Lemma absent_removeSession x sid l :
  (forall s, In s l -> ChatSession.id s <> sid) ->
  (forall s, In s (removeSession x l) -> ChatSession.id s <> sid).
Proof. intros Habs s Hin. apply List.filter_In in Hin. apply Habs. tauto. Qed.

Lemma step_beforeDraw sid ev sys sys' :
  draws sid ev = false ->
  beforeDraw sid sys -> step ev sys = Some sys' -> beforeDraw sid sys'.
Proof.
  intros Hd Hinv H.
  assert (Hone' : oneStream sys') by (destruct Hinv as [Hone _]; eapply step_oneStream; eauto).
  revert H. destruct ev; unfold step; intros H.
  - inversion H; subst; clear H.
    apply (beforeDraw_frame (sys := sys)); auto using tasks_same_locals.
    simpl. intros Habs. apply absent_cons; [|exact Habs].
    simpl in Hd. now apply jsstring_eqb_neq.
  - inversion H; subst; clear H.
    apply (beforeDraw_frame (sys := sys)); auto using tasks_same_locals.
  - inversion H; subst; clear H.
    apply (beforeDraw_frame (sys := sys)); auto using tasks_same_locals.
    simpl. unfold handleDeleteSession.
    destruct (optstring_eqb _ _); simpl; apply absent_removeSession.
  - inversion H; subst; clear H.
    apply (beforeDraw_frame (sys := sys)); auto using tasks_same_locals.
    simpl. destruct localSettings; auto.
  - inversion H; subst; clear H.
    apply (beforeDraw_frame (sys := sys)); auto using tasks_same_locals.
  - destruct (sendBlocked (app sys)) eqn:Hb; [inversion H; subst; exact Hinv|].
    destruct Hinv as (Hone & Habs & Hc & _).
    assert (Hnil : tasks sys = []).
    { unfold sendBlocked in Hb. apply orb_false_iff in Hb. destruct Hb as [_ Hg].
      unfold oneStream in Hone. rewrite Hg in Hone.
      destruct (tasks sys); [reflexivity | discriminate]. }
    pose proof (sendPrologue_sessions env (app sys)) as Hpro.
    pose proof (sendPrologue_cases env (app sys)) as Hcases.
    destruct (sendPrologue env (app sys)) as [l st1]. simpl fst in *. simpl snd in *.
    pose proof (getChatInstance_sessions st1) as Hg.
    inversion H; subst sys'; clear H.
    rewrite <- appendUserMessage_withExchange in Hpro.
    assert (Hlist : forall s, In s (sessionList l) -> ChatSession.id s <> sid).
    { destruct Hcases as [[_ ->]| ->]; [|exact Habs].
      apply absent_cons; [|exact Habs]. simpl in *. now apply jsstring_eqb_neq. }
    split; [exact Hone'|]. simpl. split; [|split; [exact Hc|]].
    + rewrite Hg, Hpro.
      eapply absent_carried; [apply appendUserMessage_carried | exact Hlist].
    + rewrite Hnil. simpl. intros t [<-|[]] Hid. simpl in *.
      apply titleCheck_absent. now rewrite Hid.
  - task_case sys n H E l0 bid full.
    inversion H; subst sys'; clear H.
    apply (beforeDraw_frame (sys := sys)); auto.
    + simpl. apply absent_carried with (x := sessionId l0). apply appendMessage_carried.
    + simpl. eapply tasks_updateAt_locals; eauto.
  - task_case sys n H E l0 bid full.
    inversion H; subst sys'; clear H.
    apply (beforeDraw_frame (sys := sys)); auto.
    + simpl. apply absent_carried with (x := sessionId l0). apply appendMessage_carried.
    + simpl. apply tasks_removeNth_locals.
  - task_case sys n H E l0 bid full.
    pose proof (onChunk_carried l0 bid chunkText full (app sys)) as Hcar.
    destruct (onChunk l0 bid chunkText (full, app sys)) as [full' st'].
    inversion H; subst sys'; clear H.
    apply (beforeDraw_frame (sys := sys)); auto.
    + simpl. apply absent_carried with (x := sessionId l0). exact Hcar.
    + simpl. eapply tasks_updateAt_locals; eauto.
  - task_case sys n H E l0 bid full.
    inversion H; subst sys'; clear H.
    apply (beforeDraw_frame (sys := sys)); auto.
    + simpl. rewrite titleCount_app.
      destruct Hinv as (_ & _ & _ & Ht).
      destruct (titleCheck l0) as [c|] eqn:Hfire; simpl.
      * unfold titleCount at 2. simpl. rewrite (titleCheck_call _ Hfire).
        destruct (jsstring_eqb (sessionId l0) sid) eqn:Hsid; simpl; [|lia].
        apply jsstring_eqb_eq in Hsid.
        pose proof (Ht _ (List.nth_error_In _ _ E) Hsid) as Hnone.
        simpl in Hnone. congruence.
      * unfold titleCount at 2. simpl. lia.
    + simpl. apply tasks_removeNth_locals.
  - task_case sys n H E l0 bid full.
    inversion H; subst sys'; clear H.
    apply (beforeDraw_frame (sys := sys)); auto.
    + simpl. apply absent_carried with (x := sessionId l0). apply appendMessage_carried.
    + simpl. apply tasks_removeNth_locals.
  - destruct (nth_error (titleCalls sys) n) as [[c [|]]|] eqn:E; try discriminate.
    inversion H; subst sys'; clear H.
    apply (beforeDraw_frame (sys := sys)); auto using tasks_same_locals.
    + simpl. now apply titleCount_resolve.
    + simpl. apply absent_carried with (x := call_sessionId c).
      apply renameSession_carried.
Qed.

(** The event that draws [sid]: the session appears, empty or with the
    user message of the send that created it. *)
Lemma step_draw sid ev sys sys' :
  draws sid ev = true ->
  beforeDraw sid sys -> step ev sys = Some sys' -> titleInv sid sys'.
Proof.
  intros Hd Hinv H.
  assert (Hone' : oneStream sys') by (destruct Hinv as [Hone _]; eapply step_oneStream; eauto).
  revert H. destruct ev; try discriminate Hd; unfold step; intros H.
  - inversion H; subst; clear H.
    destruct Hinv as (_ & _ & Hc & Ht).
    split; [exact Hone'|]. simpl. split; [now left|].
    intros t Hin Hid Hfire. exfalso. apply Hfire. now apply Ht.
  - destruct (sendBlocked (app sys)) eqn:Hb;
      [inversion H; subst; now apply beforeDraw_titleInv|].
    destruct Hinv as (Hone & Habs & Hc & _).
    assert (Hnil : tasks sys = []).
    { unfold sendBlocked in Hb. apply orb_false_iff in Hb. destruct Hb as [_ Hg].
      unfold oneStream in Hone. rewrite Hg in Hone.
      destruct (tasks sys); [reflexivity | discriminate]. }
    pose proof (sendPrologue_sessions env (app sys)) as Hpro.
    destruct (sendPrologue env (app sys)) as [l st1]. simpl fst in *. simpl snd in *.
    pose proof (getChatInstance_sessions st1) as Hg.
    inversion H; subst sys'; clear H.
    rewrite <- appendUserMessage_withExchange in Hpro.
    split; [exact Hone'|]. simpl. split; [now left|].
    rewrite Hnil. simpl. intros t [<-|[]] Hid Hfire. simpl in *.
    split; [|exact Hc].
    rewrite Hg, Hpro, <- Hid. apply appendUserMessage_settled.
Qed.

Lemma drawCount_cons sid ev evs :
  drawCount sid (ev :: evs)
  = ((if draws sid ev then 1 else 0) + drawCount sid evs)%nat.
Proof. unfold drawCount. simpl. destruct (draws sid ev); reflexivity. Qed.

Lemma drawCount_zero sid evs :
  drawCount sid evs = 0%nat -> forall ev, In ev evs -> draws sid ev = false.
Proof.
  induction evs as [|x evs IH]; intros H ev Hin; [destruct Hin|].
  rewrite drawCount_cons in H. destruct (draws sid x) eqn:E; [discriminate|].
  destruct Hin as [<-|Hin]; [exact E | now apply IH].
Qed.

Lemma run_beforeDraw sid evs sys sys' :
  (drawCount sid evs <= 1)%nat ->
  beforeDraw sid sys -> run evs sys = Some sys' -> titleInv sid sys'.
Proof.
  revert sys. induction evs as [|ev evs IH]; intros sys Hn Hinv H; simpl in H.
  - inversion H; subst. now apply beforeDraw_titleInv.
  - destruct (step ev sys) as [sys1|] eqn:E; [|discriminate].
    rewrite drawCount_cons in Hn. destruct (draws sid ev) eqn:Hd.
    + apply (@run_titleInv sid evs sys1 sys'); [|eapply step_draw; eauto | exact H].
      apply drawCount_zero. lia.
    + apply (IH sys1); [lia | eapply step_beforeDraw; eauto | exact H].
Qed.

Lemma hasSession_false sid l :
  hasSession sid l = false -> forall s, In s l -> ChatSession.id s <> sid.
Proof.
  unfold hasSession. intros H s Hin Hid.
  assert (Ht : List.existsb (fun s => jsstring_eqb (ChatSession.id s) sid) l = true).
  { apply List.existsb_exists. exists s. split; [exact Hin | now apply jsstring_eqb_eq]. }
  congruence.
Qed.

(** C7. A send that goes through calls the title generator exactly when
    its stream is consumed to exhaustion and the target session, as the
    store stood before the user message was appended, had no message.
    From a mounted component, along any run in which [sid] names one
    session only (one held at mount, or one created later with that
    identifier drawn once), the generator is called for [sid] at most
    once.  The rename a resolved call applies does nothing to a store
    that holds no session with that identifier. *)
Theorem title_generated_at_most_once :
  (forall env b e o st,
     sendBlocked st = false ->
     let l := fst (sendPrologue env st) in
     (fired (fst (handleSendMessage env b e o st)) <> None <->
      (exists chunks, o = Streamed chunks Exhausted) /\
      exists s, findSession (sessionId l) (sessionList l) = Some s /\
                ChatSession.messages s = [])) /\
  (forall sid evs st sys',
     isGenerating st = false ->
     ((if hasSession sid (sessions st) then 1 else 0) + drawCount sid evs <= 1)%nat ->
     run evs (mounted st) = Some sys' ->
     (titleCount sid (titleCalls sys') <= 1)%nat) /\
  (forall c r st,
     (forall s, In s (sessions st) -> ChatSession.id s <> call_sessionId c) ->
     onTitleResolved c r st = st).
Proof.
  split; [|split].
  - intros env b e o st Hgo l.
    rewrite (@handleSendMessage_value env b e o st Hgo). fold l. simpl fired.
    rewrite <- titleCheck_empty.
    destruct o as [|chunks [|]].
    + split; [congruence|]. intros [[chunks Hc] _]. discriminate.
    + split; [eauto | tauto].
    + split; [congruence|]. intros [[chunks' Hc] _]. discriminate.
  - intros sid evs st sys' Hg Hn Hrun.
    assert (Hone : oneStream (mounted st)) by (unfold oneStream; simpl; now rewrite Hg).
    assert (Hinv : titleInv sid sys').
    { destruct (hasSession sid (sessions st)) eqn:Hhas.
      - apply (@run_titleInv sid evs (mounted st) sys'); [| |exact Hrun].
        + apply drawCount_zero. lia.
        + split; [exact Hone|]. split; [left; reflexivity | intros t []].
      - apply (@run_beforeDraw sid evs (mounted st) sys'); [lia| |exact Hrun].
        split; [exact Hone|]. split; [now apply hasSession_false|].
        split; [reflexivity | intros t []]. }
    destruct Hinv as (_ & [Hc|[Hc _]] & _); lia.
  - intros c r st Habs. unfold onTitleResolved.
    apply setSessions_const_idem'.
    now apply renameSession_absent.
Qed.

(** C7 on a concrete run: a first exchange in a new session fires one
    title call, which resolves and renames the session; a second
    exchange fires none; the session is deleted and a rename arriving for
    it changes nothing. *)
Lemma title_generated_at_most_once_witness :
  exists sys,
    run Sample.twoExchanges (mounted initialState) = Some sys /\
    List.map ChatSession.title (sessions (app sys)) = [lit "Greeting"] /\
    titleCalls sys
    = [({| call_sessionId := lit "s1"; call_firstMessage := lit "hi" |}, true)] /\
    (titleCount (lit "s1") (titleCalls sys) <= 1)%nat /\
    onTitleResolved {| call_sessionId := lit "s1"; call_firstMessage := lit "hi" |}
      GenerateThrows (handleDeleteSession (lit "s1") (app sys))
    = handleDeleteSession (lit "s1") (app sys).
Proof.
  eexists. split; [vm_compute; reflexivity|].
  split; [vm_compute; reflexivity|]. split; [vm_compute; reflexivity|].
  split.
  - refine (proj1 (proj2 title_generated_at_most_once)
              (lit "s1") Sample.twoExchanges initialState _ eq_refl _ _).
    + vm_compute. lia.
    + vm_compute. reflexivity.
  - apply (proj2 (proj2 title_generated_at_most_once)).
    intros s Hin. vm_compute in Hin. destruct Hin.
Defined.

(* ================================================================== *)
(** ** Round trip through storage *)
(* ================================================================== *)

Import JSON.

(** *** Strings *)

Lemma parseHexDigit_hexDigit n : (n < 16)%N -> parseHexDigit (hexDigit n) = Some n.
Proof.
  intros H.
  assert (Hn : In n [0; 1; 2; 3; 4; 5; 6; 7; 8; 9; 10; 11; 12; 13; 14; 15]%N).
  { simpl. lia. }
  simpl in Hn.
  repeat (destruct Hn as [<-|Hn]; [reflexivity|]). destruct Hn.
Qed.

Lemma parseHex4_escape c :
  (c < 65536)%N ->
  parseHex4 (hexDigit (c / 4096)) (hexDigit ((c / 256) mod 16))
    (hexDigit ((c / 16) mod 16)) (hexDigit (c mod 16)) = Some c.
Proof.
  intros H. unfold parseHex4.
  rewrite !parseHexDigit_hexDigit;
    try (apply N.mod_lt; discriminate);
    try (apply N.Div0.div_lt_upper_bound; lia).
  f_equal.
  change 4096%N with (16 * 16 * 16)%N. change 256%N with (16 * 16)%N.
  rewrite <- !N.Div0.div_div.
  pose proof (N.div_mod c 16) as E0. pose proof (N.div_mod (c / 16) 16) as E1.
  pose proof (N.div_mod (c / 16 / 16) 16) as E2.
  generalize dependent (c mod 16)%N. intros x0 E0.
  generalize dependent ((c / 16) mod 16)%N. intros x1 E1.
  generalize dependent ((c / 16 / 16) mod 16)%N. intros x2 E2.
  generalize dependent (c / 16 / 16 / 16)%N. intros c3 E2.
  generalize dependent (c / 16 / 16)%N. intros c2 E1 E2.
  generalize dependent (c / 16)%N. intros c1 E0 E1.
  lia.
Qed.

Lemma parseChars_u a b c d tail :
  parseChars (92 :: 117 :: a :: b :: c :: d :: tail)%N
  = match parseHex4 a b c d, parseChars tail with
    | Some u, Some (str, rest') => Some (u :: str, rest')
    | _, _ => None
    end.
Proof. reflexivity. Qed.

Lemma parseChars_escapeU c tail :
  (c < 65536)%N ->
  parseChars (escapeU c ++ tail)
  = match parseChars tail with
    | Some (str, rest') => Some (c :: str, rest')
    | None => None
    end.
Proof.
  intros H. unfold escapeU. cbn [List.app]. rewrite parseChars_u.
  now rewrite parseHex4_escape.
Qed.

Lemma parseChars_plain c tail :
  c <> 34%N -> c <> 92%N -> (32 <= c)%N ->
  parseChars (c :: tail)
  = match parseChars tail with
    | Some (str, rest') => Some (c :: str, rest')
    | None => None
    end.
Proof.
  intros H1 H2 H3. cbn [parseChars].
  apply N.eqb_neq in H1, H2. rewrite H1, H2.
  assert (H4 : (c <? 32)%N = false) by (apply N.ltb_ge; exact H3).
  now rewrite H4.
Qed.

Lemma parseChars_quoteUnit c tail :
  (c < 65536)%N ->
  parseChars (quoteUnit c ++ tail)
  = match parseChars tail with
    | Some (str, rest') => Some (c :: str, rest')
    | None => None
    end.
Proof.
  intros H. unfold quoteUnit.
  destruct (N.eqb_spec c 8) as [->|H8]; [reflexivity|].
  destruct (N.eqb_spec c 9) as [->|H9]; [reflexivity|].
  destruct (N.eqb_spec c 10) as [->|H10]; [reflexivity|].
  destruct (N.eqb_spec c 12) as [->|H12]; [reflexivity|].
  destruct (N.eqb_spec c 13) as [->|H13]; [reflexivity|].
  destruct (N.eqb_spec c 34) as [->|H34]; [reflexivity|].
  destruct (N.eqb_spec c 92) as [->|H92]; [reflexivity|].
  destruct (N.ltb_spec c 32) as [Hlt|Hge].
  - now apply parseChars_escapeU.
  - now apply parseChars_plain.
Qed.

Lemma wfString_cons c s : wfString (c :: s) <-> (c < 65536)%N /\ wfString s.
Proof.
  unfold wfString. split.
  - intros H. inversion H; subst. auto.
  - intros [H1 H2]. constructor; auto.
Qed.

Lemma parseChars_quoteUnits_bounded n :
  forall s rest, (List.length s <= n)%nat -> wfString s ->
  parseChars (quoteUnits s ++ 34%N :: rest) = Some (s, rest).
Proof.
  induction n as [|n IH]; intros s rest Hlen Hwf.
  - destruct s; [reflexivity | simpl in Hlen; lia].
  - destruct s as [|c r]; [reflexivity|].
    apply wfString_cons in Hwf. destruct Hwf as [Hc Hr].
    simpl in Hlen. cbn [quoteUnits].
    destruct (isHigh c) eqn:Ehigh.
    + unfold isHigh in Ehigh. apply andb_true_iff in Ehigh.
      destruct Ehigh as [E1 _]. apply N.leb_le in E1.
      destruct r as [|d r'].
      * rewrite parseChars_escapeU by exact Hc. reflexivity.
      * destruct (isLow d) eqn:Elow.
        -- unfold isLow in Elow. apply andb_true_iff in Elow.
           destruct Elow as [E2 _]. apply N.leb_le in E2.
           apply wfString_cons in Hr. destruct Hr as [Hd Hr'].
           cbn [List.app].
           rewrite parseChars_plain by lia. rewrite parseChars_plain by lia.
           rewrite IH; [reflexivity | simpl in Hlen; lia | exact Hr'].
        -- rewrite <- List.app_assoc. rewrite parseChars_escapeU by exact Hc.
           rewrite IH; [reflexivity | lia | exact Hr].
    + destruct (isLow c).
      * rewrite <- List.app_assoc. rewrite parseChars_escapeU by exact Hc.
        rewrite IH; [reflexivity | lia | exact Hr].
      * rewrite <- List.app_assoc. rewrite parseChars_quoteUnit by exact Hc.
        rewrite IH; [reflexivity | lia | exact Hr].
Qed.

(** A quoted string reads back as the string. *)
Lemma parseChars_quote s rest :
  wfString s -> parseChars (tl (quote s) ++ rest) = Some (s, rest).
Proof.
  intros Hwf. unfold quote. cbn [tl]. rewrite <- List.app_assoc.
  apply (@parseChars_quoteUnits_bounded (List.length s)); auto.
Qed.

(** *** Numbers *)

Lemma valueOfDigits_snoc ds d :
  valueOfDigits (ds ++ [d]) = (10 * valueOfDigits ds + (d - 48))%N.
Proof. unfold valueOfDigits. now rewrite List.fold_left_app. Qed.

Lemma isDigit_digit n : isDigit (48 + n mod 10)%N = true.
Proof.
  unfold isDigit. assert (n mod 10 < 10)%N by (apply N.mod_lt; discriminate).
  generalize dependent (n mod 10)%N. intros m Hm.
  apply andb_true_iff. split; [apply N.leb_le | apply N.leb_le]; lia.
Qed.

(** The digits the loop puts in front of [acc]: all of them digits,
    worth [n], and starting with a digit that is not zero. *)
Lemma digitsFuel_spec fuel :
  forall n acc, (n < 2 ^ N.of_nat fuel)%N -> n <> 0%N ->
  exists d ds,
    digitsFuel fuel n acc = d :: ds ++ acc /\
    forallb isDigit (d :: ds) = true /\
    valueOfDigits (d :: ds) = n /\ d <> 48%N.
Proof.
  induction fuel as [|fuel IH]; intros n acc Hlt Hne.
  - simpl in Hlt. lia.
  - cbn [digitsFuel].
    destruct (N.eqb_spec (n / 10) 0) as [Hq|Hq].
    + exists (48 + n mod 10)%N, []. split; [reflexivity|].
      assert (Hsmall : (n < 10)%N).
      { destruct (N.lt_ge_cases n 10) as [Hs|Hs]; [exact Hs|].
        assert (Hone : (1 <= n / 10)%N) by (apply N.div_le_lower_bound; lia).
        rewrite Hq in Hone. lia. }
      rewrite N.mod_small by exact Hsmall.
      split; [|split].
      * cbn [forallb]. rewrite andb_true_r. unfold isDigit.
        apply andb_true_iff. clear Hq. split; apply N.leb_le; lia.
      * unfold valueOfDigits. cbn [fold_left]. clear Hq. lia.
      * clear Hq. lia.
    + assert (Hlt' : (n / 10 < 2 ^ N.of_nat fuel)%N).
      { apply N.Div0.div_lt_upper_bound.
        rewrite Nnat.Nat2N.inj_succ, N.pow_succ_r' in Hlt.
        generalize dependent (2 ^ N.of_nat fuel)%N. intros p _ Hlt. lia. }
      destruct (@IH (n / 10)%N ((48 + n mod 10)%N :: acc) Hlt' Hq)
        as (d & ds & Heq & Hall & Hval & Hd).
      exists d, (ds ++ [(48 + n mod 10)%N]). split; [|split; [|split]].
      * rewrite Heq. rewrite <- List.app_assoc. reflexivity.
      * change (d :: ds ++ [(48 + n mod 10)%N]) with ((d :: ds) ++ [(48 + n mod 10)%N]).
        rewrite List.forallb_app, Hall. cbn [forallb andb]. now rewrite isDigit_digit.
      * change (d :: ds ++ [(48 + n mod 10)%N]) with ((d :: ds) ++ [(48 + n mod 10)%N]).
        rewrite valueOfDigits_snoc, Hval.
        pose proof (N.div_mod n 10) as Edm.
        generalize dependent (n mod 10)%N. intros m Edm.
        generalize dependent (n / 10)%N. intros q _ _ _ _ Edm.
        lia.
      * exact Hd.
Qed.

Lemma digits_spec n :
  exists d ds,
    digits n = d :: ds /\
    forallb isDigit (d :: ds) = true /\
    valueOfDigits (d :: ds) = n /\
    (d = 48%N -> ds = []).
Proof.
  destruct (N.eq_dec n 0) as [->|Hne].
  - exists 48%N, []. repeat split.
  - unfold digits.
    assert (Hlt : (n < 2 ^ N.of_nat (S (N.to_nat (N.log2 n))))%N).
    { rewrite Nnat.Nat2N.inj_succ, Nnat.N2Nat.id.
      apply N.log2_spec. lia. }
    destruct (@digitsFuel_spec _ n [] Hlt Hne) as (d & ds & Heq & Hall & Hval & Hd).
    exists d, ds. rewrite Heq, List.app_nil_r. repeat split; auto.
    intros H. contradiction.
Qed.

Lemma spanDigits_app ds rest :
  forallb isDigit ds = true ->
  match rest with c :: _ => isDigit c = false | [] => True end ->
  spanDigits (ds ++ rest) = (ds, rest).
Proof.
  intros Hall Hrest. induction ds as [|d ds IH]; simpl in *.
  - destruct rest as [|c r]; [reflexivity|]. cbn [spanDigits]. now rewrite Hrest.
  - apply andb_true_iff in Hall. destruct Hall as [Hd Hall].
    rewrite Hd, (IH Hall). reflexivity.
Qed.

Lemma parseDigits_digits n rest :
  endsNumber rest -> parseDigits (digits n ++ rest) = Some (n, rest).
Proof.
  intros Hend. destruct (digits_spec n) as (d & ds & Heq & Hall & Hval & Hzero).
  unfold parseDigits. rewrite Heq.
  rewrite spanDigits_app; [|exact Hall|destruct rest; [exact I | apply Hend]].
  assert (Hlead : (d =? 48)%N && negb (Nat.eqb (List.length ds) 0) = false).
  { destruct (N.eqb_spec d 48) as [E|E]; [|reflexivity].
    rewrite (Hzero E). reflexivity. }
  rewrite Hlead.
  assert (Hfrac : startsWith 46 rest || startsWith 101 rest || startsWith 69 rest = false).
  { destruct rest as [|c r]; [reflexivity|]. simpl.
    destruct Hend as (_ & H1 & H2 & H3).
    apply N.eqb_neq in H1, H2, H3. now rewrite H1, H2, H3. }
  rewrite Hfrac, Hval. reflexivity.
Qed.

Lemma digits_head n : exists d ds, digits n = d :: ds /\ isDigit d = true.
Proof.
  destruct (digits_spec n) as (d & ds & Heq & Hall & _).
  exists d, ds. split; [exact Heq|]. simpl in Hall.
  now apply andb_true_iff in Hall.
Qed.

Lemma parseNumber_printNumber z rest :
  endsNumber rest -> parseNumber (printNumber z ++ rest) = Some (z, rest).
Proof.
  intros Hend. unfold printNumber, parseNumber.
  destruct (Z.ltb_spec z 0) as [Hneg|Hpos].
  - cbn [List.app startsWith tl]. rewrite N.eqb_refl.
    rewrite parseDigits_digits by exact Hend.
    f_equal. f_equal. rewrite Z2N.id; lia.
  - destruct (digits_head (Z.to_N z)) as (d & ds & Heq & Hd).
    assert (Hminus : startsWith 45 (digits (Z.to_N z) ++ rest) = false).
    { rewrite Heq. simpl. unfold isDigit in Hd. apply andb_true_iff in Hd.
      destruct Hd as [Hd _]. apply N.leb_le in Hd. apply N.eqb_neq. lia. }
    rewrite Hminus, parseDigits_digits by exact Hend.
    f_equal. f_equal. rewrite Z2N.id; lia.
Qed.

(** *** Values *)

Lemma parseValue_S fuel s :
  parseValue (S fuel) s
  = parseValueWith (fun r => parseElements fuel r []) (fun r => parseMembers fuel r []) s.
Proof. reflexivity. Qed.

Lemma parseElements_S fuel s acc :
  parseElements (S fuel) s acc
  = match parseValue fuel s with
    | Some (v, rest) =>
        if startsWith 44 (skipSpace rest)
        then parseElements fuel (tl (skipSpace rest)) (acc ++ [v])
        else if startsWith 93 (skipSpace rest)
        then Some (Array (acc ++ [v]), tl (skipSpace rest))
        else None
    | None => None
    end.
Proof. reflexivity. Qed.

Lemma parseMembers_S fuel s acc :
  parseMembers (S fuel) s acc
  = if startsWith 34 (skipSpace s) then
      match parseChars (tl (skipSpace s)) with
      | Some (key, afterKey) =>
          if startsWith 58 (skipSpace afterKey) then
            match parseValue fuel (tl (skipSpace afterKey)) with
            | Some (v, rest) =>
                if startsWith 44 (skipSpace rest)
                then parseMembers fuel (tl (skipSpace rest)) (acc ++ [(key, v)])
                else if startsWith 125 (skipSpace rest)
                then Some (Object (acc ++ [(key, v)]), tl (skipSpace rest))
                else None
            | None => None
            end
          else None
      | None => None
      end
    else None.
Proof. reflexivity. Qed.

Lemma isDigit_bounds c : isDigit c = true -> (48 <= c <= 57)%N.
Proof.
  unfold isDigit. intros H. apply andb_true_iff in H.
  destruct H as [H1 H2]. apply N.leb_le in H1, H2. lia.
Qed.

Lemma printNumber_head z : exists c tail, printNumber z = c :: tail /\ numberStart c.
Proof.
  unfold printNumber. destruct (z <? 0)%Z.
  - eexists. eexists. split; [reflexivity | now left].
  - destruct (digits_head (Z.to_N z)) as (d & ds & Heq & Hd).
    exists d, ds. split; [exact Heq | now right].
Qed.

Lemma numberStart_facts c :
  numberStart c ->
  isJSONSpace c = false /\ c <> 93%N /\ c <> 125%N /\
  (c =? 110)%N = false /\ (c =? 116)%N = false /\ (c =? 102)%N = false /\
  (c =? 34)%N = false /\ (c =? 91)%N = false /\ (c =? 123)%N = false.
Proof.
  intros [->|Hd]; [repeat split; discriminate|].
  apply isDigit_bounds in Hd. unfold isJSONSpace.
  repeat split; try lia; try (apply N.eqb_neq; lia).
  assert (E1 : (c =? 9)%N = false) by (apply N.eqb_neq; lia).
  assert (E2 : (c =? 10)%N = false) by (apply N.eqb_neq; lia).
  assert (E3 : (c =? 13)%N = false) by (apply N.eqb_neq; lia).
  assert (E4 : (c =? 32)%N = false) by (apply N.eqb_neq; lia).
  now rewrite E1, E2, E3, E4.
Qed.

Lemma parseValueWith_number E M c r :
  numberStart c ->
  parseValueWith E M (c :: r)
  = match parseNumber (c :: r) with
    | Some (z, rest) => Some (Number z, rest)
    | None => None
    end.
Proof.
  intros Hc. apply numberStart_facts in Hc.
  destruct Hc as (Hs & _ & _ & H1 & H2 & H3 & H4 & H5 & H6).
  unfold parseValueWith. cbn [skipSpace]. rewrite Hs, H1, H2, H3, H4, H5, H6.
  reflexivity.
Qed.

(** A serialised value starts with a character that is neither white
    space nor a closing bracket. *)
Lemma stringify_head v :
  exists c tail, stringify v = c :: tail /\
    isJSONSpace c = false /\ c <> 93%N /\ c <> 125%N.
Proof.
  destruct v as [|[|]|z|s|l|props];
    try (eexists; eexists; split; [reflexivity | repeat split; discriminate]).
  destruct (printNumber_head z) as (c & tail & Heq & Hc).
  exists c, tail. split; [exact Heq|].
  apply numberStart_facts in Hc. tauto.
Qed.

Lemma startsWith_head_false c d tail :
  d <> c -> startsWith c (d :: tail) = false.
Proof. intros H. simpl. now apply N.eqb_neq. Qed.

Lemma skipSpace_head c tail : isJSONSpace c = false -> skipSpace (c :: tail) = c :: tail.
Proof. intros H. cbn [skipSpace]. now rewrite H. Qed.

Lemma joinWith_cons sep p ps :
  joinWith sep (p :: ps)
  = match ps with
    | [] => p
    | _ :: _ => p ++ sep :: joinWith sep ps
    end.
Proof. reflexivity. Qed.

Lemma endsNumber_char c rest :
  c = 44%N \/ c = 93%N \/ c = 125%N -> endsNumber (c :: rest).
Proof. intros [ -> | [ -> | -> ] ]; repeat split; discriminate. Qed.

Lemma parseElements_join l :
  Forall readsBack l -> l <> [] ->
  forall fuel acc rest, (sizeOfElements l <= fuel)%nat ->
  parseElements fuel (joinWith 44 (List.map stringify l) ++ 93%N :: rest) acc
  = Some (Array (acc ++ l), rest).
Proof.
  induction 1 as [|x l Hx Hl IH]; intros Hne fuel acc rest Hfuel; [congruence|].
  unfold sizeOfElements in Hfuel. cbn [fold_right] in Hfuel.
  fold (sizeOfElements l) in Hfuel.
  destruct fuel as [|fuel]; [lia|].
  rewrite parseElements_S. cbn [List.map]. rewrite joinWith_cons.
  destruct l as [|y l'].
  - cbn [List.map]. rewrite Hx; [|lia|apply endsNumber_char; auto].
    reflexivity.
  - set (more := joinWith 44 (List.map stringify (y :: l'))).
    change (match List.map stringify (y :: l') with
            | [] => stringify x
            | _ :: _ => stringify x ++ 44%N :: more
            end) with (stringify x ++ 44%N :: more).
    rewrite <- List.app_assoc. cbn [List.app].
    rewrite Hx; [|lia|apply endsNumber_char; auto].
    cbn [skipSpace isJSONSpace startsWith tl N.eqb Pos.eqb orb].
    unfold more. rewrite IH; [|discriminate|lia].
    now rewrite <- List.app_assoc.
Qed.

Lemma quote_app k tail : quote k ++ tail = 34%N :: quoteUnits k ++ 34%N :: tail.
Proof. unfold quote. cbn [List.app]. now rewrite <- List.app_assoc. Qed.

Lemma parseMembers_join l :
  Forall readsBackMember l -> l <> [] ->
  forall fuel acc rest, (sizeOfMembers l <= fuel)%nat ->
  parseMembers fuel
    (joinWith 44 (List.map (fun kv => quote (fst kv) ++ 58%N :: stringify (snd kv)) l)
     ++ 125%N :: rest) acc
  = Some (Object (acc ++ l), rest).
Proof.
  induction 1 as [|[k v] l [Hk Hv] Hl IH]; intros Hne fuel acc rest Hfuel; [congruence|].
  unfold sizeOfMembers in Hfuel. cbn [fold_right snd] in Hfuel.
  fold (sizeOfMembers l) in Hfuel. cbn [fst snd] in Hk, Hv.
  destruct fuel as [|fuel]; [lia|].
  rewrite parseMembers_S. cbn [List.map fst snd]. rewrite joinWith_cons.
  destruct l as [|y l'].
  - cbn [List.map]. rewrite <- List.app_assoc, quote_app.
    cbn [List.app skipSpace isJSONSpace startsWith tl N.eqb Pos.eqb orb].
    rewrite (@parseChars_quoteUnits_bounded (List.length k)); [|lia|exact Hk].
    cbn [skipSpace isJSONSpace startsWith tl N.eqb Pos.eqb orb].
    rewrite Hv; [|lia|apply endsNumber_char; auto].
    reflexivity.
  - set (more := joinWith 44 (List.map (fun kv => quote (fst kv) ++ 58%N :: stringify (snd kv))
                                (y :: l'))).
    change (match List.map (fun kv => quote (fst kv) ++ 58%N :: stringify (snd kv)) (y :: l') with
            | [] => quote k ++ 58%N :: stringify v
            | _ :: _ => (quote k ++ 58%N :: stringify v) ++ 44%N :: more
            end) with ((quote k ++ 58%N :: stringify v) ++ 44%N :: more).
    rewrite <- !List.app_assoc, quote_app.
    cbn [List.app skipSpace isJSONSpace startsWith tl N.eqb Pos.eqb orb].
    rewrite (@parseChars_quoteUnits_bounded (List.length k)); [|lia|exact Hk].
    cbn [skipSpace isJSONSpace startsWith tl N.eqb Pos.eqb orb].
    rewrite Hv; [|lia|apply endsNumber_char; auto].
    cbn [skipSpace isJSONSpace startsWith tl N.eqb Pos.eqb orb].
    unfold more. rewrite IH; [|discriminate|lia].
    now rewrite <- List.app_assoc.
Qed.

Lemma wfValue_elements l :
  wfValue (Array l) -> Forall wfValue l.
Proof.
  cbn [wfValue]. induction l as [|x l IH]; cbn [fold_right]; intros H; constructor; tauto.
Qed.

Lemma wfValue_members l :
  wfValue (Object l) -> Forall (fun kv => wfString (fst kv) /\ wfValue (snd kv)) l.
Proof.
  cbn [wfValue]. induction l as [|x l IH]; cbn [fold_right]; intros H; constructor.
  - unfold wfString. tauto.
  - apply IH. tauto.
Qed.

(** Every well-formed value is read back from its serialisation. *)
Lemma parseValue_stringify v : wfValue v -> readsBack v.
Proof.
  induction v as [| b | z | s | l IH | props IH] using value_induction;
    intros Hwf fuel rest Hfuel Hend;
    (destruct fuel as [|fuel]; [cbn [size] in Hfuel; lia|]);
    rewrite parseValue_S.
  - reflexivity.
  - destruct b; reflexivity.
  - destruct (printNumber_head z) as (c & tail & Heq & Hc).
    cbn [stringify]. rewrite Heq. cbn [List.app].
    rewrite parseValueWith_number by exact Hc.
    change (c :: tail ++ rest) with ((c :: tail) ++ rest). rewrite <- Heq.
    now rewrite parseNumber_printNumber.
  - cbn [stringify]. rewrite quote_app.
    unfold parseValueWith.
    cbn [skipSpace isJSONSpace N.eqb Pos.eqb orb].
    rewrite (@parseChars_quoteUnits_bounded (List.length s)); [reflexivity|lia|exact Hwf].
  - cbn [stringify List.app]. rewrite <- List.app_assoc. cbn [List.app].
    unfold parseValueWith. cbn [skipSpace isJSONSpace N.eqb Pos.eqb orb].
    destruct l as [|x l'].
    + reflexivity.
    + assert (Hno : startsWith 93
                (skipSpace (joinWith 44 (List.map stringify (x :: l')) ++ 93%N :: rest))
              = false).
      { cbn [List.map]. rewrite joinWith_cons.
        destruct (stringify_head x) as (c & tail & Heq & Hs & Hc & _).
        destruct (List.map stringify l'); rewrite Heq; cbn [List.app];
          rewrite skipSpace_head by exact Hs; now apply startsWith_head_false. }
      rewrite Hno.
      rewrite parseElements_join; [reflexivity| |discriminate|].
      * apply wfValue_elements in Hwf.
        clear -IH Hwf. induction IH as [|y l Hy Hl IHl]; constructor.
        -- apply Hy. now inversion Hwf.
        -- apply IHl. now inversion Hwf.
      * cbn [size] in Hfuel. unfold sizeOfElements. lia.
  - cbn [stringify List.app]. rewrite <- List.app_assoc. cbn [List.app].
    unfold parseValueWith. cbn [skipSpace isJSONSpace N.eqb Pos.eqb orb].
    destruct props as [|[k x] props'].
    + reflexivity.
    + assert (Hno : startsWith 125
                (skipSpace
                   (joinWith 44
                      (List.map (fun kv => quote (fst kv) ++ 58%N :: stringify (snd kv))
                         ((k, x) :: props')) ++ 125%N :: rest))
              = false).
      { cbn [List.map fst snd]. rewrite joinWith_cons.
        destruct (List.map _ props'); rewrite <- ?List.app_assoc, quote_app; reflexivity. }
      rewrite Hno.
      rewrite parseMembers_join; [reflexivity| |discriminate|].
      * apply wfValue_members in Hwf.
        clear -IH Hwf. induction IH as [|y l Hy Hl IHl]; constructor.
        -- inversion Hwf; subst. split; [tauto | apply Hy; tauto].
        -- apply IHl. now inversion Hwf.
      * cbn [size] in Hfuel. unfold sizeOfMembers. lia.
Qed.

Lemma joinWith_length_elements l :
  Forall (fun v => (size v <= List.length (stringify v))%nat) l ->
  (sizeOfElements l <= List.length (joinWith 44 (List.map stringify l)) + 1)%nat.
Proof.
  induction 1 as [|x l Hx Hl IH]; [simpl; lia|].
  unfold sizeOfElements in *. cbn [fold_right List.map]. rewrite joinWith_cons.
  destruct l as [|y l'].
  - cbn [List.map fold_right]. lia.
  - set (more := joinWith 44 (List.map stringify (y :: l'))) in *.
    change (match List.map stringify (y :: l') with
            | [] => stringify x
            | _ :: _ => stringify x ++ 44%N :: more
            end) with (stringify x ++ 44%N :: more).
    rewrite List.length_app. cbn [List.length]. lia.
Qed.

Lemma quote_length k : (2 <= List.length (quote k))%nat.
Proof. unfold quote. cbn [List.length]. rewrite List.length_app. simpl. lia. Qed.

Lemma joinWith_length_members l :
  Forall (fun kv => (size (snd kv) <= List.length (stringify (snd kv)))%nat) l ->
  (sizeOfMembers l
   <= List.length
        (joinWith 44 (List.map (fun kv => quote (fst kv) ++ 58%N :: stringify (snd kv)) l))
      + 1)%nat.
Proof.
  induction 1 as [|[k x] l Hx Hl IH]; [simpl; lia|].
  unfold sizeOfMembers in *. cbn [fold_right List.map fst snd] in *. rewrite joinWith_cons.
  pose proof (quote_length k) as Hq.
  destruct l as [|y l'].
  - cbn [List.map fold_right]. rewrite List.length_app. cbn [List.length]. lia.
  - set (more := joinWith 44
                   (List.map (fun kv => quote (fst kv) ++ 58%N :: stringify (snd kv))
                      (y :: l'))) in *.
    change (match List.map (fun kv => quote (fst kv) ++ 58%N :: stringify (snd kv)) (y :: l') with
            | [] => quote k ++ 58%N :: stringify x
            | _ :: _ => (quote k ++ 58%N :: stringify x) ++ 44%N :: more
            end) with ((quote k ++ 58%N :: stringify x) ++ 44%N :: more).
    rewrite !List.length_app. cbn [List.length]. lia.
Qed.

(** The text of a value is long enough to serve as fuel. *)
Lemma size_le_length v : (size v <= List.length (stringify v))%nat.
Proof.
  induction v as [| b | z | s | l IH | props IH] using value_induction.
  - simpl. lia.
  - destruct b; simpl; lia.
  - cbn [size stringify]. destruct (printNumber_head z) as (c & tail & Heq & _).
    rewrite Heq. simpl. lia.
  - cbn [size stringify]. pose proof (quote_length s). lia.
  - cbn [size stringify List.length]. rewrite List.length_app. cbn [List.length].
    pose proof (joinWith_length_elements IH) as H. unfold sizeOfElements in H. lia.
  - cbn [size stringify List.length]. rewrite List.length_app. cbn [List.length].
    pose proof (joinWith_length_members IH) as H. unfold sizeOfMembers in H. lia.
Qed.

(** [JSON.parse(JSON.stringify(v))] is [v]. *)
Lemma parse_stringify v : wfValue v -> parse (stringify v) = Some v.
Proof.
  intros Hwf. unfold parse.
  pose proof (@parseValue_stringify v Hwf (S (List.length (stringify v))) []) as H.
  rewrite List.app_nil_r in H. rewrite H; [reflexivity| |exact I].
  pose proof (size_le_length v). lia.
Qed.

(** *** The session list *)

Ltac literal_wf :=
  repeat (apply Forall_cons; [reflexivity|]); apply Forall_nil.

Lemma roleOfName_roleName r : roleOfName (roleName r) = Some r.
Proof. destruct r; reflexivity. Qed.

Lemma messageFromJS_messageToJS m : messageFromJS (messageToJS m) = Some m.
Proof.
  destruct m as [i r c t]. unfold messageFromJS, messageToJS.
  cbn [Message.id Message.role Message.content Message.timestamp].
  change (get (lit "id") _) with (Some (String i)).
  change (get (lit "role") _) with (Some (String (roleName r))).
  change (get (lit "content") _) with (Some (String c)).
  change (get (lit "timestamp") _) with (Some (Number t)).
  cbv beta iota. now rewrite roleOfName_roleName.
Qed.

Lemma allFromJS_map {A} (f : value -> option A) (g : A -> value) l :
  (forall x, f (g x) = Some x) -> allFromJS f (List.map g l) = Some l.
Proof.
  intros H. induction l as [|x l IH]; [reflexivity|].
  cbn [List.map allFromJS]. now rewrite H, IH.
Qed.

Lemma sessionFromJS_sessionToJS s : sessionFromJS (sessionToJS s) = Some s.
Proof.
  destruct s as [i t ms c u]. unfold sessionFromJS, sessionToJS.
  cbn [ChatSession.id ChatSession.title ChatSession.messages
       ChatSession.createdAt ChatSession.lastUpdated].
  change (get (lit "id") _) with (Some (String i)).
  change (get (lit "title") _) with (Some (String t)).
  change (get (lit "messages") _) with (Some (Array (List.map messageToJS ms))).
  change (get (lit "createdAt") _) with (Some (Number c)).
  change (get (lit "lastUpdated") _) with (Some (Number u)).
  cbv beta iota. now rewrite (allFromJS_map messageFromJS messageToJS ms messageFromJS_messageToJS).
Qed.

Lemma wfValue_messageToJS m : wfMessage m -> wfValue (messageToJS m).
Proof.
  intros (Hi & Hc & _). unfold messageToJS. cbn [wfValue fold_right fst snd].
  repeat split; try literal_wf; try assumption.
  destruct (Message.role m); literal_wf.
Qed.

Lemma wfValue_array l : Forall wfValue l -> wfValue (Array l).
Proof.
  cbn [wfValue]. induction 1; cbn [fold_right]; auto.
Qed.

Lemma wfValue_sessionToJS s : wfSession s -> wfValue (sessionToJS s).
Proof.
  intros (Hi & Ht & Hm & _). unfold sessionToJS. cbn [wfValue fold_right fst snd].
  repeat split; try literal_wf; try assumption.
  change (wfValue (Array (List.map messageToJS (ChatSession.messages s)))).
  apply wfValue_array. apply List.Forall_map.
  eapply List.Forall_impl; [|exact Hm]. exact wfValue_messageToJS.
Qed.

(** C9. A session list whose strings are made of 16-bit code units and
    whose time stamps are integers a double holds exactly is read back
    from what was written to storage: [JSON.parse] gives the value that
    was serialised, and read as a [ChatSession[]] it is the list itself,
    with every identifier, title, time stamp and message in place. *)
Theorem sessions_survive_storage l :
  Forall wfSession l ->
  JSON.parse (saveSessions l) = Some (JSON.Array (List.map sessionToJS l)) /\
  loadSessions (Some (saveSessions l)) = Loaded l.
Proof.
  intros Hwf.
  assert (Hparse : JSON.parse (saveSessions l) = Some (JSON.Array (List.map sessionToJS l))).
  { unfold saveSessions. apply parse_stringify. apply wfValue_array.
    apply List.Forall_map. eapply List.Forall_impl; [|exact Hwf].
    exact wfValue_sessionToJS. }
  split; [exact Hparse|].
  unfold loadSessions. rewrite Hparse.
  assert (Htruthy : truthy (saveSessions l) = true) by reflexivity.
  rewrite Htruthy. unfold sessionsFromJS.
  now rewrite (allFromJS_map sessionFromJS sessionToJS l sessionFromJS_sessionToJS).
Qed.

Lemma sessions_survive_storage_witness :
  loadSessions (Some (saveSessions (sessions Sample.afterExchange)))
  = Loaded (sessions Sample.afterExchange).
Proof.
  refine (proj2 (@sessions_survive_storage (sessions Sample.afterExchange) _)).
  vm_compute sessions.
  repeat (apply Forall_cons || apply Forall_nil || split
          || (unfold safeInteger; simpl; lia) || literal_wf).
Defined.

(* ================================================================== *)
(** ** The sidebar order *)
(* ================================================================== *)

Lemma insertByUpdated_perm x l : Permutation (x :: l) (insertByUpdated x l).
Proof.
  induction l as [|y l IH]; simpl; [reflexivity|].
  destruct (ChatSession.lastUpdated x <? ChatSession.lastUpdated y)%Z; [|reflexivity].
  rewrite perm_swap. now constructor.
Qed.

Lemma sortedSessions_perm l : Permutation l (sortedSessions l).
Proof.
  induction l as [|x l IH]; simpl; [reflexivity|].
  rewrite <- insertByUpdated_perm. now constructor.
Qed.

Lemma insertByUpdated_newestFirst x l :
  newestFirst l -> newestFirst (insertByUpdated x l).
Proof.
  unfold newestFirst. induction 1 as [|y l Hl IH Hy]; simpl.
  - constructor; [constructor | constructor].
  - destruct (Z.ltb_spec (ChatSession.lastUpdated x) (ChatSession.lastUpdated y)) as [Hlt|Hge].
    + constructor; [exact IH|].
      apply (Permutation_Forall (insertByUpdated_perm x l)).
      constructor; [lia | exact Hy].
    + constructor; [constructor; assumption|].
      constructor; [exact Hge|].
      eapply Forall_impl; [|exact Hy]. simpl. intros z Hz. lia.
Qed.

Lemma sortedSessions_newestFirst l : newestFirst (sortedSessions l).
Proof.
  induction l as [|x l IH]; simpl; [constructor|].
  now apply insertByUpdated_newestFirst.
Qed.

Lemma insertByUpdated_updatedAt k x l :
  newestFirst l ->
  updatedAt k (insertByUpdated x l) = updatedAt k (x :: l).
Proof.
  unfold newestFirst, updatedAt. induction 1 as [|y l Hl IH Hy]; [reflexivity|].
  cbn [insertByUpdated].
  destruct (Z.ltb_spec (ChatSession.lastUpdated x) (ChatSession.lastUpdated y)) as [Hlt|Hge];
    [|reflexivity].
  cbn [List.filter] in *. rewrite IH.
  destruct (Z.eqb_spec (ChatSession.lastUpdated y) k) as [Ey|Ey];
    destruct (Z.eqb_spec (ChatSession.lastUpdated x) k) as [Ex|Ex]; try reflexivity.
  lia.
Qed.

Lemma sortedSessions_updatedAt k l : updatedAt k (sortedSessions l) = updatedAt k l.
Proof.
  induction l as [|x l IH]; [reflexivity|].
  cbn [sortedSessions fold_right]. fold (sortedSessions l).
  rewrite insertByUpdated_updatedAt by apply sortedSessions_newestFirst.
  unfold updatedAt in *. cbn [List.filter]. now rewrite IH.
Qed.

Lemma updatedAt_in k l s :
  In s (updatedAt k l) <-> In s l /\ ChatSession.lastUpdated s = k.
Proof. unfold updatedAt. rewrite List.filter_In, Z.eqb_eq. reflexivity. Qed.

(** Two lists in sidebar order that agree, date by date, on the
    sessions of that date and their order are the same list. *)
Lemma newestFirst_determined a b :
  newestFirst a -> newestFirst b ->
  (forall k, updatedAt k a = updatedAt k b) -> a = b.
Proof.
  unfold newestFirst. intros Ha. revert b.
  induction Ha as [|x a Ha IH Hx]; intros b Hb Heq.
  - destruct b as [|y b]; [reflexivity|].
    specialize (Heq (ChatSession.lastUpdated y)). unfold updatedAt in Heq.
    cbn [List.filter] in Heq. rewrite Z.eqb_refl in Heq. discriminate.
  - destruct b as [|y b].
    + specialize (Heq (ChatSession.lastUpdated x)). unfold updatedAt in Heq.
      cbn [List.filter] in Heq. rewrite Z.eqb_refl in Heq. discriminate.
    + inversion Hb as [|y' b' Hb' Hy]; subst.
      assert (Hxy : ChatSession.lastUpdated x = ChatSession.lastUpdated y).
      { assert (H1 : In y (x :: a)).
        { apply (updatedAt_in (ChatSession.lastUpdated y)). rewrite Heq.
          apply updatedAt_in. split; [now left | reflexivity]. }
        assert (H2 : In x (y :: b)).
        { apply (updatedAt_in (ChatSession.lastUpdated x)). rewrite <- Heq.
          apply updatedAt_in. split; [now left | reflexivity]. }
        rewrite List.Forall_forall in Hx, Hy.
        destruct H1 as [->|H1]; [reflexivity|].
        destruct H2 as [->|H2]; [reflexivity|].
        specialize (Hx y H1). specialize (Hy x H2). lia. }
      pose proof (Heq (ChatSession.lastUpdated x)) as Hhead.
      unfold updatedAt in Hhead. cbn [List.filter] in Hhead.
      rewrite <- Hxy, Z.eqb_refl in Hhead. inversion Hhead as [[Hsame Htail]]. subst y.
      f_equal. apply IH; [exact Hb'|].
      intros k. specialize (Heq k). unfold updatedAt in *. cbn [List.filter] in Heq.
      destruct (ChatSession.lastUpdated x =? k)%Z; [now inversion Heq | exact Heq].
Qed.

(** X1. The sidebar shows every session of the store exactly once, the
    most recently updated first. *)
Theorem sidebar_lists_store_newest_first l :
  Permutation l (sortedSessions l) /\
  StronglySorted (fun a b => (ChatSession.lastUpdated b <= ChatSession.lastUpdated a)%Z)
    (sortedSessions l).
Proof. split; [apply sortedSessions_perm | apply sortedSessions_newestFirst]. Qed.

(** X2. Sessions updated at the same time keep the order they have in
    the store, and that fixes the sidebar: it is the only arrangement by
    decreasing [lastUpdated] with this property. *)
Theorem sidebar_order_is_stable l :
  (forall k,
     List.filter (fun s => (ChatSession.lastUpdated s =? k)%Z) (sortedSessions l)
     = List.filter (fun s => (ChatSession.lastUpdated s =? k)%Z) l) /\
  (forall l',
     StronglySorted (fun a b => (ChatSession.lastUpdated b <= ChatSession.lastUpdated a)%Z) l' ->
     (forall k,
        List.filter (fun s => (ChatSession.lastUpdated s =? k)%Z) l'
        = List.filter (fun s => (ChatSession.lastUpdated s =? k)%Z) l) ->
     l' = sortedSessions l).
Proof.
  split; [intros k; apply sortedSessions_updatedAt|].
  intros l' Hs Hf. apply newestFirst_determined; [exact Hs | apply sortedSessions_newestFirst|].
  intros k. unfold updatedAt. rewrite Hf. symmetry. apply sortedSessions_updatedAt.
Qed.

Lemma sidebar_order_is_stable_witness :
  let a := ChatSession.mk (lit "a") (lit "A") [] 1 5 in
  let b := ChatSession.mk (lit "b") (lit "B") [] 2 9 in
  let c := ChatSession.mk (lit "c") (lit "C") [] 3 5 in
  sortedSessions [a; b; c] = [b; a; c].
Proof.
  intros a b c. symmetry.
  apply (proj2 (sidebar_order_is_stable [a; b; c])).
  - repeat (constructor; try (simpl; lia)).
  - intros k. unfold a, b, c. cbn [List.filter ChatSession.lastUpdated].
    destruct (Z.eqb_spec 5 k); destruct (Z.eqb_spec 9 k); try reflexivity; lia.
Defined.

(* ================================================================== *)
(** ** What each event does to the store *)
(* ================================================================== *)

Lemma sendPrologue_target env st :
  let l := fst (sendPrologue env st) in
  if noSession (currentSessionId st)
  then sessionId l = env_sessionUUID env /\
       sessionList l
       = newSession (env_sessionUUID env) (env_createdAt env) (env_lastUpdated env)
         :: sessions st
  else currentSessionId st = Some (sessionId l) /\ sessionList l = sessions st.
Proof.
  unfold sendPrologue.
  destruct (currentSessionId st) as [sid0|]; [|simpl; auto].
  destruct (noSession (Some sid0)) eqn:E; simpl; auto.
Qed.

(** The continuation of a suspended call, and the rename of a resolved
    title promise, aim at one identifier and write nothing but the
    store and the generating flag. *)
Lemma step_continuation ev sys sys' :
  isContinuation ev = true ->
  step ev sys = Some sys' ->
  (exists x, Forall2 (carried x) (sessions (app sys)) (sessions (app sys'))) /\
  currentSessionId (app sys') = currentSessionId (app sys) /\
  input (app sys') = input (app sys) /\
  settings (app sys') = settings (app sys) /\
  chatInstanceRef (app sys') = chatInstanceRef (app sys).
Proof.
  destruct ev; try discriminate; intros _; unfold step; intros H.
  - task_case sys n H E l0 bid full. inversion H; subst sys'; clear H. simpl.
    split; [exists (sessionId l0); apply appendMessage_carried | auto].
  - task_case sys n H E l0 bid full. inversion H; subst sys'; clear H. simpl.
    split; [exists (sessionId l0); apply appendMessage_carried | auto].
  - task_case sys n H E l0 bid full.
    pose proof (onChunk_carried l0 bid chunkText full (app sys)) as Hc.
    pose proof (onChunk_same l0 bid chunkText full (app sys)) as (S1 & S2 & _ & S4 & S5).
    destruct (onChunk l0 bid chunkText (full, app sys)) as [full' st'].
    inversion H; subst sys'; clear H. simpl in *.
    split; [exists (sessionId l0); exact Hc | auto].
  - task_case sys n H E l0 bid full. inversion H; subst sys'; clear H. simpl.
    split; [exists []; apply Forall2_carried_refl | auto].
  - task_case sys n H E l0 bid full. inversion H; subst sys'; clear H. simpl.
    split; [exists (sessionId l0); apply appendMessage_carried | auto].
  - destruct (nth_error (titleCalls sys) n) as [[c [|]]|] eqn:E; try discriminate.
    inversion H; subst sys'; clear H. simpl.
    split; [exists (call_sessionId c); apply renameSession_carried | auto].
Qed.

(** A send that goes through, seen from the event system. *)
Lemma step_send env sys :
  sendBlocked (app sys) = false ->
  exists sys',
    step (Send env) sys = Some sys' /\
    let l := fst (sendPrologue env (app sys)) in
    Forall2 (carried (sessionId l)) (sessionList l) (sessions (app sys')) /\
    settledStore (sessionId l) (sessions (app sys')) /\
    currentSessionId (app sys') = Some (sessionId l) /\
    input (app sys') = [] /\
    isGenerating (app sys') = true /\
    settings (app sys') = settings (app sys) /\
    tasks sys' = tasks sys ++ [{| task_locals := l; task_phase := Submitting |}] /\
    titleCalls sys' = titleCalls sys.
Proof.
  intros Hgo. unfold step. rewrite Hgo.
  pose proof (sendPrologue_sessions env (app sys)) as Hpro.
  pose proof (sendPrologue_fields env (app sys)) as (P1 & P2 & P3 & P4 & _).
  destruct (sendPrologue env (app sys)) as [l st1]. simpl fst in *. simpl snd in *.
  pose proof (getChatInstance_same st1) as ((G1 & G2 & _ & G4 & _) & Gs & Gg).
  simpl in G1, G2, G4.
  eexists. split; [reflexivity|]. simpl.
  rewrite <- appendUserMessage_withExchange in Hpro.
  repeat split; try congruence.
  - rewrite Gs, Hpro. apply appendUserMessage_carried.
  - rewrite Gs, Hpro. apply appendUserMessage_settled.
Qed.

Lemma NoDup_map_filter {A B} (f : A -> B) (p : A -> bool) l :
  NoDup (List.map f l) -> NoDup (List.map f (List.filter p l)).
Proof.
  induction l as [|x l IH]; intros H; simpl; [constructor|].
  inversion H as [|? ? Hx Hl]; subst.
  destruct (p x); simpl; [|auto].
  constructor; [|auto].
  intros Hin. apply Hx. apply List.in_map_iff in Hin. destruct Hin as [y [Hy Hin]].
  apply List.filter_In in Hin. rewrite <- Hy. apply List.in_map. tauto.
Qed.

Lemma run_invariant (ok : Event -> Sys -> Prop) (P : Sys -> Prop) :
  (forall ev sys sys', ok ev sys -> P sys -> step ev sys = Some sys' -> P sys') ->
  forall evs sys sys',
    runWhere ok evs sys -> P sys -> run evs sys = Some sys' -> P sys'.
Proof.
  intros Hstep. induction evs as [|ev evs IH]; intros sys sys' Hok HP Hrun; simpl in *.
  - inversion Hrun; subst. exact HP.
  - destruct (step ev sys) as [sys1|] eqn:E; [|discriminate].
    destruct Hok as [Hev Hrest].
    apply (IH sys1); auto. eapply Hstep; eauto.
Qed.

(* ================================================================== *)
(** ** Identifiers and the active session *)
(* ================================================================== *)

Lemma step_unique_ids ev sys sys' :
  freshDraw ev sys ->
  NoDup (sessionIds (sessions (app sys))) ->
  step ev sys = Some sys' ->
  NoDup (sessionIds (sessions (app sys'))).
Proof.
  intros Hfresh Hnd H.
  destruct (isContinuation ev) eqn:Hcont.
  { destruct (step_continuation _ _ Hcont H) as ([x Hc] & _).
    unfold sessionIds. now rewrite (Forall2_carried_ids Hc). }
  destruct ev; try discriminate Hcont; unfold step in H.
  - inversion H; subst; simpl in *. constructor; assumption.
  - inversion H; subst; exact Hnd.
  - inversion H; subst; simpl. unfold handleDeleteSession.
    destruct (optstring_eqb _ _); simpl; apply NoDup_map_filter; exact Hnd.
  - inversion H; subst; simpl. destruct localSettings; exact Hnd.
  - inversion H; subst; exact Hnd.
  - destruct (sendBlocked (app sys)) eqn:Hb; [inversion H; subst; exact Hnd|].
    destruct (step_send env sys Hb) as (sys1 & Hstep & Hc & _).
    unfold step in Hstep. rewrite Hb in Hstep. rewrite Hstep in H.
    inversion H; subst sys1; clear H.
    unfold sessionIds. rewrite (Forall2_carried_ids Hc).
    pose proof (sendPrologue_target env (app sys)) as Ht. cbv zeta in Ht.
    simpl in Hfresh.
    destruct (noSession (currentSessionId (app sys))).
    + destruct Ht as [_ ->]. simpl. constructor; [apply Hfresh; reflexivity | exact Hnd].
    + destruct Ht as [_ ->]. exact Hnd.
Qed.

(** X4. As long as [crypto.randomUUID()] never gives a new session an
    identifier already in the store, no two sessions of the store ever
    share an identifier. *)
Theorem session_ids_stay_unique evs sys sys' :
  NoDup (List.map ChatSession.id (sessions (app sys))) ->
  runWhere freshDraw evs sys ->
  run evs sys = Some sys' ->
  NoDup (List.map ChatSession.id (sessions (app sys'))).
Proof.
  intros Hnd Hok Hrun.
  apply (@run_invariant freshDraw
           (fun s => NoDup (sessionIds (sessions (app s))))
           step_unique_ids evs sys sys' Hok Hnd Hrun).
Qed.

Lemma session_ids_stay_unique_witness :
  exists sys,
    run Sample.twoExchanges (mounted initialState) = Some sys /\
    NoDup (List.map ChatSession.id (sessions (app sys))).
Proof.
  eexists. split; [vm_compute; reflexivity|].
  refine (@session_ids_stay_unique Sample.twoExchanges (mounted initialState) _ _ _ _).
  - constructor.
  - vm_compute. repeat split; intros; try tauto; try discriminate.
  - vm_compute. reflexivity.
Defined.

Lemma step_activeValid ev sys sys' :
  offered ev sys ->
  activeValid (app sys) ->
  step ev sys = Some sys' ->
  activeValid (app sys').
Proof.
  intros Hoff Hav H.
  destruct (isContinuation ev) eqn:Hcont.
  { destruct (step_continuation _ _ Hcont H) as ([x Hc] & Hcur & _).
    unfold activeValid, sessionIds in *. rewrite Hcur.
    now rewrite (Forall2_carried_ids Hc). }
  destruct ev; try discriminate Hcont; unfold step in H.
  - inversion H; subst; simpl. now left.
  - inversion H; subst; simpl. exact Hoff.
  - inversion H; subst; clear H. unfold handleDeleteSession, activeValid in *. simpl.
    destruct (currentSessionId (app sys)) as [cur|] eqn:Ecur; simpl;
      [|rewrite Ecur; exact I].
    destruct (jsstring_eqb cur sid) eqn:E; simpl; [exact I|].
    rewrite Ecur. unfold sessionIds in *.
    apply List.in_map_iff in Hav. destruct Hav as [s [Hs Hin]].
    apply List.in_map_iff. exists s. split; [exact Hs|].
    apply List.filter_In. split; [exact Hin|].
    rewrite Hs, E. reflexivity.
  - inversion H; subst; simpl. destruct localSettings; exact Hav.
  - inversion H; subst; exact Hav.
  - destruct (sendBlocked (app sys)) eqn:Hb; [inversion H; subst; exact Hav|].
    destruct (step_send env sys Hb) as (sys1 & Hstep & Hc & _ & Hcur & _).
    unfold step in Hstep. rewrite Hb in Hstep. rewrite Hstep in H.
    inversion H; subst sys1; clear H.
    unfold activeValid, sessionIds in *. rewrite Hcur, (Forall2_carried_ids Hc).
    pose proof (sendPrologue_target env (app sys)) as Ht. cbv zeta in Ht.
    destruct (noSession (currentSessionId (app sys))).
    + destruct Ht as [-> ->]. now left.
    + destruct Ht as [Hsame ->]. now rewrite Hsame in Hav.
Qed.

(** X5. As long as sessions are selected among those the sidebar lists,
    the active-session pointer is null or names a session of the store:
    deleting, creating, sending and streaming never leave it dangling. *)
Theorem active_session_never_dangles evs sys sys' :
  activeValid (app sys) ->
  runWhere offered evs sys ->
  run evs sys = Some sys' ->
  forall sid,
    currentSessionId (app sys') = Some sid ->
    exists s, getCurrentSession (app sys') = Some s /\ ChatSession.id s = sid.
Proof.
  intros Hav Hok Hrun sid Ecur.
  pose proof (@run_invariant offered (fun s => activeValid (app s))
                step_activeValid evs sys sys' Hok Hav Hrun) as H.
  unfold activeValid, sessionIds in H. rewrite Ecur in H.
  apply List.in_map_iff in H. destruct H as [s [Hs Hin]].
  unfold getCurrentSession. rewrite Ecur.
  destruct (List.find (fun s0 => optstring_eqb (Some sid) (ChatSession.id s0))
              (sessions (app sys'))) as [s1|] eqn:Efind.
  - exists s1. split; [reflexivity|].
    apply List.find_some in Efind. destruct Efind as [_ Heq].
    simpl in Heq. apply jsstring_eqb_eq in Heq. now symmetry.
  - exfalso. pose proof (List.find_none _ _ Efind s Hin) as Hn.
    simpl in Hn. rewrite Hs, jsstring_eqb_refl in Hn. discriminate.
Qed.

Lemma active_session_never_dangles_witness :
  exists sys,
    run [TypeInput (lit " hi "); Send Sample.env; NewChat (lit "s2") 20 21;
         SelectSession (lit "s1"); DeleteSession (lit "s2"); StreamOpened 0 Sample.bot]
      (mounted initialState) = Some sys /\
    exists s, getCurrentSession (app sys) = Some s /\ ChatSession.id s = lit "s1".
Proof.
  eexists. split; [vm_compute; reflexivity|].
  refine (@active_session_never_dangles
            [TypeInput (lit " hi "); Send Sample.env; NewChat (lit "s2") 20 21;
             SelectSession (lit "s1"); DeleteSession (lit "s2"); StreamOpened 0 Sample.bot]
            (mounted initialState) _ I _ _ (lit "s1") _).
  - vm_compute. repeat split. right. left. reflexivity.
  - vm_compute. reflexivity.
  - vm_compute. reflexivity.
Defined.

(* ================================================================== *)
(** ** The sidebar after a send *)
(* ================================================================== *)

Lemma step_send_exact env sys :
  sendBlocked (app sys) = false ->
  step (Send env) sys
  = Some {| app := snd (getChatInstance (snd (sendPrologue env (app sys))));
            tasks := tasks sys
                     ++ [{| task_locals := fst (sendPrologue env (app sys));
                            task_phase := Submitting |}];
            titleCalls := titleCalls sys |}.
Proof.
  intros Hgo. unfold step. rewrite Hgo.
  destruct (sendPrologue env (app sys)) as [l0 st1]. reflexivity.
Qed.

(** The store and the pointer right after the synchronous part of a send
    that goes through. *)
Lemma step_send_store env sys sys1 :
  sendBlocked (app sys) = false ->
  step (Send env) sys = Some sys1 ->
  let l := fst (sendPrologue env (app sys)) in
  sessions (app sys1)
  = appendUserMessage (sessionId l) (userMessage l) (env_appendNow env) (sessionList l) /\
  currentSessionId (app sys1) = Some (sessionId l) /\
  tasks sys1 = tasks sys ++ [{| task_locals := l; task_phase := Submitting |}].
Proof.
  intros Hgo Hstep l. rewrite (step_send_exact env sys Hgo) in Hstep.
  inversion Hstep; subst sys1; clear Hstep. cbn [app tasks].
  pose proof (sendPrologue_sessions env (app sys)) as Hpro.
  pose proof (sendPrologue_fields env (app sys)) as (_ & _ & _ & P4 & _).
  cbv zeta in P4. fold l in Hpro, P4.
  pose proof (getChatInstance_same (snd (sendPrologue env (app sys))))
    as ((G1 & _) & Gs & _). simpl in G1.
  rewrite Gs, Hpro, G1, P4. repeat split.
Qed.

Lemma sendPrologue_target_in env st :
  match currentSessionId st with
  | Some sid => In sid (List.map ChatSession.id (sessions st))
  | None => True
  end ->
  let l := fst (sendPrologue env st) in
  In (sessionId l) (List.map ChatSession.id (sessionList l)).
Proof.
  intros Hav l. unfold l, sendPrologue.
  destruct (currentSessionId st) as [sid0|]; [|simpl; now left].
  destruct (noSession (Some sid0)); simpl; [now left | exact Hav].
Qed.

Lemma stamped_top sid now l :
  stamped sid now l ->
  exists top rest, sortedSessions l = top :: rest /\ ChatSession.id top = sid.
Proof.
  intros [Hin Hst].
  apply List.in_map_iff in Hin. destruct Hin as [s1 [Hid1 Hin1]].
  pose proof (Hst s1 Hin1) as Hlu1. rewrite Hid1, jsstring_eqb_refl in Hlu1.
  pose proof (sortedSessions_perm l) as Hperm.
  pose proof (sortedSessions_newestFirst l) as Hsorted.
  destruct (sortedSessions l) as [|top rest] eqn:Esorted.
  - apply Permutation_sym, Permutation_nil in Hperm.
    rewrite Hperm in Hin1. destruct Hin1.
  - exists top, rest. split; [reflexivity|].
    assert (Hle : (now <= ChatSession.lastUpdated top)%Z).
    { assert (Hins : In s1 (top :: rest)) by (eapply Permutation_in; eauto).
      destruct Hins as [<-|Hins]; [lia|].
      inversion Hsorted as [|? ? _ Hall]; subst.
      rewrite List.Forall_forall in Hall. specialize (Hall s1 Hins). lia. }
    assert (Htop : In top l).
    { eapply Permutation_in; [apply Permutation_sym; exact Hperm | now left]. }
    specialize (Hst top Htop).
    destruct (jsstring_eqb (ChatSession.id top) sid) eqn:E;
      [now apply jsstring_eqb_eq | lia].
Qed.

Lemma same_keys_In (l l' : list ChatSession) :
  List.map ChatSession.id l' = List.map ChatSession.id l ->
  clocks l' = clocks l ->
  forall s', In s' l' ->
  exists s, In s l /\ ChatSession.id s' = ChatSession.id s /\
            ChatSession.lastUpdated s' = ChatSession.lastUpdated s.
Proof.
  unfold clocks. revert l. induction l' as [|x' l' IH]; intros [|x l] Hi Hc s' Hin;
    simpl in *; try discriminate; [destruct Hin|].
  inversion Hi. inversion Hc.
  destruct Hin as [<-|Hin]; [exists x; auto|].
  destruct (IH l H1 H3 s' Hin) as (s & Hs & Hids & Hlu). exists s. auto.
Qed.

Lemma stamped_same_keys sid now l l' :
  List.map ChatSession.id l' = List.map ChatSession.id l ->
  clocks l' = clocks l ->
  stamped sid now l -> stamped sid now l'.
Proof.
  intros Hi Hc [Hin Hst]. split; [unfold sessionIds in *; now rewrite Hi|].
  intros s' Hs'. destruct (same_keys_In l l' Hi Hc s' Hs') as (s & Hs & Hid & Hlu).
  specialize (Hst s Hs). now rewrite Hid, Hlu.
Qed.

Lemma step_bystander ev sys sys' :
  isBystander ev = true ->
  step ev sys = Some sys' ->
  sessions (app sys') = sessions (app sys) /\ tasks sys' = tasks sys /\
  titleCalls sys' = titleCalls sys /\ isGenerating (app sys') = isGenerating (app sys).
Proof.
  destruct ev; try discriminate; intros _; unfold step; intros H;
    inversion H; subst sys'; clear H; simpl; auto.
  destruct localSettings; simpl; auto.
Qed.

Lemma step_stamped sid now ev sys sys' :
  keepsDates ev = true ->
  step ev sys = Some sys' ->
  stamped sid now (sessions (app sys)) -> stamped sid now (sessions (app sys')).
Proof.
  intros Hk Hstep Hst. unfold keepsDates in Hk.
  destruct (isContinuation ev) eqn:Hcont.
  - destruct (step_continuation _ _ Hcont Hstep) as ([x Hcar] & _).
    apply (@stamped_same_keys sid now (sessions (app sys))); [|  |exact Hst].
    + exact (Forall2_carried_ids Hcar).
    + exact (step_continuation_clocks _ _ Hcont Hstep).
  - simpl in Hk. destruct (step_bystander _ _ Hk Hstep) as (Hs & _). now rewrite Hs.
Qed.

(** X3. A send moves its session to the top of the sidebar and keeps it
    there while the reply streams: sent at a clock reading above the
    dates of all stored sessions, the session the send makes active is
    first in the sidebar after the send and after any further stream
    events, resolved titles, selections, typing and saved settings,
    that is, until a session is created or deleted or another message
    is sent. *)
Theorem send_moves_session_to_top env evs sys sys1 sys' :
  sendBlocked (app sys) = false ->
  activeValid (app sys) ->
  (forall s, In s (sessions (app sys)) ->
     (ChatSession.lastUpdated s < env_appendNow env)%Z) ->
  step (Send env) sys = Some sys1 ->
  Forall (fun ev => keepsDates ev = true) evs ->
  run evs sys1 = Some sys' ->
  exists top rest,
    sortedSessions (sessions (app sys')) = top :: rest /\
    currentSessionId (app sys1) = Some (ChatSession.id top).
Proof.
  intros Hgo Hav Hold Hsend Hevs Hrun.
  destruct (step_send_store env sys Hgo Hsend) as (Hs1 & Hcur & _).
  set (l := fst (sendPrologue env (app sys))) in *.
  assert (H1 : stamped (sessionId l) (env_appendNow env) (sessions (app sys1))).
  { rewrite Hs1. split.
    - unfold sessionIds, appendUserMessage. rewrite List.map_map.
      erewrite List.map_ext; [apply (sendPrologue_target_in env (app sys) Hav)|].
      intros s. simpl. destruct (jsstring_eqb (ChatSession.id s) (sessionId _)); reflexivity.
    - intros s' Hin. apply List.in_map_iff in Hin. destruct Hin as [s [Hs Hin]].
      destruct (jsstring_eqb (ChatSession.id s) (sessionId l)) eqn:E; subst s'.
      + simpl. rewrite E. reflexivity.
      + rewrite E. apply Hold.
        pose proof (sendPrologue_cases env (app sys)) as Hcases.
        cbv zeta in Hcases. fold l in Hcases.
        destruct Hcases as [[Hsid Hl]|Hl]; rewrite Hl in Hin; [|exact Hin].
        destruct Hin as [<-|Hin]; [|exact Hin].
        simpl in E. rewrite Hsid, jsstring_eqb_refl in E. discriminate. }
  assert (H' : stamped (sessionId l) (env_appendNow env) (sessions (app sys'))).
  { clear Hsend Hs1 Hcur. revert sys1 H1 Hrun.
    induction Hevs as [|ev evs Hev _ IH]; intros sys1 H1 Hrun; simpl in Hrun.
    - inversion Hrun; subst. exact H1.
    - destruct (step ev sys1) as [sys2|] eqn:E; [|discriminate].
      apply (IH sys2); [|exact Hrun]. exact (@step_stamped _ _ ev sys1 sys2 Hev E H1). }
  destruct (stamped_top H') as (top & rest & Hsorted & Hid).
  exists top, rest. split; [exact Hsorted|]. now rewrite Hcur, Hid.
Qed.

Lemma send_moves_session_to_top_witness :
  List.map ChatSession.id (sortedSessions (sessions twoSessions)) = [lit "s2"; lit "s1"] /\
  exists sys1 sys',
    step (Send Sample.env2) (mounted twoSessions) = Some sys1 /\
    run [SelectSession (lit "s2"); StreamOpened 0 Sample.bot2; TypeInput (lit "x");
         Chunk 0 (Some (lit "ok")); StreamDone 0] sys1 = Some sys' /\
    exists top rest,
      sortedSessions (sessions (app sys')) = top :: rest /\
      currentSessionId (app sys1) = Some (ChatSession.id top).
Proof.
  split; [vm_compute; reflexivity|].
  eexists. eexists. split; [vm_compute; reflexivity|].
  split; [vm_compute; reflexivity|].
  refine (@send_moves_session_to_top Sample.env2
            [SelectSession (lit "s2"); StreamOpened 0 Sample.bot2; TypeInput (lit "x");
             Chunk 0 (Some (lit "ok")); StreamDone 0]
            (mounted twoSessions) _ _ _ _ _ _ _ _).
  - vm_compute. reflexivity.
  - vm_compute. right. left. reflexivity.
  - intros s Hin. vm_compute in Hin.
    destruct Hin as [<-|[<-|[]]]; vm_compute; reflexivity.
  - vm_compute. reflexivity.
  - repeat constructor.
  - vm_compute. reflexivity.
Defined.

(* ================================================================== *)
(** ** One send, one delete *)
(* ================================================================== *)
















(** X7. However the user's actions interleave with the stream, the end
    of a call releases the send: when the submission is rejected, the
    stream is exhausted or the stream fails, no call is left suspended
    and the busy flag is down, while what the user typed and saved in
    the meantime is kept; so the next send is blocked only by blank
    input. *)
Theorem ended_call_releases_the_send evs st sys ev sys' :
  isGenerating st = false ->
  run evs (mounted st) = Some sys ->
  endsCall ev = true ->
  step ev sys = Some sys' ->
  tasks sys' = [] /\
  isGenerating (app sys') = false /\
  input (app sys') = input (app sys) /\
  settings (app sys') = settings (app sys) /\
  currentSessionId (app sys') = currentSessionId (app sys) /\
  forall text, sendBlocked (setInput text (app sys')) = negb (truthy (trim text)).
Proof.
  intros Hg Hrun Hend Hstep.
  assert (H0 : oneStream (mounted st)) by (unfold oneStream; simpl; now rewrite Hg).
  pose proof (run_oneStream evs H0 Hrun) as Hone.
  pose proof (step_oneStream ev Hone Hstep) as Hone'.
  assert (Hflag : isGenerating (app sys') = false).
  { destruct ev; try discriminate Hend; unfold step in Hstep;
      task_case sys n Hstep E l0 bid full; inversion Hstep; reflexivity. }
  assert (Hcont : isContinuation ev = true) by (destruct ev; try discriminate Hend; reflexivity).
  destruct (step_continuation _ _ Hcont Hstep) as (_ & Hc & Hi & Hs & _).
  unfold oneStream in Hone'. rewrite Hflag in Hone'.
  repeat split; auto.
  - destruct (tasks sys'); [reflexivity | discriminate Hone'].
  - intros text. unfold sendBlocked. simpl. rewrite Hflag. apply orb_false_r.
Qed.

Lemma ended_call_releases_the_send_witness :
  exists sys sys',
    run [TypeInput (lit " hi "); Send Sample.env; StreamOpened 0 Sample.bot;
         TypeInput (lit "more");
         SaveSettings (Some {| systemInstruction := lit "Be brief."; model := ModelIds.PRO |})]
      (mounted initialState) = Some sys /\
    step (StreamFailed 0 Sample.err) sys = Some sys' /\
    input (app sys') = lit "more" /\
    tasks sys' = [] /\
    isGenerating (app sys') = false /\
    input (app sys') = input (app sys) /\
    settings (app sys') = settings (app sys) /\
    currentSessionId (app sys') = currentSessionId (app sys) /\
    forall text, sendBlocked (setInput text (app sys')) = negb (truthy (trim text)).
Proof.
  eexists. eexists. split; [vm_compute; reflexivity|].
  split; [vm_compute; reflexivity|]. split; [vm_compute; reflexivity|].
  refine (@ended_call_releases_the_send
            [TypeInput (lit " hi "); Send Sample.env; StreamOpened 0 Sample.bot;
             TypeInput (lit "more");
             SaveSettings (Some {| systemInstruction := lit "Be brief.";
                                   model := ModelIds.PRO |})]
            initialState _ (StreamFailed 0 Sample.err) _ _ _ _ _).
  - reflexivity.
  - vm_compute. reflexivity.
  - reflexivity.
  - vm_compute. reflexivity.
Defined.

Lemma removeSession_absent sid l :
  ~ In sid (sessionIds l) -> removeSession sid l = l.
Proof.
  induction l as [|s l IH]; intros Hn; simpl; [reflexivity|].
  destruct (jsstring_eqb (ChatSession.id s) sid) eqn:E; simpl.
  - exfalso. apply Hn. left. now apply jsstring_eqb_eq.
  - f_equal. apply IH. intros Hin. apply Hn. now right.
Qed.

(** X8. When no two sessions share an identifier, deleting a session of
    the store takes out that one entry and nothing else: the sessions
    before it and after it stay, in order; deleting an identifier the
    store does not hold changes nothing. *)
Theorem delete_takes_out_one_entry sid st :
  NoDup (List.map ChatSession.id (sessions st)) ->
  (In sid (List.map ChatSession.id (sessions st)) ->
   exists before s after,
     sessions st = before ++ s :: after /\ ChatSession.id s = sid /\
     sessions (handleDeleteSession sid st) = before ++ after) /\
  (~ In sid (List.map ChatSession.id (sessions st)) ->
   sessions (handleDeleteSession sid st) = sessions st).
Proof.
  intros Hnd.
  assert (Hs : sessions (handleDeleteSession sid st) = removeSession sid (sessions st)).
  { unfold handleDeleteSession. destruct (optstring_eqb _ _); reflexivity. }
  rewrite Hs. split; [|apply removeSession_absent].
  clear Hs. revert Hnd. generalize (sessions st). clear st.
  induction l as [|x l IH]; intros Hnd Hin; [destruct Hin|].
  inversion Hnd as [|? ? Hx Hl]; subst.
  destruct (jsstring_eqb (ChatSession.id x) sid) eqn:E.
  - apply jsstring_eqb_eq in E.
    exists [], x, l. repeat split; auto. simpl.
    apply jsstring_eqb_eq in E. rewrite E. simpl.
    apply removeSession_absent. apply jsstring_eqb_eq in E. now rewrite <- E.
  - destruct Hin as [Hin|Hin]; [apply jsstring_eqb_eq in Hin; congruence|].
    destruct (IH Hl Hin) as (pre & s & post & Hl' & Hid & Hrm).
    exists (x :: pre), s, post. repeat split; auto.
    + simpl. now rewrite Hl'.
    + simpl. rewrite E. simpl. now rewrite Hrm.
Qed.

Lemma delete_takes_out_one_entry_witness :
  exists before s after,
    sessions twoSessions = before ++ s :: after /\ ChatSession.id s = lit "s1" /\
    sessions (handleDeleteSession (lit "s1") twoSessions) = before ++ after.
Proof.
  refine (proj1 (@delete_takes_out_one_entry (lit "s1") twoSessions _) _).
  - vm_compute. repeat constructor; simpl; intuition discriminate.
  - vm_compute. right. left. reflexivity.
Defined.

(* ================================================================== *)
(** ** [trim] *)
(* ================================================================== *)

Lemma trimStart_idem s : trimStart (trimStart s) = trimStart s.
Proof.
  induction s as [|c s IH]; simpl; [reflexivity|].
  destruct (isWhiteSpace c) eqn:E; [exact IH|]. simpl. now rewrite E.
Qed.

Lemma trimStart_snoc_black l c :
  isWhiteSpace c = false -> trimStart (l ++ [c]) = trimStart l ++ [c].
Proof.
  intros Hc. induction l as [|x l IH]; simpl.
  - now rewrite Hc.
  - destruct (isWhiteSpace x); [exact IH | reflexivity].
Qed.

Lemma trimStart_trimEnd t :
  trimStart t = t -> trimStart (trimEnd t) = trimEnd t.
Proof.
  intros Ht. destruct t as [|c r]; [reflexivity|].
  assert (Hc : isWhiteSpace c = false) by (exact (trimStart_head _ Ht)).
  unfold trimEnd. simpl rev.
  rewrite (@trimStart_snoc_black (rev r) c Hc), List.rev_app_distr. simpl. now rewrite Hc.
Qed.

Lemma trimEnd_idem t : trimEnd (trimEnd t) = trimEnd t.
Proof. unfold trimEnd. now rewrite List.rev_involutive, trimStart_idem. Qed.

Lemma trim_idem s : trim (trim s) = trim s.
Proof.
  unfold trim. rewrite (@trimStart_trimEnd (trimStart s) (trimStart_idem s)). apply trimEnd_idem.
Qed.

Lemma trimStart_Forall (P : N -> Prop) s : Forall P s -> Forall P (trimStart s).
Proof.
  induction 1 as [|c s Hc Hs IH]; simpl; [constructor|].
  destruct (isWhiteSpace c); [exact IH | now constructor].
Qed.

Lemma trim_Forall (P : N -> Prop) s : Forall P s -> Forall P (trim s).
Proof.
  intros H. unfold trim, trimEnd.
  apply List.Forall_rev. apply trimStart_Forall. apply List.Forall_rev.
  now apply trimStart_Forall.
Qed.

(* ================================================================== *)
(** ** How the store evolves *)
(* ================================================================== *)

Lemma grownFrom_refl s : grownFrom s s.
Proof. repeat split. exists []. now rewrite List.app_nil_r. Qed.

Lemma grownFrom_trans s1 s2 s3 : grownFrom s1 s2 -> grownFrom s2 s3 -> grownFrom s1 s3.
Proof.
  intros (I1 & C1 & a1 & M1) (I2 & C2 & a2 & M2). repeat split; try congruence.
  exists (a1 ++ a2). now rewrite M2, M1, List.app_assoc.
Qed.

Lemma Forall2_map_self {A} (R : A -> A -> Prop) (f : A -> A) l :
  (forall x, In x l -> R x (f x)) -> Forall2 R l (List.map f l).
Proof.
  induction l as [|x l IH]; intros H; simpl; constructor.
  - apply H. now left.
  - apply IH. intros y Hy. apply H. now right.
Qed.

Lemma Forall2_self {A} (R : A -> A -> Prop) l :
  (forall x, R x x) -> Forall2 R l l.
Proof. intros H. induction l; constructor; auto. Qed.

Lemma evolves_refl ev s : evolves ev s s.
Proof. split; [apply grownFrom_refl | now left]. Qed.

Lemma map_skeleton_updateAt i c ms :
  List.map skeleton (updateAt i (fun m => Message.withContent m c) ms)
  = List.map skeleton ms.
Proof.
  revert i. induction ms as [|m ms IH]; intros [|i]; simpl; try reflexivity.
  now rewrite IH.
Qed.

Lemma appendMessage_evolves ev sid m l :
  Forall2 (evolves ev) l (appendMessage sid m l).
Proof.
  apply Forall2_map_self. intros s _.
  destruct (jsstring_eqb (ChatSession.id s) sid); [|apply evolves_refl].
  split; [|now left]. repeat split. exists [skeleton m]. simpl.
  now rewrite List.map_app.
Qed.

Lemma appendUserMessage_evolves ev sid m now l :
  Forall2 (evolves ev) l (appendUserMessage sid m now l).
Proof.
  apply Forall2_map_self. intros s _.
  destruct (jsstring_eqb (ChatSession.id s) sid); [|apply evolves_refl].
  split; [|now left]. repeat split. exists [skeleton m]. simpl.
  now rewrite List.map_app.
Qed.

Lemma updateBotContent_evolves ev sid bid c l :
  Forall2 (evolves ev) l (updateBotContent sid bid c l).
Proof.
  apply Forall2_map_self. intros s _.
  destruct (jsstring_eqb (ChatSession.id s) sid); simpl; [|apply evolves_refl].
  split; [|now left]. repeat split. exists []. rewrite List.app_nil_r.
  destruct (findIndex _ _); simpl; [apply map_skeleton_updateAt | reflexivity].
Qed.

Lemma renameSession_evolves n r sid l :
  Forall2 (evolves (TitleResolved n r)) l (renameSession sid (generateChatTitle r) l).
Proof.
  apply Forall2_map_self. intros s _.
  destruct (jsstring_eqb (ChatSession.id s) sid); [|apply evolves_refl].
  split; [|right; exists n, r; split; reflexivity].
  repeat split. exists []. now rewrite List.app_nil_r.
Qed.

(** Every event leaves each session it finds or creates in place, grown
    at most, and retitled only by a resolved title promise. *)
Lemma step_store ev sys sys' :
  step ev sys = Some sys' ->
  Forall2 (evolves ev) (storeBase ev sys) (sessions (app sys')).
Proof.
  intros H. destruct ev; unfold step in H; simpl storeBase.
  - inversion H; subst; simpl. apply Forall2_self, evolves_refl.
  - inversion H; subst; simpl. apply Forall2_self, evolves_refl.
  - inversion H; subst; simpl. unfold handleDeleteSession.
    destruct (optstring_eqb _ _); simpl; apply Forall2_self, evolves_refl.
  - inversion H; subst; simpl. destruct localSettings; apply Forall2_self, evolves_refl.
  - inversion H; subst; simpl. apply Forall2_self, evolves_refl.
  - destruct (sendBlocked (app sys)) eqn:Hb.
    + inversion H; subst. apply Forall2_self, evolves_refl.
    + pose proof (sendPrologue_sessions env (app sys)) as Hpro.
      destruct (sendPrologue env (app sys)) as [l0 st1]. simpl fst in *. simpl snd in *.
      inversion H; subst sys'; clear H. simpl.
      rewrite getChatInstance_sessions, Hpro, <- appendUserMessage_withExchange.
      apply appendUserMessage_evolves.
  - task_case sys n H E l0 bid full. inversion H; subst sys'; clear H. simpl.
    apply appendMessage_evolves.
  - task_case sys n H E l0 bid full. inversion H; subst sys'; clear H. simpl.
    apply appendMessage_evolves.
  - task_case sys n H E l0 bid full.
    assert (Hc : Forall2 (evolves (Chunk n chunkText)) (sessions (app sys))
                   (sessions (snd (onChunk l0 bid chunkText (full, app sys))))).
    { unfold onChunk. destruct chunkText as [[|x t]|]; simpl;
        try apply Forall2_self, evolves_refl. apply updateBotContent_evolves. }
    destruct (onChunk l0 bid chunkText (full, app sys)) as [full' st'].
    inversion H; subst sys'; clear H. exact Hc.
  - task_case sys n H E l0 bid full. inversion H; subst sys'; clear H. simpl.
    apply Forall2_self, evolves_refl.
  - task_case sys n H E l0 bid full. inversion H; subst sys'; clear H. simpl.
    apply appendMessage_evolves.
  - destruct (nth_error (titleCalls sys) n) as [[c [|]]|] eqn:E; try discriminate.
    inversion H; subst sys'; clear H. simpl. apply renameSession_evolves.
Qed.

Lemma run_preserves (P : Sys -> Prop) :
  (forall ev sys sys', P sys -> step ev sys = Some sys' -> P sys') ->
  forall evs sys sys', P sys -> run evs sys = Some sys' -> P sys'.
Proof.
  intros Hstep. induction evs as [|ev evs IH]; intros sys sys' HP Hrun; simpl in *.
  - inversion Hrun; subst. exact HP.
  - destruct (step ev sys) as [sys1|] eqn:E; [|discriminate].
    apply (IH sys1); auto. eapply Hstep; eauto.
Qed.

Lemma storeBase_cases ev sys :
  storeBase ev sys = sessions (app sys) \/
  (exists uuid created updated,
     storeBase ev sys = newSession uuid created updated :: sessions (app sys)) \/
  (exists sid, ev = DeleteSession sid /\
     storeBase ev sys = removeSession sid (sessions (app sys))).
Proof.
  destruct ev; simpl; auto.
  - right. left. eauto.
  - right. right. eauto.
  - destruct (sendBlocked (app sys)); [now left|].
    pose proof (sendPrologue_target env (app sys)) as Ht. cbv zeta in Ht.
    destruct (noSession (currentSessionId (app sys))); destruct Ht as [_ ->].
    + right. left. eauto.
    + now left.
Qed.

(* ================================================================== *)
(** ** What is stored of a message, and titles *)
(* ================================================================== *)

Lemma sendPrologue_userMessage env st :
  userMessage (fst (sendPrologue env st))
  = Message.mk (env_userUUID env) RoleUser (trim (input st)) (env_userTimestamp env).
Proof.
  unfold sendPrologue.
  destruct (currentSessionId st) as [sid0|]; [destruct (noSession (Some sid0))|];
    reflexivity.
Qed.

(** X9. The message a send stores is the typed text without the white
    space around it: it is the last message of the session the send
    makes active, it has the user's role, and its content is not empty
    and has no white space at either end. *)
Theorem sent_message_is_trimmed env sys :
  sendBlocked (app sys) = false ->
  exists sys',
    step (Send env) sys = Some sys' /\
    forall s,
      In s (sessions (app sys')) ->
      currentSessionId (app sys') = Some (ChatSession.id s) ->
      exists older m,
        ChatSession.messages s = older ++ [m] /\
        Message.role m = RoleUser /\
        Message.content m = trim (input (app sys)) /\
        Message.content m <> [] /\
        trim (Message.content m) = Message.content m.
Proof.
  intros Hgo.
  destruct (step_send env sys Hgo) as (sys' & Hstep & _ & _ & Hcur & _).
  exists sys'. split; [exact Hstep|].
  intros s Hin Hact. rewrite Hcur in Hact. inversion Hact as [Hid]. clear Hact.
  unfold step in Hstep. rewrite Hgo in Hstep.
  pose proof (sendPrologue_sessions env (app sys)) as Hpro.
  pose proof (sendPrologue_userMessage env (app sys)) as Hum.
  destruct (sendPrologue env (app sys)) as [l0 st1]. simpl fst in *. simpl snd in *.
  inversion Hstep; subst sys'; clear Hstep. simpl in Hin.
  rewrite getChatInstance_sessions, Hpro in Hin.
  apply List.in_map_iff in Hin. destruct Hin as [s0 [Hs0 _]].
  unfold withExchange in Hs0.
  destruct (jsstring_eqb (ChatSession.id s0) (sessionId l0)) eqn:E.
  - exists (ChatSession.messages s0), (userMessage l0). subst s. simpl.
    rewrite Hum. simpl. repeat split.
    + unfold sendBlocked in Hgo. apply orb_false_iff in Hgo. destruct Hgo as [Hne _].
      intros Hnil. rewrite Hnil in Hne. discriminate.
    + apply trim_idem.
  - subst s0. apply jsstring_eqb_neq in E. congruence.
Qed.

Lemma sent_message_is_trimmed_witness :
  exists sys',
    step (Send Sample.env) (mounted Sample.typed) = Some sys' /\
    forall s,
      In s (sessions (app sys')) ->
      currentSessionId (app sys') = Some (ChatSession.id s) ->
      exists older m,
        ChatSession.messages s = older ++ [m] /\
        Message.role m = RoleUser /\
        Message.content m = trim (input Sample.typed) /\
        Message.content m <> [] /\
        trim (Message.content m) = Message.content m.
Proof.
  refine (@sent_message_is_trimmed Sample.env (mounted Sample.typed) _).
  vm_compute. reflexivity.
Defined.

Lemma generateChatTitle_good r :
  generateChatTitle r <> [] /\ trim (generateChatTitle r) = generateChatTitle r.
Proof.
  destruct r as [|[t|]]; simpl; try (split; [discriminate | vm_compute; reflexivity]).
  destruct (truthy (trim t)) eqn:E; [|split; [discriminate | vm_compute; reflexivity]].
  split; [|apply trim_idem]. intros Hnil. rewrite Hnil in E. discriminate.
Qed.

Lemma step_goodTitle ev sys sys' :
  Forall goodTitle (sessions (app sys)) ->
  step ev sys = Some sys' ->
  Forall goodTitle (sessions (app sys')).
Proof.
  intros Hg Hstep. apply step_store in Hstep.
  assert (Hbase : Forall goodTitle (storeBase ev sys)).
  { destruct (storeBase_cases ev sys) as [->|[(u & c & d & ->)|(sid & _ & ->)]].
    - exact Hg.
    - constructor; [|exact Hg]. split; [discriminate | vm_compute; reflexivity].
    - unfold removeSession. apply List.Forall_forall. intros s Hs.
      apply List.filter_In in Hs. destruct Hs as [Hs _].
      revert s Hs. now apply List.Forall_forall. }
  induction Hstep as [|s s' l0 l1 He _ IH]; [constructor|].
  inversion Hbase as [|? ? Hs Hl]; subst. constructor; [|auto].
  destruct He as (_ & [Ht|(n & r & _ & Ht)]).
  - unfold goodTitle. now rewrite Ht.
  - unfold goodTitle. rewrite Ht. apply generateChatTitle_good.
Qed.

(** X10. No session ever has a blank title: a new session is titled
    "New Chat", and a generated title is stored trimmed, or replaced by
    "New Chat" when the model gave nothing but white space, nothing at
    all, or failed.  So the header shows the title of the session on
    screen, never its fallback. *)
Theorem titles_are_never_blank evs sys sys' :
  Forall goodTitle (sessions (app sys)) ->
  run evs sys = Some sys' ->
  Forall goodTitle (sessions (app sys')) /\
  forall s, getCurrentSession (app sys') = Some s ->
            headerTitle (app sys') = ChatSession.title s.
Proof.
  intros Hg Hrun.
  assert (H : Forall goodTitle (sessions (app sys'))).
  { exact (@run_preserves (fun x => Forall goodTitle (sessions (app x)))
             step_goodTitle evs sys sys' Hg Hrun). }
  split; [exact H|].
  intros s Hcur. unfold headerTitle. rewrite Hcur.
  assert (Hin : In s (sessions (app sys'))).
  { unfold getCurrentSession in Hcur. apply List.find_some in Hcur. tauto. }
  pose proof (proj1 (List.Forall_forall _ _) H s Hin) as [Hne _].
  destruct (ChatSession.title s) eqn:Et; [congruence | reflexivity].
Qed.

Lemma titles_are_never_blank_witness :
  exists sys',
    run [TypeInput (lit " hi "); Send Sample.env; StreamOpened 0 Sample.bot; StreamDone 0;
       TitleResolved 0 (GenerateText (Some (lit "  ")))]
      (mounted initialState) = Some sys' /\
    Forall goodTitle (sessions (app sys')) /\
    forall s, getCurrentSession (app sys') = Some s ->
              headerTitle (app sys') = ChatSession.title s.
Proof.
  eexists. split; [vm_compute; reflexivity|].
  refine (@titles_are_never_blank
            [TypeInput (lit " hi "); Send Sample.env; StreamOpened 0 Sample.bot; StreamDone 0;
       TitleResolved 0 (GenerateText (Some (lit "  ")))]
            (mounted initialState) _ _ _).
  - constructor.
  - vm_compute. reflexivity.
Defined.

(* ================================================================== *)
(** ** History *)
(* ================================================================== *)

Lemma Forall2_grownFrom_trans l1 l2 l3 :
  Forall2 grownFrom l1 l2 -> Forall2 grownFrom l2 l3 -> Forall2 grownFrom l1 l3.
Proof.
  intros H. revert l3. induction H; intros l3 H3; inversion H3; subst; constructor.
  - eapply grownFrom_trans; eauto.
  - auto.
Qed.

Lemma Forall2_evolves_grownFrom ev l l' :
  Forall2 (evolves ev) l l' -> Forall2 grownFrom l l'.
Proof. induction 1 as [|s s' l l' [Hg _] _ IH]; constructor; auto. Qed.

(** X11. Nothing but a delete takes anything out of the store: along a
    run without deletions every session stays, in the same order and
    under the sessions created since, with its identifier and creation
    date; and each of its messages stays in place with its identifier,
    role and time stamp, new messages coming after it. *)
Theorem history_is_append_only evs sys sys' :
  Forall (fun ev => isDelete ev = false) evs ->
  run evs sys = Some sys' ->
  exists newer kept,
    sessions (app sys') = newer ++ kept /\
    Forall2 grownFrom (sessions (app sys)) kept.
Proof.
  revert sys. induction evs as [|ev evs IH]; intros sys Hnd Hrun; simpl in Hrun.
  - inversion Hrun; subst. exists [], (sessions (app sys')). split; [reflexivity|].
    apply Forall2_self, grownFrom_refl.
  - destruct (step ev sys) as [sys1|] eqn:E; [|discriminate].
    inversion Hnd as [|? ? Hev Hrest]; subst.
    destruct (IH sys1 Hrest Hrun) as (newer & kept & Hs & Hk).
    apply step_store, Forall2_evolves_grownFrom in E.
    assert (Hsplit : exists pre, storeBase ev sys = pre ++ sessions (app sys)).
    { destruct (storeBase_cases ev sys) as [->|[(u & c & d & ->)|(sid & -> & _)]].
      - now exists [].
      - now eexists [_].
      - discriminate. }
    destruct Hsplit as [pre Hpre]. rewrite Hpre in E.
    apply List.Forall2_app_inv_l in E. destruct E as (l1 & l2 & _ & H2 & Hs1).
    rewrite Hs1 in Hk.
    apply List.Forall2_app_inv_l in Hk. destruct Hk as (k1 & k2 & _ & Hk2 & Hkept).
    exists (newer ++ k1), k2. split.
    + now rewrite Hs, Hkept, List.app_assoc.
    + eapply Forall2_grownFrom_trans; eauto.
Qed.

Lemma history_is_append_only_witness :
  exists sys',
    run (NewChat (lit "s2") 20 21 :: Sample.twoExchanges) (mounted Sample.afterExchange)
    = Some sys' /\
    exists newer kept,
      sessions (app sys') = newer ++ kept /\
      Forall2 grownFrom (sessions Sample.afterExchange) kept.
Proof.
  eexists. split; [vm_compute; reflexivity|].
  refine (@history_is_append_only (NewChat (lit "s2") 20 21 :: Sample.twoExchanges)
            (mounted Sample.afterExchange) _ _ _).
  - vm_compute. repeat constructor.
  - vm_compute. reflexivity.
Defined.

(* ================================================================== *)
(** ** Late events and user actions in between *)
(* ================================================================== *)

(** X12. What arrives for a session that is no longer in the store is
    dropped: a fragment, the end or the failure of a stream, or a
    generated title, whose session has been deleted, changes no session
    and brings none back. *)
Theorem late_events_for_deleted_session_are_dropped ev sys sys' sid :
  targetOf ev sys = Some sid ->
  ~ In sid (List.map ChatSession.id (sessions (app sys))) ->
  step ev sys = Some sys' ->
  sessions (app sys') = sessions (app sys).
Proof.
  intros Ht Habs H.
  assert (Hne : forall s, In s (sessions (app sys)) -> ChatSession.id s <> sid).
  { intros s Hs Hid. apply Habs. rewrite <- Hid. now apply List.in_map. }
  assert (Hcar : Forall2 (carried sid) (sessions (app sys)) (sessions (app sys'))).
  { destruct ev; try discriminate Ht; unfold step in H; simpl in Ht.
    - task_case sys n H E l0 bid full. inversion Ht; subst sid.
      inversion H; subst sys'. simpl. apply appendMessage_carried.
    - task_case sys n H E l0 bid full. inversion Ht; subst sid.
      inversion H; subst sys'. simpl. apply appendMessage_carried.
    - task_case sys n H E l0 bid full. inversion Ht; subst sid.
      pose proof (onChunk_carried l0 bid chunkText full (app sys)) as Hc.
      destruct (onChunk l0 bid chunkText (full, app sys)) as [full' st'].
      inversion H; subst sys'. exact Hc.
    - task_case sys n H E l0 bid full. inversion Ht; subst sid.
      inversion H; subst sys'. simpl. apply Forall2_carried_refl.
    - task_case sys n H E l0 bid full. inversion Ht; subst sid.
      inversion H; subst sys'. simpl. apply appendMessage_carried.
    - destruct (nth_error (titleCalls sys) n) as [[c [|]]|] eqn:E; try discriminate.
      inversion Ht; subst sid. inversion H; subst sys'. simpl.
      apply renameSession_carried. }
  exact (Forall2_carried_others Hcar Hne).
Qed.

Lemma late_events_for_deleted_session_are_dropped_witness :
  exists sys sys',
    run [TypeInput (lit " hi "); Send Sample.env; StreamOpened 0 Sample.bot;
         DeleteSession (lit "s1")] (mounted initialState) = Some sys /\
    step (Chunk 0 (Some (lit "Hello"))) sys = Some sys' /\
    sessions (app sys') = sessions (app sys).
Proof.
  eexists. eexists. split; [vm_compute; reflexivity|].
  split; [vm_compute; reflexivity|].
  refine (@late_events_for_deleted_session_are_dropped
            (Chunk 0 (Some (lit "Hello"))) _ _ (lit "s1") _ _ _).
  - vm_compute. reflexivity.
  - vm_compute. tauto.
  - vm_compute. reflexivity.
Defined.

(** X13. Selecting a session, typing, or saving the settings while a
    reply is on its way does not disturb it: done just before or just
    after a stream event or the arrival of a generated title, the
    action leaves the same store, the same suspended calls and the same
    state. *)
Theorem ui_actions_commute_with_stream a c sys :
  isBystander a = true ->
  isContinuation c = true ->
  run [a; c] sys = run [c; a] sys.
Proof.
  intros Ha Hc. destruct sys as [st ts tcs].
  destruct a; try discriminate Ha; destruct c; try discriminate Hc;
    unfold run, step; cbn [app tasks titleCalls];
    try (destruct (nth_error ts n) as [[l0 [|bid full]]|]; try reflexivity);
    try (destruct (nth_error tcs n) as [[c0 [|]]|]; try reflexivity);
    try (destruct localSettings; try reflexivity);
    try (unfold onChunk; destruct chunkText as [[|x t]|]; reflexivity).
Qed.

Lemma ui_actions_commute_with_stream_witness :
  exists sys,
    run [TypeInput (lit " hi "); Send Sample.env; StreamOpened 0 Sample.bot]
      (mounted twoSessions) = Some sys /\
    run [SelectSession (lit "s2"); Chunk 0 (Some (lit "Hello"))] sys
    = run [Chunk 0 (Some (lit "Hello")); SelectSession (lit "s2")] sys.
Proof.
  eexists. split; [vm_compute; reflexivity|].
  refine (@ui_actions_commute_with_stream (SelectSession (lit "s2"))
            (Chunk 0 (Some (lit "Hello"))) _ _ _); reflexivity.
Defined.

(* ================================================================== *)
(** ** The store is always fit for storage *)
(* ================================================================== *)

Lemma Forall_updateAt {A} (P : A -> Prop) n (f : A -> A) l :
  (forall x, P x -> P (f x)) -> Forall P l -> Forall P (updateAt n f l).
Proof.
  intros Hf H. revert n. induction H as [|x l Hx Hl IH]; intros [|n]; simpl;
    constructor; auto.
Qed.

Lemma Forall_removeNth {A} (P : A -> Prop) n l :
  Forall P l -> Forall P (removeNth n l).
Proof.
  intros H. revert n. induction H as [|x l Hx Hl IH]; intros [|n]; simpl;
    try constructor; auto.
Qed.

Lemma Forall_nth_error {A} (P : A -> Prop) n l x :
  Forall P l -> nth_error l n = Some x -> P x.
Proof.
  intros H E. apply List.nth_error_In in E. revert x E. now apply List.Forall_forall.
Qed.

Lemma appendMessage_wf sid m l :
  wfMessage m -> Forall wfSession l -> Forall wfSession (appendMessage sid m l).
Proof.
  intros Hm Hl. unfold appendMessage. apply List.Forall_map.
  eapply List.Forall_impl; [|exact Hl]. intros s (H1 & H2 & H3 & H4 & H5).
  destruct (jsstring_eqb (ChatSession.id s) sid);
    [|exact (conj H1 (conj H2 (conj H3 (conj H4 H5))))].
  refine (conj H1 (conj H2 (conj _ (conj H4 _)))); simpl; auto.
  apply List.Forall_app. split; [exact H3 | now constructor].
Qed.

Lemma appendUserMessage_wf sid m now l :
  wfMessage m -> safeInteger now -> Forall wfSession l ->
  Forall wfSession (appendUserMessage sid m now l).
Proof.
  intros Hm Hn Hl. unfold appendUserMessage. apply List.Forall_map.
  eapply List.Forall_impl; [|exact Hl]. intros s (H1 & H2 & H3 & H4 & H5).
  destruct (jsstring_eqb (ChatSession.id s) sid);
    [|exact (conj H1 (conj H2 (conj H3 (conj H4 H5))))].
  refine (conj H1 (conj H2 (conj _ (conj H4 _)))); simpl; auto.
  apply List.Forall_app. split; [exact H3 | now constructor].
Qed.

Lemma updateBotContent_wf sid bid c l :
  wfString c -> Forall wfSession l -> Forall wfSession (updateBotContent sid bid c l).
Proof.
  intros Hc Hl. unfold updateBotContent. apply List.Forall_map.
  eapply List.Forall_impl; [|exact Hl]. intros s (H1 & H2 & H3 & H4 & H5).
  destruct (jsstring_eqb (ChatSession.id s) sid); simpl;
    [|exact (conj H1 (conj H2 (conj H3 (conj H4 H5))))].
  refine (conj H1 (conj H2 (conj _ (conj H4 H5)))). simpl.
  destruct (findIndex _ _); [|exact H3].
  apply Forall_updateAt; [|exact H3].
  intros m (M1 & M2 & M3). exact (conj M1 (conj Hc M3)).
Qed.

Lemma renameSession_wf sid ttl l :
  wfString ttl -> Forall wfSession l -> Forall wfSession (renameSession sid ttl l).
Proof.
  intros Hc Hl. unfold renameSession. apply List.Forall_map.
  eapply List.Forall_impl; [|exact Hl]. intros s (H1 & H2 & H3 & H4 & H5).
  destruct (jsstring_eqb (ChatSession.id s) sid);
    [|exact (conj H1 (conj H2 (conj H3 (conj H4 H5))))].
  exact (conj H1 (conj Hc (conj H3 (conj H4 H5)))).
Qed.

Lemma wfString_NewChat : wfString (lit "New Chat").
Proof. unfold wfString. vm_compute lit. literal_wf. Qed.

Lemma wfString_APOLOGY : wfString APOLOGY.
Proof. unfold wfString. vm_compute APOLOGY. literal_wf. Qed.

Lemma newSession_wf uuid created updated :
  wfString uuid -> safeInteger created -> safeInteger updated ->
  wfSession (newSession uuid created updated).
Proof.
  intros Hu Hc Hd.
  exact (conj Hu (conj wfString_NewChat (conj (Forall_nil _) (conj Hc Hd)))).
Qed.

Lemma generateChatTitle_wf r :
  wfPayload (TitleResolved 0 r) -> wfString (generateChatTitle r).
Proof.
  destruct r as [|[t|]]; simpl; intros H; try apply wfString_NewChat.
  destruct (truthy (trim t)); [|apply wfString_NewChat].
  now apply trim_Forall.
Qed.

Lemma step_storable ev sys sys' :
  wfPayload ev -> storable sys -> step ev sys = Some sys' -> storable sys'.
Proof.
  intros Hp (Hs & Hi & Ht) H. unfold storable.
  destruct ev; unfold step in H; simpl in Hp.
  - inversion H; subst sys'; clear H. simpl. destruct Hp as (P1 & P2 & P3).
    repeat split; auto. constructor; [now apply newSession_wf | exact Hs].
  - inversion H; subst sys'; clear H. simpl. auto.
  - inversion H; subst sys'; clear H. simpl.
    assert (Hrm : Forall wfSession (removeSession sid (sessions (app sys)))).
    { apply List.Forall_forall. intros s Hin. apply List.filter_In in Hin.
      destruct Hin as [Hin _]. revert s Hin. now apply List.Forall_forall. }
    unfold handleDeleteSession. destruct (optstring_eqb _ _); simpl; auto.
  - inversion H; subst sys'; clear H. simpl. destruct localSettings; simpl; auto.
  - inversion H; subst sys'; clear H. simpl. auto.
  - destruct (sendBlocked (app sys)) eqn:Hb; [inversion H; subst; auto|].
    destruct Hp as (P1 & P2 & P3 & P4 & P5 & P6).
    destruct (step_send env sys Hb) as (sys1 & Hstep & _ & _ & _ & Hin & _ & _ & Hts & _).
    unfold step in Hstep. rewrite Hb in Hstep. rewrite Hstep in H.
    inversion H; subst sys1; clear H.
    repeat split.
    + pose proof (sendPrologue_sessions env (app sys)) as Hpro.
      pose proof (sendPrologue_userMessage env (app sys)) as Hum.
      pose proof (sendPrologue_target env (app sys)) as Htg. cbv zeta in Htg.
      destruct (sendPrologue env (app sys)) as [l0 st1]. simpl fst in *. simpl snd in *.
      inversion Hstep; subst sys'; clear Hstep. simpl.
      rewrite getChatInstance_sessions, Hpro, <- appendUserMessage_withExchange.
      apply appendUserMessage_wf; auto.
      * rewrite Hum. repeat split; simpl; auto; try apply P5.
        now apply trim_Forall.
      * destruct (noSession (currentSessionId (app sys))); destruct Htg as [_ ->]; auto.
        constructor; [now apply newSession_wf | exact Hs].
    + rewrite Hin. constructor.
    + rewrite Hts. apply List.Forall_app. split; [exact Ht|]. now constructor.
  - task_case sys n H E l0 bid full. inversion H; subst sys'; clear H. simpl.
    destruct Hp as [P1 P2].
    repeat split; auto.
    + apply appendMessage_wf; auto. repeat split; simpl; auto; try apply P2. constructor.
    + apply Forall_updateAt; auto. intros _ _. simpl. constructor.
  - task_case sys n H E l0 bid full. inversion H; subst sys'; clear H. simpl.
    destruct Hp as [P1 P2].
    repeat split; auto.
    + apply appendMessage_wf; auto.
      repeat split; simpl; auto; try apply P2. apply wfString_APOLOGY.
    + now apply Forall_removeNth.
  - task_case sys n H E l0 bid full.
    pose proof (Forall_nth_error _ Ht E) as Hfull. simpl in Hfull.
    unfold onChunk in H. destruct chunkText as [[|x t]|]; simpl in H;
      inversion H; subst sys'; clear H; simpl; repeat split; auto;
      try (apply Forall_updateAt; auto; intros _ _; simpl; exact Hfull).
    + apply updateBotContent_wf; auto. apply List.Forall_app. split; auto.
    + apply Forall_updateAt; auto. intros _ _. simpl.
      apply List.Forall_app. split; auto.
  - task_case sys n H E l0 bid full. inversion H; subst sys'; clear H. simpl.
    repeat split; auto. now apply Forall_removeNth.
  - task_case sys n H E l0 bid full. inversion H; subst sys'; clear H. simpl.
    destruct Hp as [P1 P2].
    repeat split; auto.
    + apply appendMessage_wf; auto.
      repeat split; simpl; auto; try apply P2. apply wfString_APOLOGY.
    + now apply Forall_removeNth.
  - destruct (nth_error (titleCalls sys) n) as [[c [|]]|] eqn:E; try discriminate.
    inversion H; subst sys'; clear H. simpl.
    repeat split; auto. apply renameSession_wf; auto.
    now apply generateChatTitle_wf.
Qed.

Lemma loadSessions_saveSessions l :
  Forall wfSession l -> loadSessions (Some (saveSessions l)) = Loaded l.
Proof.
  intros Hwf.
  assert (Hparse : JSON.parse (saveSessions l) = Some (JSON.Array (List.map sessionToJS l))).
  { unfold saveSessions. apply parse_stringify. apply wfValue_array.
    apply List.Forall_map. eapply List.Forall_impl; [|exact Hwf].
    exact wfValue_sessionToJS. }
  unfold loadSessions. rewrite Hparse.
  assert (Htruthy : truthy (saveSessions l) = true) by reflexivity.
  rewrite Htruthy. unfold sessionsFromJS.
  now rewrite (allFromJS_map sessionFromJS sessionToJS l sessionFromJS_sessionToJS).
Qed.

(** X14. Whatever the user and the model do, the store can be written
    to local storage and read back unchanged: as long as typed text,
    fragments and titles are strings, identifiers are strings and
    clock readings are safe integers, every store the application
    reaches is restored exactly by the start-up code from what the
    save effect wrote. *)
Theorem every_reachable_store_survives_reload evs sys sys' :
  storable sys ->
  Forall wfPayload evs ->
  run evs sys = Some sys' ->
  loadSessions (Some (saveSessions (sessions (app sys')))) = Loaded (sessions (app sys')).
Proof.
  intros Hst Hp Hrun. apply loadSessions_saveSessions.
  assert (H : storable sys'); [|exact (proj1 H)].
  revert sys Hst Hrun. induction Hp as [|ev evs Hev _ IH]; intros sys Hst Hrun; simpl in Hrun.
  - inversion Hrun; subst. exact Hst.
  - destruct (step ev sys) as [sys1|] eqn:E; [|discriminate].
    apply (IH sys1); [|exact Hrun]. exact (step_storable _ Hev Hst E).
Qed.

Lemma every_reachable_store_survives_reload_witness :
  exists sys',
    run Sample.twoExchanges (mounted initialState) = Some sys' /\
    loadSessions (Some (saveSessions (sessions (app sys')))) = Loaded (sessions (app sys')).
Proof.
  eexists. split; [vm_compute; reflexivity|].
  refine (@every_reachable_store_survives_reload Sample.twoExchanges
            (mounted initialState) _ _ _ _).
  - repeat split; constructor.
  - unfold Sample.twoExchanges.
    repeat (apply Forall_cons || apply Forall_nil || split || exact I
            || (unfold safeInteger; simpl; lia)
            || (unfold wfString; vm_compute lit; literal_wf)).
  - vm_compute. reflexivity.
Defined.

(* ================================================================== *)
(** ** Settings: storage and editor *)
(* ================================================================== *)

(** X15. The settings survive storage: what the settings effect writes
    under the settings key is read back at start-up as the same system
    instruction and the same model; with nothing stored, the defaults
    stay. *)
Theorem settings_survive_storage s :
  wfString (systemInstruction s) ->
  wfString (model s) ->
  loadSettings (Some (saveSettings s)) = Some s /\
  loadSettings None = Some DEFAULT_SETTINGS.
Proof.
  intros Hi Hm. split; [|reflexivity].
  assert (Hparse : JSON.parse (saveSettings s) = Some (settingsToJS s)).
  { unfold saveSettings. apply parse_stringify.
    unfold settingsToJS. cbn [JSON.wfValue fold_right fst snd].
    repeat split; try literal_wf; assumption. }
  unfold loadSettings. rewrite Hparse.
  assert (Htruthy : truthy (saveSettings s) = true) by reflexivity.
  rewrite Htruthy. destruct s as [i m]. reflexivity.
Qed.

Lemma settings_survive_storage_witness :
  loadSettings (Some (saveSettings DEFAULT_SETTINGS)) = Some DEFAULT_SETTINGS /\
  loadSettings None = Some DEFAULT_SETTINGS.
Proof.
  refine (@settings_survive_storage DEFAULT_SETTINGS _ _).
  - unfold wfString. vm_compute systemInstruction. literal_wf.
  - unfold wfString. vm_compute model. literal_wf.
Defined.

Lemma applyEdits_form edits ed :
  localForm (applyEdits edits ed)
  = {| systemInstruction := lastInstruction edits (systemInstruction (localForm ed));
       model := lastModel edits (model (localForm ed)) |} /\
  touched (applyEdits edits ed) = (touched ed || negb (Nat.eqb (List.length edits) 0)) /\
  isOpen (applyEdits edits ed) = isOpen ed.
Proof.
  revert ed. induction edits as [|a edits IH]; intros ed.
  - simpl. rewrite orb_false_r. destruct (localForm ed); auto.
  - destruct a as [v|v].
    + change (applyEdits (EditModel v :: edits) ed)
        with (applyEdits edits (editModel v ed)).
      destruct (IH (editModel v ed)) as (F & T & O). rewrite F, T, O.
      simpl. rewrite orb_true_r. auto.
    + change (applyEdits (EditInstruction v :: edits) ed)
        with (applyEdits edits (editInstruction v ed)).
      destruct (IH (editInstruction v ed)) as (F & T & O). rewrite F, T, O.
      simpl. rewrite orb_true_r. auto.
Qed.

(** X16. The editor edits its two fields independently: saving after
    any sequence of edits sets each setting to the last value entered
    for it, or leaves it as it was if none was; it closes the editor
    and changes nothing else of the state but the chat handle. *)
Theorem editor_saves_last_value_of_each_field edits st ed :
  let '(st', ed') := handleSave st (applyEdits edits (openEditor st ed)) in
  settings st'
  = {| systemInstruction := lastInstruction edits (systemInstruction (settings st));
       model := lastModel edits (model (settings st)) |} /\
  isOpen ed' = false /\
  sessions st' = sessions st /\ currentSessionId st' = currentSessionId st /\
  input st' = input st /\ isGenerating st' = isGenerating st /\
  chatInstanceRef st' = match edits with [] => chatInstanceRef st | _ :: _ => None end.
Proof.
  unfold handleSave.
  destruct (applyEdits_form edits (openEditor st ed)) as (F & T & _).
  rewrite T, F. cbn [openEditor touched localForm orb].
  destruct edits as [|a edits]; cbn [List.length Nat.eqb negb onSave].
  - destruct (settings st); repeat split.
  - repeat split.
Qed.

(* ================================================================== *)
(** ** What the main pane shows while a reply is awaited *)
(* ================================================================== *)







(* ================================================================== *)
(** ** The handle and the settings *)
(* ================================================================== *)

Lemma step_handle_current ev sys sys' :
  step ev sys = Some sys' ->
  (chatInstanceRef (app sys') = chatInstanceRef (app sys) /\
   settings (app sys') = settings (app sys)) \/
  chatInstanceRef (app sys') = None \/
  chatInstanceRef (app sys') = Some (handleFor (app sys')).
Proof.
  intros H.
  destruct (isContinuation ev) eqn:Hcont.
  { destruct (step_continuation _ _ Hcont H) as (_ & _ & _ & Hs & Hc). now left. }
  destruct ev; try discriminate Hcont.
  - unfold step in H. inversion H; subst; simpl. auto.
  - unfold step in H. inversion H; subst; simpl. auto.
  - unfold step in H. inversion H; subst; simpl. unfold handleDeleteSession.
    destruct (optstring_eqb _ _); simpl; auto.
  - unfold step in H. inversion H; subst; simpl. destruct localSettings; simpl; auto.
  - unfold step in H. inversion H; subst; simpl. auto.
  - destruct (sendBlocked (app sys)) eqn:Hb.
    + unfold step in H. rewrite Hb in H. inversion H; subst. auto.
    + destruct (step_send env sys Hb) as (sys1 & Hstep & _ & _ & _ & _ & _ & Hset & _).
      rewrite Hstep in H. inversion H; subst sys1.
      destruct (step_handle _ _ Hstep) as [Hsame|[Hn|Hf]]; auto.
Qed.

(** X18. A bound chat handle is never out of date: started without a
    handle, the application at any time holds either no handle or one
    whose system instruction and model are those of the settings then
    in force, whatever was saved, selected, sent or streamed in
    between. *)
Theorem bound_handle_matches_settings evs sys sys' :
  chatInstanceRef (app sys) = None ->
  run evs sys = Some sys' ->
  chatInstanceRef (app sys') = None \/
  exists c,
    chatInstanceRef (app sys') = Some c /\
    chat_systemInstruction c = systemInstruction (settings (app sys')) /\
    chat_model c = model (settings (app sys')).
Proof.
  intros H0 Hrun.
  assert (H : chatInstanceRef (app sys') = None \/
              chatInstanceRef (app sys') = Some (handleFor (app sys'))).
  { refine (@run_preserves
              (fun x => chatInstanceRef (app x) = None \/
                        chatInstanceRef (app x) = Some (handleFor (app x)))
              _ evs sys sys' (or_introl H0) Hrun).
    intros ev s s' HP Hstep.
    destruct (step_handle_current _ _ Hstep) as [[Hc Hs]|[Hn|Hf]]; auto.
    rewrite Hc. unfold handleFor in *. rewrite Hs. exact HP. }
  destruct H as [Hn|Hs]; [now left|].
  right. exists (handleFor (app sys')). split; [exact Hs|]. split; reflexivity.
Qed.

Lemma bound_handle_matches_settings_witness :
  exists sys',
    run [TypeInput (lit " hi "); Send Sample.env;
         SaveSettings (Some {| systemInstruction := lit "Be brief."; model := ModelIds.PRO |});
         StreamOpened 0 Sample.bot; StreamDone 0; TypeInput (lit "more"); Send Sample.env2]
      (mounted initialState) = Some sys' /\
    exists c,
      chatInstanceRef (app sys') = Some c /\
      chat_systemInstruction c = lit "Be brief." /\
      chat_model c = ModelIds.PRO.
Proof.
  eexists. split; [vm_compute; reflexivity|].
  destruct (@bound_handle_matches_settings
              [TypeInput (lit " hi "); Send Sample.env;
               SaveSettings (Some {| systemInstruction := lit "Be brief.";
                                     model := ModelIds.PRO |});
               StreamOpened 0 Sample.bot; StreamDone 0; TypeInput (lit "more");
               Send Sample.env2]
              (mounted initialState) _ eq_refl ltac:(vm_compute; reflexivity))
    as [Hn|(c & Hc & Hi & Hm)].
  - vm_compute in Hn. discriminate Hn.
  - exists c. split; [exact Hc|]. split; [exact Hi | exact Hm].
Defined.

(* ================================================================== *)
(** ** The reply while it streams *)
(* ================================================================== *)

(** X19. While a reply streams, the screen is never ahead of or behind
    the stream: after the stream has opened and any number of fragments
    has arrived, the target session ends with the user message and the
    reply whose content is the concatenation of the non-empty fragments
    received so far, and the busy flag is still up. *)
Theorem reply_shows_fragments_received_so_far env b chunks st :
  sendBlocked st = false ->
  let l := fst (sendPrologue env st) in
  freshPlaceholder l b ->
  exists sys',
    run (Send env :: StreamOpened 0 b :: List.map (Chunk 0) chunks) (mounted st)
    = Some sys' /\
    sessions (app sys')
    = List.map (withExchange (sessionId l) (userMessage l) (env_appendNow env)
                  [Message.mk (env_uuid b) RoleModel
                     (List.concat (nonEmptyFragments chunks)) (env_timestamp b)])
        (sessionList l) /\
    isGenerating (app sys') = true.
Proof.
  intros Hgo l Hfresh.
  rewrite run_cons.
  rewrite (step_send_exact env (mounted st) Hgo). cbn [app tasks titleCalls mounted].
  fold l. cbn [List.app].
  pose proof (sendPrologue_sessions env st) as Hpro. fold l in Hpro.
  pose proof (sendPrologue_fields env st) as (_ & P2 & _). cbv zeta in P2.
  set (st1 := snd (sendPrologue env st)) in *.
  pose proof (getChatInstance_same st1) as (_ & Gs & Gg).
  set (st2 := snd (getChatInstance st1)) in *.
  rewrite run_cons. unfold step at 1. cbn [app tasks titleCalls nth_error updateAt].
  rewrite (run_chunks l (env_uuid b) chunks [] (addPlaceholder l b st2) []).
  eexists. split; [reflexivity|]. cbn [app].
  assert (Hst : sessions (addPlaceholder l b st2)
                = List.map (withExchange (sessionId l) (userMessage l) (env_appendNow env)
                              [Message.withContent (initialBotMessage b) []])
                    (sessionList l)).
  { unfold addPlaceholder. simpl. rewrite Gs, Hpro.
    apply appendMessage_withExchange. }
  pose proof (@forAwait_withExchange l (env_appendNow env) (initialBotMessage b)
                (sessionList l) chunks Hfresh [] (addPlaceholder l b st2) Hst) as Hfa.
  change (Message.id (initialBotMessage b)) with (env_uuid b) in Hfa.
  rewrite Hfa. split; [reflexivity|]. simpl. congruence.
Qed.

Lemma reply_shows_fragments_received_so_far_witness :
  exists sys',
    run (Send Sample.env :: StreamOpened 0 Sample.bot
           :: List.map (Chunk 0) [Some (lit "Hel"); None; Some (lit "lo")])
      (mounted Sample.typed) = Some sys' /\
    sessions (app sys')
    = List.map (withExchange (sessionId (fst (sendPrologue Sample.env Sample.typed)))
                  (userMessage (fst (sendPrologue Sample.env Sample.typed)))
                  (env_appendNow Sample.env)
                  [Message.mk (env_uuid Sample.bot) RoleModel
                     (List.concat (nonEmptyFragments [Some (lit "Hel"); None; Some (lit "lo")]))
                     (env_timestamp Sample.bot)])
        (sessionList (fst (sendPrologue Sample.env Sample.typed))) /\
    isGenerating (app sys') = true.
Proof.
  refine (@reply_shows_fragments_received_so_far Sample.env Sample.bot
            [Some (lit "Hel"); None; Some (lit "lo")] Sample.typed _ _).
  - vm_compute. reflexivity.
  - intros s Hin Hid. vm_compute in Hin. destruct Hin as [<-|[]].
    vm_compute. intros [H|[]]. discriminate H.
Defined.
